(** * Company name and contact resolution engine: a shallow embedding

    The engine lives in the crawler's main script
    ([parseCompanyAndLocation], [getTitlePriority], [calculateEmailScore],
    [processEmails], [getCompanyInfoWithSource], [getCompanyInfo]).  The
    script exists in two generations: the "Hunter" generation, which
    queries the contact directory, and the "SearchAPI" generation, in which
    contact collection is switched off and a domain discovery step is
    added.  They are embedded below as [Hunter] and [SearchApi]; what the
    two share (strings, regular expressions, the parser, the title scorer)
    comes first.

    JavaScript strings are sequences of UTF-16 code units and are modelled
    as [list N].  Case mapping ([toLowerCase], the [i] flag of regular
    expressions) is modelled on the code units below U+0100; code units
    above are treated as caseless.  Where an email address as the
    directory sent it is lower-cased (the key of the merge, the domain
    comparison, the test for a role address) the mapping of the engine is
    a part of the world, [lowerCase]. *)

From Stdlib Require Import List NArith ZArith QArith Lia Lqa Bool String Ascii.
From Stdlib Require Import Permutation Sorted DecimalString.
Import ListNotations.

Set Implicit Arguments.
Local Open Scope Z_scope.

(* ================================================================== *)
(** ** JavaScript strings *)

Module JS.

Definition char := N.
Definition jsstring := list char.

(** An ASCII literal as a JavaScript string. *)
Definition js (s : string) : jsstring :=
  List.map N_of_ascii (list_ascii_of_string s).

(** The code unit of a one-character ASCII literal. *)
Definition chr (s : string) : char :=
  match js s with c :: _ => c | [] => 0%N end.

Definition bullet : jsstring := [8226%N].      (* U+2022 *)
Definition e_acute : char := 233%N.            (* U+00E9 *)

Definition len {A : Type} (s : list A) : Z := Z.of_nat (List.length s).

Definition between (lo hi c : char) : bool := (N.leb lo c && N.leb c hi)%bool.

Fixpoint jseqb (a b : jsstring) : bool :=
  match a, b with
  | [], [] => true
  | x :: a', y :: b' => (N.eqb x y && jseqb a' b')%bool
  | _, _ => false
  end.

Local Open Scope N_scope.

(** [\w], [\d] and [\s] of a regular expression without the [u] flag. *)
Definition isWordChar (c : char) : bool :=
  (between 65 90 c || between 97 122 c || between 48 57 c || N.eqb c 95)%bool.

Definition isDigit (c : char) : bool := between 48 57 c.

Definition isWhiteSpace (c : char) : bool :=
  (between 9 13 c || N.eqb c 32 || N.eqb c 160 || N.eqb c 5760
   || between 8192 8202 c || N.eqb c 8232 || N.eqb c 8233 || N.eqb c 8239
   || N.eqb c 8287 || N.eqb c 12288 || N.eqb c 65279)%bool.

Definition isLineTerminator (c : char) : bool :=
  (N.eqb c 10 || N.eqb c 13 || N.eqb c 8232 || N.eqb c 8233)%bool.

Definition lowerChar (c : char) : char :=
  if (between 65 90 c || (between 192 222 c && negb (N.eqb c 215)))%bool
  then (c + 32)%N else c.

(** Canonicalisation of the [i] flag: simple upper-casing. *)
Definition canonChar (c : char) : char :=
  if (between 97 122 c || (between 224 254 c && negb (N.eqb c 247)))%bool
  then (c - 32)%N else c.

Local Close Scope N_scope.

(** [s.toLowerCase()] as it works on code units below U+0100; a code unit
    from U+0100 up is left as it is.  This is the method on the texts the
    scripts have cleaned with [cleanSpecialCharacters] or spell out
    themselves; on a title, an address or a cache key it is the method as
    long as the text stays below U+0100.  What the method does to a text
    that can hold any code unit is decided by the Unicode tables of the
    engine (U+212A becomes "k", U+0130 becomes two code units): for an
    email address as the directory sent it, which the merge, the domain
    check and the score lower-case, the model takes the method from the
    world, as [lowerCase]. *)
Definition toLowerCase (s : jsstring) : jsstring := List.map lowerChar s.

Fixpoint startsWith (s p : jsstring) : bool :=
  match p, s with
  | [], _ => true
  | x :: p', y :: s' => (N.eqb x y && startsWith s' p')%bool
  | _ :: _, [] => false
  end.

Definition endsWith (s p : jsstring) : bool := startsWith (rev s) (rev p).

Fixpoint findFrom (sub s : jsstring) (i : nat) : option nat :=
  if startsWith s sub then Some i
  else match s with
       | [] => None
       | _ :: t => findFrom sub t (S i)
       end.

Definition clamp (n : Z) (s : jsstring) : nat :=
  Z.to_nat (Z.min (Z.max n 0) (len s)).

(** [s.indexOf(sub, from)] *)
Definition indexOfFrom (s sub : jsstring) (from : Z) : Z :=
  let k := clamp from s in
  match findFrom sub (skipn k s) k with
  | Some i => Z.of_nat i
  | None => -1
  end.

Definition indexOf (s sub : jsstring) : Z := indexOfFrom s sub 0.

Definition includes (s sub : jsstring) : bool := 0 <=? indexOf s sub.

Fixpoint findLast (sub s : jsstring) (i : nat) (acc : option nat) : option nat :=
  let acc' := if startsWith s sub then Some i else acc in
  match s with
  | [] => acc'
  | _ :: t => findLast sub t (S i) acc'
  end.

Definition lastIndexOf (s sub : jsstring) : Z :=
  match findLast sub s 0 None with
  | Some i => Z.of_nat i
  | None => -1
  end.

(** [s.substring(a, b)]: both ends clamped, swapped when out of order. *)
Definition substring (s : jsstring) (a b : Z) : jsstring :=
  let a' := clamp a s in
  let b' := clamp b s in
  let lo := Nat.min a' b' in
  let hi := Nat.max a' b' in
  firstn (hi - lo) (skipn lo s).

Definition substringFrom (s : jsstring) (a : Z) : jsstring :=
  substring s a (len s).

Definition charAt (s : jsstring) (i : Z) : jsstring :=
  if (0 <=? i) && (i <? len s) then firstn 1 (skipn (Z.to_nat i) s) else [].

Fixpoint trimStart (s : jsstring) : jsstring :=
  match s with
  | c :: t => if isWhiteSpace c then trimStart t else s
  | [] => []
  end.

Definition trimEnd (s : jsstring) : jsstring := rev (trimStart (rev s)).

Definition trim (s : jsstring) : jsstring := trimEnd (trimStart s).

(** [s.split(sep)] for a non-empty separator string. *)
Fixpoint splitAux (sep s cur : jsstring) (skip : nat) : list jsstring :=
  match s with
  | [] => [rev cur]
  | c :: t =>
      match skip with
      | S k => splitAux sep t cur k
      | O => if startsWith s sep
             then rev cur :: splitAux sep t [] (List.length sep - 1)
             else splitAux sep t (c :: cur) O
      end
  end.

Definition split (s sep : jsstring) : list jsstring := splitAux sep s [] O.

(** Truthiness of a string value. *)
Definition truthy (s : jsstring) : bool :=
  match s with [] => false | _ => true end.

(** [a || b] on string values. *)
Definition orElse (a b : jsstring) : jsstring := if truthy a then a else b.

(** Truthiness of a possibly undefined string. *)
Definition truthyOpt (o : option jsstring) : bool :=
  match o with Some s => truthy s | None => false end.

(** [array.join(sep)] *)
Fixpoint join (sep : jsstring) (l : list jsstring) : jsstring :=
  match l with
  | [] => []
  | [x] => x
  | x :: t => x ++ sep ++ join sep t
  end.

(** [array.includes(x)] on strings. *)
Definition arrayIncludes (l : list jsstring) (x : jsstring) : bool :=
  existsb (jseqb x) l.

(** [array.indexOf(x)] on strings. *)
Fixpoint arrayIndexOfFrom (l : list jsstring) (x : jsstring) (i : Z) : Z :=
  match l with
  | [] => -1
  | y :: t => if jseqb y x then i else arrayIndexOfFrom t x (i + 1)
  end.

Definition arrayIndexOf (l : list jsstring) (x : jsstring) : Z :=
  arrayIndexOfFrom l x 0.

(** [array.sort(cmp)]: the sort is stable; [cmp a b <= 0] keeps [a] first. *)
Section Sort.
Context {A : Type} (cmp : A -> A -> Q).

Fixpoint insertSorted (x : A) (l : list A) : list A :=
  match l with
  | [] => [x]
  | y :: t => if Qle_bool (cmp x y) 0 then x :: l else y :: insertSorted x t
  end.

Definition sort (l : list A) : list A := fold_right insertSorted [] l.
End Sort.

End JS.

(* ================================================================== *)
(** ** Regular expressions

    A backtracking matcher for the fragment of the regular-expression
    language the script uses: literals, [.], classes, sequence,
    alternation, greedy [*] [+] [?], capture groups, [^], [$] and [\b],
    with or without the [i] flag (no [m], [s] or [u] flag occurs). *)

Module Regex.
Import JS.

Inductive citem : Type :=
| CChar (c : char)
| CRange (lo hi : char)
| CWord                       (* \w *)
| CSpace                      (* \s *)
| CDigit.                     (* \d *)

Inductive regex : Type :=
| REmpty
| RChar (c : char)
| RAny                                        (* . *)
| RSet (negated : bool) (items : list citem)  (* [...] and [^...] *)
| RSeq (r1 r2 : regex)
| RAlt (r1 r2 : regex)
| RStar (r : regex)
| ROpt (r : regex)
| RGroup (n : nat) (r : regex)                (* n-th capture group *)
| RBol                                        (* ^ *)
| REol                                        (* $ *)
| RWordB.                                     (* \b *)

Definition RPlus (r : regex) : regex := RSeq r (RStar r).

(** A literal string as a pattern. *)
Fixpoint lit (s : jsstring) : regex :=
  match s with
  | [] => REmpty
  | [c] => RChar c
  | c :: t => RSeq (RChar c) (lit t)
  end.

Fixpoint seqs (l : list regex) : regex :=
  match l with
  | [] => REmpty
  | [r] => r
  | r :: t => RSeq r (seqs t)
  end.

Fixpoint alts (l : list regex) : regex :=
  match l with
  | [] => RSet false []
  | [r] => r
  | r :: t => RAlt r (alts t)
  end.

Definition RSpace : regex := RSet false [CSpace].
Definition RDigit : regex := RSet false [CDigit].

(** Pattern source text spliced into [new RegExp(...)]: the spliced
    strings are place names, in which [.] is the only character with a
    meaning of its own. *)
Fixpoint ofSource (s : jsstring) : regex :=
  match s with
  | [] => REmpty
  | c :: t =>
      let a := if N.eqb c 46 then RAny else RChar c in
      match t with
      | [] => a
      | _ => RSeq a (ofSource t)
      end
  end.

Definition inItem (c : char) (it : citem) : bool :=
  match it with
  | CChar x => N.eqb x c
  | CRange lo hi => between lo hi c
  | CWord => isWordChar c
  | CSpace => isWhiteSpace c
  | CDigit => isDigit c
  end.

Definition charEq (ci : bool) (p c : char) : bool :=
  if ci then N.eqb (canonChar p) (canonChar c) else N.eqb p c.

Definition inSet (ci : bool) (items : list citem) (c : char) : bool :=
  (existsb (inItem c) items
   || (ci && (existsb (inItem (canonChar c)) items
              || existsb (inItem (lowerChar c)) items)))%bool.

(** A position in the subject: index, the code unit before it, the rest. *)
Record pos : Type := mkPos { idx : nat; prev : option char; rest : jsstring }.

Definition caps : Type := list (nat * jsstring).

Definition atWordBoundary (p : pos) : bool :=
  let a := match prev p with Some c => isWordChar c | None => false end in
  let b := match rest p with c :: _ => isWordChar c | [] => false end in
  xorb a b.

Definition step1 (p : pos) (ok : char -> bool) : option pos :=
  match rest p with
  | c :: t => if ok c then Some (mkPos (S (idx p)) (Some c) t) else None
  | [] => None
  end.

Definition cont : Type := pos -> caps -> option (pos * caps).

Fixpoint m (ci : bool) (r : regex) (p : pos) (cs : caps) (k : cont)
  {struct r} : option (pos * caps) :=
  match r with
  | REmpty => k p cs
  | RChar c =>
      match step1 p (charEq ci c) with Some p' => k p' cs | None => None end
  | RAny =>
      match step1 p (fun c => negb (isLineTerminator c)) with
      | Some p' => k p' cs | None => None end
  | RSet neg items =>
      match step1 p (fun c => xorb neg (inSet ci items c)) with
      | Some p' => k p' cs | None => None end
  | RSeq r1 r2 => m ci r1 p cs (fun p1 c1 => m ci r2 p1 c1 k)
  | RAlt r1 r2 =>
      match m ci r1 p cs k with
      | Some x => Some x
      | None => m ci r2 p cs k
      end
  | RStar r1 =>
      (fix loop (fuel : nat) (p0 : pos) (c0 : caps) {struct fuel}
         : option (pos * caps) :=
         match fuel with
         | O => k p0 c0
         | S f =>
             match m ci r1 p0 c0
                     (fun p1 c1 =>
                        if Nat.eqb (idx p1) (idx p0) then None
                        else loop f p1 c1) with
             | Some x => Some x
             | None => k p0 c0
             end
         end) (S (List.length (rest p))) p cs
  | ROpt r1 =>
      match m ci r1 p cs k with
      | Some x => Some x
      | None => k p cs
      end
  | RGroup n r1 =>
      m ci r1 p cs
        (fun p1 c1 => k p1 ((n, firstn (idx p1 - idx p) (rest p)) :: c1))
  | RBol => if Nat.eqb (idx p) 0 then k p cs else None
  | REol => match rest p with [] => k p cs | _ => None end
  | RWordB => if atWordBoundary p then k p cs else None
  end.

Definition matchAt (ci : bool) (r : regex) (p : pos) : option (pos * caps) :=
  m ci r p [] (fun p' c => Some (p', c)).

(** The result of a successful match. *)
Record mres : Type :=
  mkMres { m_index : nat; m_text : jsstring; m_end : pos; m_groups : caps }.

(** Leftmost match at or after a position. *)
Fixpoint searchFrom (ci : bool) (r : regex) (i : nat) (pv : option char)
  (s : jsstring) {struct s} : option mres :=
  match matchAt ci r (mkPos i pv s) with
  | Some (pe, c) => Some (mkMres i (firstn (idx pe - i) s) pe c)
  | None =>
      match s with
      | [] => None
      | x :: t => searchFrom ci r (S i) (Some x) t
      end
  end.

(** [re.exec(s)] / [s.match(re)] without the [g] flag. *)
Definition exec (ci : bool) (r : regex) (s : jsstring) : option mres :=
  searchFrom ci r 0 None s.

(** [re.test(s)] *)
Definition test (ci : bool) (r : regex) (s : jsstring) : bool :=
  match exec ci r s with Some _ => true | None => false end.

(** [$n] in a replacement: the capture, empty when the group took no part. *)
Fixpoint group (n : nat) (c : caps) : jsstring :=
  match c with
  | [] => []
  | (k, v) :: t => if Nat.eqb k n then v else group n t
  end.

(** [s.replace(re, repl)] without the [g] flag. *)
Definition replace (ci : bool) (r : regex) (repl : mres -> jsstring)
  (s : jsstring) : jsstring :=
  match exec ci r s with
  | Some mr => firstn (m_index mr) s ++ repl mr ++ rest (m_end mr)
  | None => s
  end.

(** [s.replace(re, repl)] with the [g] flag. *)
Fixpoint replaceAllFrom (fuel : nat) (ci : bool) (r : regex)
  (repl : mres -> jsstring) (p : pos) : jsstring :=
  match fuel with
  | O => rest p
  | S f =>
      match searchFrom ci r (idx p) (prev p) (rest p) with
      | None => rest p
      | Some mr =>
          let before := firstn (m_index mr - idx p) (rest p) in
          let e := m_end mr in
          if Nat.eqb (idx e) (m_index mr) then
            match rest e with
            | [] => before ++ repl mr
            | c :: t =>
                before ++ repl mr ++ c ::
                  replaceAllFrom f ci r repl (mkPos (S (idx e)) (Some c) t)
            end
          else before ++ repl mr ++ replaceAllFrom f ci r repl e
      end
  end.

Definition replaceAll (ci : bool) (r : regex) (repl : mres -> jsstring)
  (s : jsstring) : jsstring :=
  replaceAllFrom (S (List.length s)) ci r repl (mkPos 0 None s).

(** [s.split(re)] for a pattern without capture groups. *)
Fixpoint splitFrom (fuel : nat) (ci : bool) (r : regex) (pidx : nat)
  (cur : jsstring) (q : pos) : list jsstring :=
  match fuel with
  | O => [rev cur ++ rest q]
  | S f =>
      match rest q with
      | [] => [rev cur]
      | c :: t =>
          let next := mkPos (S (idx q)) (Some c) t in
          match matchAt ci r q with
          | None => splitFrom f ci r pidx (c :: cur) next
          | Some (pe, _) =>
              if Nat.eqb (idx pe) pidx
              then splitFrom f ci r pidx (c :: cur) next
              else rev cur :: splitFrom f ci r (idx pe) [] pe
          end
      end
  end.

Definition splitRe (ci : bool) (r : regex) (s : jsstring) : list jsstring :=
  match s with
  | [] => match matchAt ci r (mkPos 0 None []) with
          | Some _ => []
          | None => [[]]
          end
  | _ => splitFrom (S (S (2 * List.length s))) ci r 0 [] (mkPos 0 None s)
  end.

End Regex.

Import JS Regex.
Local Open Scope string_scope.
Local Open Scope list_scope.
Local Open Scope Z_scope.

(** First element of a list on which [f] answers, as a loop that returns
    from inside its body. *)
Fixpoint findFirst {A B : Type} (f : A -> option B) (l : list A) : option B :=
  match l with
  | [] => None
  | x :: t => match f x with Some y => Some y | None => findFirst f t end
  end.

Definition ws : regex := RPlus RSpace.                       (* \s+ *)
Definition upperAZ : citem := CRange (chr "A") (chr "Z").
Definition lowerAZ : citem := CRange (chr "a") (chr "z").

(** [s.replace(/\s+/g, '')] *)
Definition removeSpaces (s : jsstring) : jsstring :=
  replaceAll false ws (fun _ => []) s.

(* ================================================================== *)
(** ** Text normaliser *)

(** [/[^\w\s.,&'-]/g] *)
Definition specialCharacter : regex :=
  RSet true [CWord; CSpace; CChar (chr "."); CChar (chr ","); CChar (chr "&");
             CChar (chr "'"); CChar (chr "-")].

(** The argument is [None] for [undefined] or [null]. *)
Definition cleanSpecialCharacters (text : option jsstring) : jsstring :=
  match text with
  | None => []
  | Some t => if truthy t then replaceAll false specialCharacter (fun _ => []) t
              else []
  end.

(* ================================================================== *)
(** ** Title priority scorer *)

Definition TITLE_PRIORITY : list jsstring := List.map js [
  (* HR & Talent Acquisition roles *)
  "chief people officer"; "chief human resources officer"; "chro";
  "head of hr"; "head of human resources"; "head of people"; "head of talent";
  "hr director"; "human resources director"; "people director";
  "talent director"; "talent acquisition director";
  "vp of hr"; "vp of human resources"; "vp of people"; "vp of talent";
  "vp of talent acquisition";
  "people operations"; "people ops"; "talent operations";
  "hr manager"; "human resources manager"; "people manager"; "talent manager";
  "talent acquisition manager";
  "hr specialist"; "human resources specialist"; "people specialist";
  "talent specialist";
  "recruiter"; "talent recruiter"; "technical recruiter"; "executive recruiter";
  "hr"; "human resources"; "people"; "talent"; "talent acquisition";
  (* C-level executives *)
  "ceo"; "chief executive officer";
  "president";
  "coo"; "chief operating officer";
  "chief people officer"; "chief talent officer";
  "chief";
  (* Regional/Area leadership *)
  "regional director"; "area director"; "district director";
  "regional manager"; "area manager"; "district manager";
  "regional"; "area"; "district";
  (* Directors *)
  "director of operations"; "operations director";
  "director of hr"; "director of human resources"; "director of people";
  "director of recruiting"; "recruiting director";
  "director";
  (* Other executives/management *)
  "vice president"; "vp";
  "general manager"; "gm";
  "manager";
  "executive";
  "founder"; "owner"; "partner";
  (* Other terms *)
  "recruiting"; "hiring"; "employment"; "personnel"
].

(** [{ key, alt }] *)
Record keyAlt : Type := mkKeyAlt { key : jsstring; alt : jsstring }.

Definition roleTypes : list keyAlt := [
  mkKeyAlt (js "hr") (js "human resources");
  mkKeyAlt (js "talent") (js "talent acquisition");
  mkKeyAlt (js "people") (js "people operations") ].

Definition levelTypes : list keyAlt := [
  mkKeyAlt (js "manager") (js "manager of");
  mkKeyAlt (js "director") (js "director of");
  mkKeyAlt (js "vp") (js "vice president");
  mkKeyAlt (js "head") (js "head of");
  mkKeyAlt (js "chief") (js "chief") ].

(** One turn of the inner loop over role and level: the standard index
    when the title contains one of the eight word orders. *)
Definition roleLevelMatch (lowerTitle : jsstring) (role level : keyAlt)
  : option Z :=
  let patternA := key role ++ js " " ++ key level in
  let patternB := key level ++ js " of " ++ key role in
  let patternC := key level ++ js ", " ++ key role in
  let patternD := alt role ++ js " " ++ key level in
  let patternE := key level ++ js " of " ++ alt role in
  let patternF := key level ++ js ", " ++ alt role in
  let patternG := alt level ++ js " " ++ key role in
  let patternH := alt level ++ js " " ++ alt role in
  let standardIndex0 := arrayIndexOf TITLE_PRIORITY (key role ++ js " " ++ key level) in
  let standardIndex :=
    if standardIndex0 =? -1
    then arrayIndexOf TITLE_PRIORITY (alt role ++ js " " ++ key level)
    else standardIndex0 in
  if negb (standardIndex =? -1)
     && (includes lowerTitle patternA || includes lowerTitle patternB
         || includes lowerTitle patternC || includes lowerTitle patternD
         || includes lowerTitle patternE || includes lowerTitle patternF
         || includes lowerTitle patternG || includes lowerTitle patternH)
  then Some standardIndex else None.

(** The loop over "vp of ..." terms. *)
Fixpoint vpScan (lowerTitle : jsstring) (l : list jsstring) (i : Z) : option Z :=
  match l with
  | [] => None
  | term :: t =>
      if startsWith term (js "vp of ") && includes lowerTitle (substringFrom term 6)
      then Some i else vpScan lowerTitle t (i + 1)
  end.

(** [/(^|\s)chief($|\s|,)/] *)
Definition realChief : regex :=
  seqs [RGroup 1 (RAlt RBol RSpace); lit (js "chief");
        RGroup 2 (alts [REol; RSpace; RChar (chr ",")])].

(** The final substring scan over the ordered list. *)
Fixpoint substringScan (lowerTitle : jsstring) (l : list jsstring) (i : Z)
  : option Z :=
  match l with
  | [] => None
  | priorityTerm :: t =>
      if includes priorityTerm (js " ")
         && forallb (fun word => includes lowerTitle word)
                    (split priorityTerm (js " "))
      then Some i
      else if jseqb priorityTerm (js "chief") && includes lowerTitle (js "chief")
      then
        let isRealChief :=
          test false realChief lowerTitle
          || (includes lowerTitle (js "chief ")
              && negb (includes lowerTitle (js "chief cook"))) in
        if isRealChief then Some i else substringScan lowerTitle t (i + 1)
      else if includes lowerTitle priorityTerm then Some i
      else substringScan lowerTitle t (i + 1)
  end.

Definition getTitlePriority (title : jsstring) : Z :=
  if negb (truthy title) then len TITLE_PRIORITY + 1 else
  let lowerTitle := toLowerCase title in
  let exactMatchIndex := arrayIndexOf TITLE_PRIORITY lowerTitle in
  if negb (exactMatchIndex =? -1) then exactMatchIndex else
  match findFirst (fun role => findFirst (roleLevelMatch lowerTitle role) levelTypes)
                  roleTypes with
  | Some standardIndex => standardIndex
  | None =>
      let vp :=
        if (includes lowerTitle (js "vp") || includes lowerTitle (js "vice president"))
           && (includes lowerTitle (js "hr")
               || includes lowerTitle (js "human resources")
               || includes lowerTitle (js "people")
               || includes lowerTitle (js "talent"))
        then vpScan lowerTitle TITLE_PRIORITY 0 else None in
      match vp with
      | Some i => i
      | None =>
          match substringScan lowerTitle TITLE_PRIORITY 0 with
          | Some i => i
          | None => len TITLE_PRIORITY + 1
          end
      end
  end.

(* ================================================================== *)
(** ** Company name cleaning for the directory search *)

(** [/\s+(restaurant|bar|café|cafe|grill|bistro|tavern|kitchen|hospitality|group|llc|inc|corporation)\b/gi] *)
Definition entitySuffix : regex :=
  seqs [ws;
        RGroup 1 (alts [lit (js "restaurant"); lit (js "bar");
                        lit (js "caf" ++ [e_acute]); lit (js "cafe");
                        lit (js "grill"); lit (js "bistro"); lit (js "tavern");
                        lit (js "kitchen"); lit (js "hospitality");
                        lit (js "group"); lit (js "llc"); lit (js "inc");
                        lit (js "corporation")]);
        RWordB].

(** [/\s+[,-]\s+.*$/] *)
Definition locationMarker : regex :=
  seqs [ws; RSet false [CChar (chr ","); CChar (chr "-")]; ws; RStar RAny; REol].

Definition cleanCompanyName (input : jsstring) : jsstring :=
  if negb (truthy input) then [] else
  let cleaned :=
    trim (replace false locationMarker (fun _ => [])
            (replaceAll true entitySuffix (fun _ => []) input)) in
  orElse cleaned input.

(* ================================================================== *)
(** ** Cell text and job links *)

Definition MAX_CELL_LENGTH : Z := 50000.
Definition BASE_URL : jsstring := js "https://culinaryagents.com".

Definition truncateText (text : jsstring) (maxLength : Z) : jsstring :=
  if negb (truthy text) then [] else
  if len text >? maxLength
  then substring text 0 (maxLength - 3) ++ js "..."
  else text.

(** The argument is [None] for a missing [href]; the answer [None] is
    [null]. *)
Definition ensureAbsoluteUrl (url : option jsstring) : option jsstring :=
  match url with
  | None => None
  | Some u =>
      if negb (truthy u) then None else
      Some (if startsWith u (js "http") then u
            else BASE_URL ++ (if startsWith u (js "/") then [] else js "/") ++ u)
  end.

(* ================================================================== *)
(** ** Company name parser *)

Definition PARTIAL_EXCLUSIONS : list jsstring :=
  List.map toLowerCase (List.map js ["whole foods"]).

Record parsedCompany : Type := mkParsed { name : jsstring; location : jsstring }.

Definition genericTerms : list jsstring := List.map js [
  "restaurant group"; "hospitality group"; "restaurant"; "hospitality";
  "group"; "consulting"; "management"; "restaurant consulting";
  "hospitality consulting"; "food and beverage"; "f&b";
  "bar"; "cafe"; "bistro"; "tavern"; "eatery"; "catering";
  "culinary"; "culinary group"; "bakery"; "dining"; "dining group";
  "restaurant management"; "hospitality management"; "fine dining" ].

Definition commonLocations : list jsstring := List.map js [
  (* Major cities *)
  "New York"; "Los Angeles"; "Chicago"; "Houston"; "Phoenix"; "Philadelphia";
  "San Antonio"; "San Diego"; "Dallas"; "San Jose"; "Austin"; "Jacksonville";
  "Fort Worth"; "Columbus"; "Indianapolis"; "Charlotte"; "San Francisco";
  "Seattle"; "Denver"; "Washington"; "Boston"; "El Paso"; "Nashville";
  "Detroit"; "Oklahoma City"; "Portland"; "Las Vegas"; "Memphis"; "Louisville";
  "Baltimore"; "Milwaukee"; "Albuquerque"; "Tucson"; "Fresno"; "Sacramento";
  "Kansas City"; "Miami"; "Omaha"; "Raleigh"; "Oakland"; "Minneapolis";
  "Tulsa"; "Cleveland"; "Wichita"; "Arlington"; "New Orleans"; "Bakersfield";
  "Tampa"; "Honolulu"; "Aurora"; "Anaheim"; "Santa Ana"; "St. Louis";
  "Pittsburgh"; "Cincinnati"; "Henderson"; "Riverside"; "St. Paul";
  (* NYC boroughs *)
  "Manhattan"; "Brooklyn"; "Queens"; "The Bronx"; "Staten Island"; "NYC";
  (* Common state abbreviations *)
  "NY"; "LA"; "IL"; "CA"; "FL"; "TX"; "GA"; "MA"; "SF"; "DC"; "PA";
  "WA"; "CO"; "AZ"; "TN"; "MO"; "OR"; "NV"; "KY"; "IN"; "OH"; "NC";
  "MI"; "MD"; "VA"; "NJ"; "MN" ].

Definition restaurantKeywords : list jsstring := List.map js [
  "restaurants by"; "restaurants of"; "restaurant group"; "hospitality group";
  "dining group"; "food group"; "culinary group"; "chef"; "kitchen";
  "bistro"; "cafe"; "dining"; "eatery"; "tavern"; "grill"; "restaurant" ].

Definition jobTitlePrefixes : list jsstring := List.map js [
  "chef"; "sous chef"; "pastry chef"; "head chef"; "executive chef";
  "general manager"; "assistant manager"; "manager"; "director";
  "server"; "bartender"; "host"; "hostess"; "cook"; "line cook";
  "a.m."; "p.m."; "morning"; "evening"; "night"; "day"; "weekend" ].

Definition standaloneIndustryTerms : list jsstring := List.map js [
  "restaurant"; "hospitality"; "bar"; "cafe"; "bistro"; "tavern";
  "eatery"; "catering"; "culinary"; "bakery"; "dining" ].

Definition validLocationPrefixTerms : list jsstring := List.map js [
  "brewery"; "culinary"; "dining"; "restaurants"; "kitchen"; "tavern"; "bistro" ].

(** [$1 $2] *)
Definition dollar1Space2 (mr : mres) : jsstring :=
  group 1 (m_groups mr) ++ js " " ++ group 2 (m_groups mr).

(** Step 2.5, first half: a city glued to the word before it. *)

(** [new RegExp(`([a-z])${location}`, 'i')] *)
Definition cityPattern (location : jsstring) : regex :=
  RSeq (RGroup 1 (RSet false [lowerAZ])) (ofSource location).

(** The regular-expression literal [/Hour${location}/i]: in a literal
    nothing is spliced, so this is [Hour], end of input, then the text
    [{location}]. *)
Definition hourLiteral : regex :=
  seqs [lit (js "Hour"); REol; lit (js "{location}")].

(** [new RegExp(`Hour${location}`, 'i')] *)
Definition hourPattern (location : jsstring) : regex :=
  RSeq (lit (js "Hour")) (ofSource location).

Definition fixGluedCity (namePart location : jsstring) : jsstring :=
  if (len location >=? 5) && includes namePart location
     && negb (includes namePart (js " " ++ location))
  then
    if test true (cityPattern location) namePart then
      if test true hourLiteral namePart
      then replace true (hourPattern location)
                   (fun _ => js "Hour " ++ location) namePart
      else replace true (cityPattern location)
                   (fun mr => group 1 (m_groups mr) ++ js " " ++ location)
                   namePart
    else namePart
  else namePart.

(** Step 2.5, second half:
    [/(\b(?:hour|room|cafe|bar|club|bistro|grill|tap|lounge|den|pub|inn|shop|house|bakery))([A-Z][a-z]+)/i] *)
Definition wordBoundaryPattern : regex :=
  RSeq
    (RGroup 1
       (RSeq RWordB
          (alts (List.map (fun w => lit (js w))
                   ["hour"; "room"; "cafe"; "bar"; "club"; "bistro"; "grill";
                    "tap"; "lounge"; "den"; "pub"; "inn"; "shop"; "house";
                    "bakery"]))))
    (RGroup 2 (RSeq (RSet false [upperAZ]) (RPlus (RSet false [lowerAZ])))).

Definition fixGluedWords (namePart : jsstring) : jsstring :=
  if negb (includes namePart (js "Barbecue")) && negb (includes namePart (js " - "))
  then
    match exec true wordBoundaryPattern namePart with
    | Some _ => replace true wordBoundaryPattern dollar1Space2 namePart
    | None => namePart
    end
  else namePart.

(** Step 3: whole-name forms that are kept intact. *)

(** [/^[A-Z\s.'&]+\s+<W1>\s+<W2>$/i] *)
Definition allCapsPattern (w1 w2 : string) : regex :=
  seqs [RBol;
        RPlus (RSet false [upperAZ; CSpace; CChar (chr "."); CChar (chr "'");
                           CChar (chr "&")]);
        ws; lit (js w1); ws; lit (js w2); REol].

(** [/^(.+\s+)<w1>\s+<w2>$/i] *)
Definition endingPattern (w1 w2 : string) : regex :=
  seqs [RBol; RGroup 1 (RSeq (RPlus RAny) ws); lit (js w1); ws; lit (js w2); REol].

Definition excludedEndingPatterns : list regex := [
  endingPattern "restaurant" "group";
  endingPattern "hospitality" "group";
  endingPattern "fine" "dining";
  endingPattern "culinary" "group";
  endingPattern "dining" "group";
  endingPattern "restaurant" "management";
  endingPattern "hospitality" "management" ].

(** [/Group\s*NYC\b/i] *)
Definition groupNYC : regex :=
  seqs [lit (js "Group"); RStar RSpace; lit (js "NYC"); RWordB].

(** Step 3, keyword extraction: the inner loop that looks for the place
    name closing the company name. *)
Definition keywordEnd (namePart : jsstring) (startIndex : Z) : Z :=
  let endIndex := len namePart in
  match findFirst
          (fun location =>
             let locationIndex := indexOfFrom namePart location startIndex in
             if (locationIndex >? startIndex) && (locationIndex <? endIndex)
             then Some locationIndex else None)
          commonLocations with
  | Some locationIndex => locationIndex
  | None => endIndex
  end.

(** The loop over [restaurantKeywords]; answers the extracted name, or
    [None] when no keyword led to an extraction. *)
Fixpoint keywordLoop (keywords : list jsstring) (namePart : jsstring)
  : option jsstring :=
  match keywords with
  | [] => None
  | keyword :: more =>
      let index := indexOf (toLowerCase namePart) keyword in
      if index >? 3 then
        let beforeKeyword := trim (substring namePart 0 index) in
        if len (splitRe false ws beforeKeyword) >=? 2
        then keywordLoop more namePart
        else
          let startIndex := index in
          let endIndex := keywordEnd namePart startIndex in
          let potentialCompany := trim (substring namePart startIndex endIndex) in
          let potentialLower := toLowerCase potentialCompany in
          let isExactGenericTerm :=
            arrayIncludes genericTerms potentialLower
            || jseqb potentialLower (js "restaurant group")
            || jseqb potentialLower (js "fine dining") in
          let wordCount :=
            len (filter (fun w => len w >? 1) (splitRe false ws potentialCompany)) in
          let isGenericPlusOneWord :=
            (wordCount <=? 3)
            && (endsWith potentialLower (js " restaurant group")
                || endsWith potentialLower (js " fine dining")
                || endsWith potentialLower (js " hospitality group")
                || endsWith potentialLower (js " restaurant")
                || endsWith potentialLower (js " hospitality")) in
          if isExactGenericTerm || isGenericPlusOneWord
          then keywordLoop more namePart
          else if len potentialCompany >? len keyword + 2
          then Some potentialCompany
          else keywordLoop more namePart
      else keywordLoop more namePart
  end.

(** Step 4: a place name glued to the company name.

    [new RegExp(`([a-zA-Z])(${location}\\b)`, 'i')] *)
Definition locationRegex (location : jsstring) : regex :=
  RSeq (RGroup 1 (RSet false [lowerAZ; upperAZ]))
       (RGroup 2 (RSeq (ofSource location) RWordB)).

(** [/\s|,|\./] *)
Definition boundaryChar : regex :=
  alts [RSpace; RChar (chr ","); RChar (chr ".")].

Definition sortedLocations : list jsstring :=
  sort (fun a b => inject_Z (len b - len a)) commonLocations.

Definition cutAtLocation (namePart location : jsstring) : option jsstring :=
  if len location <=? 2 then None else
  match exec true (locationRegex location) namePart with
  | Some mr =>
      let locationStart := Z.of_nat (m_index mr) + 1 in
      let nextCharAfterMatch :=
        charAt namePart (Z.of_nat (m_index mr) + len (m_text mr)) in
      let isWordBoundary :=
        jseqb nextCharAfterMatch [] || test false boundaryChar nextCharAfterMatch in
      if isWordBoundary then Some (trim (substring namePart 0 locationStart))
      else None
  | None => None
  end.

(** Step 5: the part after the last comma, or after the last two. *)
Definition cutAtComma (namePart : jsstring) : jsstring :=
  let commaIndex := lastIndexOf namePart (js ",") in
  if negb (commaIndex =? -1) then
    let firstPart := trim (substring namePart 0 commaIndex) in
    let earlierCommaIndex := lastIndexOf firstPart (js ",") in
    if negb (earlierCommaIndex =? -1)
    then trim (substring firstPart 0 earlierCommaIndex)
    else firstPart
  else namePart.

(** Step 6: [/([a-z])([A-Z])/g] *)
Definition camelCase : regex :=
  RSeq (RGroup 1 (RSet false [lowerAZ])) (RGroup 2 (RSet false [upperAZ])).

(** Step 8: [/\s+(LLC|Inc|Corporation|Corp|Co\.|Co)\.?$/i] *)
Definition legalSuffix : regex :=
  seqs [ws;
        RGroup 1 (alts [lit (js "LLC"); lit (js "Inc"); lit (js "Corporation");
                        lit (js "Corp"); lit (js "Co."); lit (js "Co")]);
        ROpt (RChar (chr ".")); REol].

(** [/(square|food|hospitality|culinary|entertainment)\s+group$/i] *)
Definition protectedGroup : regex :=
  seqs [RGroup 1 (alts [lit (js "square"); lit (js "food");
                        lit (js "hospitality"); lit (js "culinary");
                        lit (js "entertainment")]);
        ws; lit (js "group"); REol].

(** [/\s+(restaurant|bar|café|cafe|grill|bistro|tavern|kitchen)$/i] *)
Definition genericSuffix : regex :=
  seqs [ws;
        RGroup 1 (alts [lit (js "restaurant"); lit (js "bar");
                        lit (js "caf" ++ [e_acute]); lit (js "cafe");
                        lit (js "grill"); lit (js "bistro"); lit (js "tavern");
                        lit (js "kitchen")]);
        REol].

(** Step 9: the first job-title prefix that the name starts with. *)
Definition stripJobTitlePrefix (namePart : jsstring) : jsstring :=
  match findFirst
          (fun prefix =>
             if startsWith (toLowerCase namePart) (toLowerCase prefix ++ js " ")
             then Some (trim (substringFrom namePart (len prefix)))
             else None)
          jobTitlePrefixes with
  | Some stripped => stripped
  | None => namePart
  end.

Definition unknownCompany : parsedCompany := mkParsed (js "Unknown") [].

(** Step 10: what remains is classified. *)
Definition classify (namePart : jsstring) : parsedCompany :=
  let lowerNamePart := toLowerCase namePart in
  if existsb (fun term => jseqb lowerNamePart (toLowerCase term)) genericTerms
  then unknownCompany else
  let wordCount :=
    len (filter (fun w => len w >? 0) (splitRe false ws namePart)) in
  if (wordCount =? 1) && (len lowerNamePart >? 2)
     && arrayIncludes standaloneIndustryTerms lowerNamePart
  then unknownCompany else
  if existsb (fun loc => jseqb lowerNamePart (toLowerCase loc)) commonLocations
  then unknownCompany else
  let containsValidTerm :=
    existsb (fun term => includes lowerNamePart (toLowerCase term))
            validLocationPrefixTerms in
  if (len namePart <? 20) && negb containsValidTerm
     && existsb (fun loc => startsWith lowerNamePart (toLowerCase loc ++ js " "))
                commonLocations
  then unknownCompany else
  if (len namePart <? 3)
     || ((len namePart <=? 5)
         && forallb (fun part => len part =? 1) (split namePart (js " ")))
  then unknownCompany else
  mkParsed (orElse namePart (js "Unknown")) [].

Section Parser.

(** The exclusion list differs between the two generations of the script. *)
Variable EXCLUDED_COMPANIES : list jsstring.

Definition parseCompanyAndLocation (rawName : jsstring) : parsedCompany :=
  if negb (truthy rawName) || jseqb rawName (js "Unknown") then unknownCompany else
  (* Step 0: exclusions *)
  let cleanedRawName := cleanSpecialCharacters (Some rawName) in
  let normalizedRawName := removeSpaces (toLowerCase cleanedRawName) in
  match findFirst
          (fun excludedName =>
             if includes normalizedRawName (removeSpaces excludedName)
             then Some excludedName else None)
          PARTIAL_EXCLUSIONS with
  | Some excludedName => mkParsed (js "Excluded: " ++ excludedName) []
  | None =>
  let rawNameLower := toLowerCase cleanedRawName in
  if existsb (fun excluded => includes rawNameLower excluded) EXCLUDED_COMPANIES
  then mkParsed (js "Excluded") [] else
  (* Step 1: a location header *)
  let startsWithLocation :=
    existsb (fun loc => startsWith rawNameLower (toLowerCase loc)) commonLocations in
  if startsWithLocation && includes rawName bullet then unknownCompany else
  (* Step 2: the part before the first bullet *)
  let namePart0 :=
    cleanSpecialCharacters (Some (trim (hd [] (split rawName bullet)))) in
  (* Step 2.5: glued words *)
  let namePart1 := fold_left fixGluedCity commonLocations namePart0 in
  let namePart2 := fixGluedWords namePart1 in
  (* Step 3: whole names, special cases, keywords *)
  let wholeName :=
    test true (allCapsPattern "RESTAURANT" "GROUP") namePart2
    || test true (allCapsPattern "HOSPITALITY" "GROUP") namePart2
    || test true (allCapsPattern "FINE" "DINING") namePart2
    || test true (allCapsPattern "CULINARY" "GROUP") namePart2
    || existsb (fun pattern => test true pattern namePart2) excludedEndingPatterns in
  let '(namePart3, extracted3) :=
    if wholeName then (namePart2, true)
    else if test true groupNYC namePart2 then (js "Group NYC Hospitality", true)
    else (namePart2, false) in
  let '(namePart4, extractedFromKeywords) :=
    if negb extracted3 then
      match keywordLoop restaurantKeywords namePart3 with
      | Some potentialCompany => (potentialCompany, true)
      | None => (namePart3, false)
      end
    else (namePart3, true) in
  (* Steps 4 and 5: glued or comma-separated location *)
  let namePart5 :=
    if negb extractedFromKeywords then
      match findFirst (cutAtLocation namePart4) sortedLocations with
      | Some cut => cut
      | None => cutAtComma namePart4
      end
    else namePart4 in
  (* Step 6: camelCase joins *)
  let namePart6 :=
    if negb (includes namePart5 (js "NYC")) && negb (includes namePart5 (js "SoHo"))
    then replaceAll false camelCase dollar1Space2 namePart5
    else namePart5 in
  (* Step 7: "... by ..." *)
  let namePart7 :=
    if negb extractedFromKeywords && includes namePart6 (js " by ") then
      let byIndex := indexOf namePart6 (js " by ") in
      if byIndex >? 0
      then trim (substringFrom namePart6
                   (if byIndex - 11 >=? 0 then byIndex - 11 else 0))
      else namePart6
    else namePart6 in
  (* Step 8: entity suffixes and trailing generic nouns *)
  let namePart8 := trim (replace true legalSuffix (fun _ => []) namePart7) in
  let namePart8' :=
    if negb (test true protectedGroup namePart8)
    then trim (replace true genericSuffix (fun _ => []) namePart8)
    else namePart8 in
  (* Step 9: job title prefix *)
  let namePart9 := stripJobTitlePrefix namePart8' in
  (* Step 10 *)
  classify namePart9
  end.

End Parser.

(* ================================================================== *)
(** ** Contacts and lookup results *)

(** [a || b] where [a] may be undefined. *)
Definition orOpt (a : option jsstring) (b : jsstring) : jsstring :=
  match a with Some s => orElse s b | None => b end.

(** A contact as [processEmails] builds it; the merge step adds [source]
    and, in the SearchAPI generation, [matchesFinalDomain]. *)
Record contact : Type := mkContact {
  c_name : jsstring;
  c_title : jsstring;
  c_email : jsstring;
  c_confidence : Q;
  c_priority : Q;
  c_source : option jsstring;
  c_matchesFinalDomain : option bool }.

(** What a lookup answers.  [size] is shown as text. *)
Record lookupResult : Type := mkResult {
  linkedin : jsstring;
  domain : jsstring;
  size : jsstring;
  emails : list contact;
  timestamp : jsstring;
  source : jsstring;
  originalCompany : option jsstring }.

Definition NA : jsstring := js "N/A".

(* ================================================================== *)
(** ** The Hunter generation of the script *)

Module Hunter.

Definition EXCLUDED_COMPANIES : list jsstring :=
  List.map toLowerCase (List.map js [
    "Alliance Personnel"; "August Point Advisors"; "Bon Appetit";
    "Capital Restaurant Associates";
    "Chartwells"; "Compass"; "CORE Recruitment"; "EHS Recruiting";
    "Empowered Hospitality";
    "Eurest"; "Goodwin Recruiting"; "HMG Plus - New York"; "LSG Sky Chefs";
    "Major Food Group";
    "Measured HR"; "One Haus"; "Patrice & Associates"; "Persone NYC";
    "Playbook Advisors";
    "Restaurant Associates"; "Source One Hospitality"; "STARR";
    "Ten Five Hospitality";
    "The Goodkind Group"; "Tuttle Hospitality"; "Willow Tree Recruiting";
    (* Washington variants *)
    "washington"; "washington dc"; "washington d.c."; "washington d c" ]).

Definition parseCompanyAndLocation : jsstring -> parsedCompany :=
  parseCompanyAndLocation EXCLUDED_COMPANIES.

Definition DISABLE_COMPANY_CACHE : bool := true.

Definition FORCE_FRESH_COMPANIES : list jsstring :=
  List.map toLowerCase
    (List.map js ["fish cheeks"; "fish cheeks noho"; "fish cheeks - noho"]).

Definition GENERIC_EMAIL_PATTERNS : list jsstring := List.map js [
  "info@"; "contact@"; "hello@"; "admin@"; "support@";
  "office@"; "mail@"; "inquiry@"; "general@"; "sales@";
  "help@"; "service@"; "hr@"; "jobs@"; "careers@";
  "team@"; "marketing@"; "press@"; "media@"; "events@" ].

(** An email object of the directory's answer.  Every field may be
    missing; the last three are added by the lookup before scoring. *)
Record rawEmail : Type := mkRawEmail {
  e_value : option jsstring;
  e_email : option jsstring;
  e_first_name : option jsstring;
  e_last_name : option jsstring;
  e_position : option jsstring;
  e_position_raw : option jsstring;
  e_confidence : option Q;
  e_type : option jsstring;
  e_originalCompany : option jsstring;
  e_originalDomain : option jsstring;
  e_sourceTime : option Z }.

Definition filterNonUSEmails (emails : list rawEmail) : list rawEmail := emails.

(** [lowerCase] is [String.prototype.toLowerCase] of the engine: the
    address may hold any code unit. *)
Definition isGenericEmail (lowerCase : jsstring -> jsstring)
  (email : option jsstring) : bool :=
  match email with
  | None => true
  | Some e =>
      if negb (truthy e) then true else
      let lowerEmail := lowerCase e in
      existsb (fun pattern => includes lowerEmail pattern) GENERIC_EMAIL_PATTERNS
  end.

(** [email.position || email.position_raw || ''] *)
Definition titleOf (email : rawEmail) : jsstring :=
  orOpt (e_position email) (orOpt (e_position_raw email) []).

Definition calculateEmailScore (lowerCase : jsstring -> jsstring)
  (email : rawEmail) : Q :=
  (if negb (truthyOpt (e_value email)) then 1000 else
   let score := 500 in
   let title := titleOf email in
   if truthy title && truthy (trim title)
   then inject_Z (getTitlePriority title) else
   let score :=
     if isGenericEmail lowerCase (e_value email)
     then score + 200 else score - 100 in
   let score :=
     if truthyOpt (e_first_name email) || truthyOpt (e_last_name email)
     then score - 50 else score + 50 in
   let score :=
     match e_confidence email with
     | Some confidence => score - confidence / 2
     | None => score
     end in
   match e_type email with
   | Some t =>
       if truthy t then
         if jseqb t (js "personal") then score - 75
         else if jseqb t (js "generic") then score + 25
         else score
       else score
   | None => score
   end)%Q.

(** The argument of [processEmails]: nothing, an array of email objects,
    or a whole answer whose [data.emails] may be missing. *)
Inductive emailsData : Type :=
| NoEmailsData
| EmailsArray (l : list rawEmail)
| EmailsResponse (dataEmails : option (list rawEmail)).

(** One step of the mapping; [None] is the [null] of an email without
    address. *)
Definition scoreEmail (lowerCase : jsstring -> jsstring) (email : rawEmail)
  : option contact :=
  let emailValue := orOpt (e_value email) (orOpt (e_email email) []) in
  let firstName := orOpt (e_first_name email) [] in
  let lastName := orOpt (e_last_name email) [] in
  let position := titleOf email in
  let confidence :=
    match e_confidence email with Some c => c | None => 0%Q end in
  if negb (truthy emailValue) then None else
  let score := calculateEmailScore lowerCase email in
  Some (mkContact
          (if truthy firstName && truthy lastName
           then trim (firstName ++ js " " ++ lastName)
           else orElse firstName (orElse lastName (js "Unknown")))
          (orElse position NA)
          emailValue
          confidence
          score
          None None).

Fixpoint dropNulls {A : Type} (l : list (option A)) : list A :=
  match l with
  | [] => []
  | Some x :: t => x :: dropNulls t
  | None :: t => dropNulls t
  end.

Definition processEmails (lowerCase : jsstring -> jsstring) (data : emailsData)
  : list contact :=
  match data with
  | NoEmailsData => []
  | EmailsResponse None => []
  | EmailsArray emails | EmailsResponse (Some emails) =>
      match emails with
      | [] => []
      | _ =>
          let processedEmails :=
            match filterNonUSEmails emails with
            | [] => emails
            | kept => kept
            end in
          let scoredEmails := List.map (scoreEmail lowerCase) processedEmails in
          let validEmails := dropNulls scoredEmails in
          sort (fun a b => c_priority a - c_priority b)%Q validEmails
      end
  end.

(** *** The directory lookup *)

(** One company of [data.data.results]. *)
Record companyResult : Type := mkCompanyResult {
  r_company : option jsstring;
  r_domain : option jsstring;
  r_linkedin : option jsstring;
  r_emails : option (list rawEmail);
  r_employees_count : option jsstring;
  r_headcount : option jsstring }.

(** The [data] object of an answer. *)
Record apiData : Type := mkApiData {
  d_results : option (list (option companyResult));
  d_emails : option (list rawEmail);
  d_organization : option jsstring;
  d_domain : option jsstring;
  d_linkedin : option jsstring;
  d_headcount : option jsstring }.

(** How one request to the directory ends. *)
Inductive fetchOutcome : Type :=
| Rejected (message : jsstring)                 (* network failure, or the timeout wins the race *)
| HttpError (status : Z) (errorText : jsstring) (* [response.ok] is false *)
| JsonError (message : jsstring)                (* [response.json()] rejects *)
| Json (data : option apiData).                 (* the parsed body and its [data] object *)

(** The outside world: the directory, keyed by the company searched for
    (the request URL is a function of it), the clock, and
    [String.prototype.toLowerCase] of the engine. *)
Record world : Type := mkWorld {
  hunter : jsstring -> fetchOutcome;
  now : jsstring;
  dateNow : Z;
  lowerCase : jsstring -> jsstring }.

Inductive event : Type :=
| EvDelay (ms : Z)
| EvFetch (company : jsstring)
| EvSaveCache.

(** [companyCache] and what has happened so far. *)
Record state : Type := mkState {
  companyCache : list (jsstring * lookupResult);
  trace : list event }.

Definition emit (ev : event) (st : state) : state :=
  mkState (companyCache st) (trace st ++ [ev]).

Definition cacheHas (key : jsstring) (st : state) : bool :=
  existsb (fun kv => jseqb (fst kv) key) (companyCache st).

Definition cacheGet (key : jsstring) (st : state) : option lookupResult :=
  option_map snd (find (fun kv => jseqb (fst kv) key) (companyCache st)).

Definition cacheDelete (key : jsstring) (st : state) : state :=
  mkState (filter (fun kv => negb (jseqb (fst kv) key)) (companyCache st))
          (trace st).

Definition cacheSet (key : jsstring) (v : lookupResult) (st : state) : state :=
  if cacheHas key st
  then mkState (List.map (fun kv => if jseqb (fst kv) key then (key, v) else kv)
                         (companyCache st)) (trace st)
  else mkState (companyCache st ++ [(key, v)]) (trace st).

(** A number in a template literal. *)
Definition showNat (n : nat) : jsstring :=
  js (DecimalString.NilZero.string_of_uint (Nat.to_uint n)).

Definition showZ (z : Z) : jsstring :=
  if z <? 0 then js "-" ++ showNat (Z.to_nat (- z)) else showNat (Z.to_nat z).

(** [{ ...email, _originalCompany, _originalDomain, _sourceTime }] *)
Definition identify (w : world) (company : jsstring) (dom : option jsstring)
  (email : rawEmail) : rawEmail :=
  mkRawEmail (e_value email) (e_email email) (e_first_name email)
    (e_last_name email) (e_position email) (e_position_raw email)
    (e_confidence email) (e_type email)
    (Some company) dom (Some (dateNow w)).

(** Index and value of the first result that carries emails. *)
Fixpoint bestResult (results : list (option companyResult)) (i : nat)
  : option (nat * companyResult * list rawEmail) :=
  match results with
  | [] => None
  | Some r :: t =>
      match r_emails r with
      | Some (e :: es) => Some (i, r, e :: es)
      | _ => bestResult t (S i)
      end
  | None :: t => bestResult t (S i)
  end.

Definition skipShape (w : world) (source : jsstring) : lookupResult :=
  mkResult NA NA NA [] (now w) source None.

Definition excludedShape (w : world) (source : jsstring) : lookupResult :=
  mkResult (js "Excluded") NA NA [] (now w) source None.

Definition errorShape (w : world) (source : jsstring) : lookupResult :=
  mkResult (js "Error") NA NA [] (now w) source None.

(** The body of the [try] block: [inl] is a thrown error. *)
Definition tryFetch (w : world) (companyName source cleanedName cacheKey : jsstring)
  (st : state) : (jsstring + lookupResult) * state :=
  let st := emit (EvDelay 1000) st in
  let cleanCompanyForSearch := trim cleanedName in
  let st := emit (EvFetch cleanCompanyForSearch) st in
  match hunter w cleanCompanyForSearch with
  | Rejected message => (inl message, st)
  | HttpError status errorText =>
      let st := if status =? 429 then emit (EvDelay 10000) st else st in
      (inl (js "Hunter API returned error " ++ showZ status ++ js ": " ++ errorText),
       st)
  | JsonError message => (inl message, st)
  | Json None => (inl (js "Invalid API response: missing data object"), st)
  | Json (Some data) =>
      let viaResults :=
        match d_results data with
        | Some results => bestResult results 0
        | None => None
        end in
      match viaResults with
      | Some (bestResultIndex, best, bestEmails) =>
          let tagged :=
            List.map (identify w (orOpt (r_company best) companyName)
                        (r_domain best)) bestEmails in
          let processedEmails := processEmails (lowerCase w) (EmailsArray tagged) in
          (inr (mkResult
                  (orOpt (r_linkedin best) NA)
                  (orOpt (r_domain best) NA)
                  (orOpt (r_employees_count best) (orOpt (r_headcount best) NA))
                  processedEmails
                  (now w)
                  (source ++ js "_result_" ++ showNat (bestResultIndex + 1))
                  None),
           st)
      | None =>
          let processedEmails :=
            match d_emails data with
            | Some es =>
                processEmails (lowerCase w)
                  (EmailsArray
                     (List.map (identify w (orOpt (d_organization data) companyName)
                                  (d_domain data)) es))
            | None => []
            end in
          let result :=
            mkResult (orOpt (d_linkedin data) NA) (orOpt (d_domain data) NA)
                     (orOpt (d_headcount data) NA) processedEmails (now w)
                     source None in
          match processedEmails with
          | _ :: _ =>
              let result :=
                mkResult (linkedin result) (domain result) (size result)
                         (emails result) (timestamp result) (source)
                         (Some companyName) in
              if negb DISABLE_COMPANY_CACHE
              then (inr result, emit EvSaveCache (cacheSet cacheKey result st))
              else (inr result, st)
          | [] => (inr result, st)
          end
      end
  end.

(** The part before the [try] block: [inl] is an early [return]. *)
Definition beforeFetch (w : world) (companyName source : jsstring) (st : state)
  : (lookupResult + jsstring * jsstring) * state :=
  let withoutSpecialChars := cleanSpecialCharacters (Some companyName) in
  let cleanedName := cleanCompanyName withoutSpecialChars in
  let lowerCleanedName := toLowerCase cleanedName in
  let normalizedName := removeSpaces lowerCleanedName in
  if arrayIncludes EXCLUDED_COMPANIES lowerCleanedName
     || existsb (fun excluded => includes normalizedName (removeSpaces excluded))
                EXCLUDED_COMPANIES
  then (inl (excludedShape w source), st) else
  if existsb (fun partialTerm =>
                includes lowerCleanedName partialTerm
                || includes normalizedName (removeSpaces partialTerm))
             PARTIAL_EXCLUSIONS
  then (inl (excludedShape w source), st) else
  let shouldForceRefresh := arrayIncludes FORCE_FRESH_COMPANIES lowerCleanedName in
  let cacheKey := toLowerCase companyName ++ js ":" ++ source in
  let st :=
    if shouldForceRefresh then
      let st := if cacheHas cacheKey st then cacheDelete cacheKey st else st in
      fold_left
        (fun st key =>
           if includes (toLowerCase key) lowerCleanedName
           then cacheDelete key st else st)
        (List.map fst (companyCache st)) st
    else st in
  let useCaching := negb DISABLE_COMPANY_CACHE && negb shouldForceRefresh in
  let hit :=
    if useCaching && cacheHas cacheKey st then
      match cacheGet cacheKey st with
      | Some cachedData =>
          match emails cachedData with
          | _ :: _ => (Some cachedData, st)
          | [] => (None, cacheDelete cacheKey st)
          end
      | None => (None, st)
      end
    else (None, st) in
  match hit with
  | (Some cachedData, st) => (inl cachedData, st)
  | (None, st) => (inr (cleanedName, cacheKey), st)
  end.

(** [fuel] bounds the depth of the recursion; two levels are all that
    can occur, since the inner call is tagged 'location' and the retry is
    for the tag 'company' only. *)
Fixpoint getCompanyInfoWithSource (fuel : nat) (w : world)
  (companyName locationName source : jsstring) (st : state)
  : option (lookupResult * state) :=
  match fuel with
  | O => None
  | S fuel' =>
      if negb (truthy companyName) || jseqb companyName (js "Unknown")
         || startsWith companyName (js "Excluded:")
      then Some (skipShape w source, st) else
      match beforeFetch w companyName source st with
      | (inl early, st) => Some (early, st)
      | (inr (cleanedName, cacheKey), st) =>
          match tryFetch w companyName source cleanedName cacheKey st with
          | (inr result, st) => Some (result, st)
          | (inl error, st) =>
              if jseqb source (js "company") && truthy locationName
                 && negb (jseqb locationName companyName)
              then getCompanyInfoWithSource fuel' w locationName [] (js "location") st
              else Some (errorShape w source, st)
          end
      end
  end.

(** *** Company candidates from an address *)

Definition ignoredWords : list jsstring := List.map js [
  "street"; "st"; "avenue"; "ave"; "road"; "rd"; "blvd"; "boulevard"; "drive";
  "dr"; "lane"; "ln"; "court"; "ct"; "place"; "pl"; "way"; "circle"; "cir";
  "suite"; "ste"; "floor"; "fl"; "unit"; "apt"; "apartment"; "#" ].

Definition genericAddressTerms : list jsstring := List.map js [
  "restaurant group"; "hospitality group"; "restaurant"; "hospitality";
  "group"; "consulting"; "management"; "fine dining" ].

(** [/\b\d+\b/] *)
Definition streetNumber : regex := seqs [RWordB; RPlus RDigit; RWordB].

(** [/[,|•|\/|-]+/] *)
Definition addressDelimiters : regex :=
  RPlus (RSet false [CChar (chr ","); CChar (chr "|"); CChar 8226%N;
                     CChar (chr "/"); CChar (chr "-")]).

(** [/^\d+$/] *)
Definition onlyDigits : regex := seqs [RBol; RPlus RDigit; REol].

(** [/[A-Z]{2}$/] *)
Definition stateTail : regex :=
  seqs [RSet false [upperAZ]; RSet false [upperAZ]; REol].

Definition extractPotentialCompaniesFromAddress (address : jsstring)
  : list jsstring :=
  if negb (truthy address) || jseqb address NA then [] else
  let hasStreetNumber := test false streetNumber address in
  let parts := List.map trim (splitRe false addressDelimiters address) in
  filter
    (fun part =>
       if (len part <? 4) || test false onlyDigits part then false else
       if existsb (fun term => jseqb (toLowerCase part) term) genericAddressTerms
       then false else
       let words := splitRe false ws (toLowerCase part) in
       let ignoredCount := len (filter (arrayIncludes ignoredWords) words) in
       if hasStreetNumber && ((ignoredCount >? 0) || test false streetNumber part)
       then false else
       if test false stateTail part && (len part <=? 12) then false else
       true)
    parts.

(** *** The orchestrator *)

(** A small state-and-failure monad for the calls that await a lookup. *)
Definition M (A : Type) : Type := state -> option (A * state).

Definition ret {A : Type} (x : A) : M A := fun st => Some (x, st).

Definition bind {A B : Type} (c : M A) (k : A -> M B) : M B :=
  fun st => match c st with
            | Some (x, st') => k x st'
            | None => None
            end.

Notation "x <- c ;; k" := (bind c (fun x => k))
  (at level 61, c at next level, right associativity).

(** An entry of [allResults]: [{ source, data }]. *)
Record strategyResult : Type :=
  mkStrategy { s_source : jsstring; s_data : lookupResult }.

Definition commonGenericTerms : list jsstring := List.map js [
  "restaurant group"; "hospitality group"; "restaurant"; "hospitality";
  "group"; "consulting"; "management" ].

(** [Array.from(EXCLUDED_COMPANIES).some(excluded =>
      normalized.includes(excluded.replace(/\s+/g, '')))] *)
Definition matchesExclusionList (normalized : jsstring) : bool :=
  existsb (fun excluded => includes normalized (removeSpaces excluded))
          EXCLUDED_COMPANIES.

Definition matchesPartialExclusion (normalized : jsstring) : bool :=
  existsb (fun partialTerm => includes normalized (removeSpaces partialTerm))
          PARTIAL_EXCLUSIONS.

(** The strategy on the whole location string. *)
Definition locationStrategy (fuel : nat) (w : world)
  (cleanedCompany rawLocation : jsstring) : M (list strategyResult) :=
  if truthy rawLocation && negb (jseqb rawLocation cleanedCompany) then
    let cleanedLocation := cleanSpecialCharacters (Some rawLocation) in
    if arrayIncludes commonGenericTerms (toLowerCase cleanedLocation)
       || jseqb (toLowerCase cleanedLocation) (js "restaurant group")
    then ret [mkStrategy (js "location")
                (mkResult NA NA NA [] (now w) (js "generic_term_location") None)]
    else
      let normalizedLocation := removeSpaces (toLowerCase cleanedLocation) in
      if matchesPartialExclusion normalizedLocation
         || matchesExclusionList normalizedLocation
      then ret [mkStrategy (js "location")
                  (excludedShape w (js "excluded_location"))]
      else
        locationInfo <- getCompanyInfoWithSource fuel w cleanedLocation []
                          (js "full_location") ;;
        ret [mkStrategy (js "location") locationInfo]
  else ret [].

(** [{ original, parsed }] *)
Record potential : Type := mkPotential { original : jsstring; parsed : jsstring }.

(** [findIndex(p => p.original === potentialCompany)], shown as text. *)
Fixpoint findIndexText (l : list potential) (x : jsstring) (i : nat) : jsstring :=
  match l with
  | [] => js "unknown"
  | p :: t => if jseqb (original p) x then showNat i else findIndexText t x (S i)
  end.

(** The loop over the candidates mined from the address. *)
Fixpoint potentialStrategies (fuel : nat) (w : world)
  (cleanedCompany rawLocation : jsstring) (all todo : list potential)
  : M (list strategyResult) :=
  match todo with
  | [] => ret []
  | p :: more =>
      let parsedCompany := parsed p in
      if jseqb (toLowerCase parsedCompany) (toLowerCase cleanedCompany)
         || jseqb (toLowerCase parsedCompany) (toLowerCase rawLocation)
      then potentialStrategies fuel w cleanedCompany rawLocation all more
      else
        let normalizedPotential := removeSpaces (toLowerCase parsedCompany) in
        let index := findIndexText all (original p) 0 in
        if matchesPartialExclusion normalizedPotential
           || matchesExclusionList normalizedPotential
        then
          rest <- potentialStrategies fuel w cleanedCompany rawLocation all more ;;
          ret (mkStrategy (js "excluded_potential_" ++ index)
                 (excludedShape w (js "excluded_potential")) :: rest)
        else
          let sourceId := js "potential_" ++ index in
          potentialInfo <- getCompanyInfoWithSource fuel w parsedCompany [] sourceId ;;
          rest <- potentialStrategies fuel w cleanedCompany rawLocation all more ;;
          ret (mkStrategy sourceId potentialInfo :: rest)
  end.

(** The merged answer of [getCompanyInfo]. *)
Record mergedResult : Type := mkMerged {
  mr_linkedin : jsstring;
  mr_domain : jsstring;
  mr_size : jsstring;
  mr_emails : list contact;
  mr_timestamp : jsstring;
  mr_source : jsstring;
  mr_sourcesWithEmails : Z }.

(** [set.add(x)] on an insertion-ordered set. *)
Definition setAdd (x : jsstring) (set : list jsstring) : list jsstring :=
  if arrayIncludes set x then set else set ++ [x].

(** [{ ...email, source }] *)
Definition withSource (src : jsstring) (email : contact) : contact :=
  mkContact (c_name email) (c_title email) (c_email email) (c_confidence email)
            (c_priority email) (Some src) (c_matchesFinalDomain email).

(** The inner loop of the merge: emails of one result, without
    duplicates.  The key is the address as the engine lower-cases it. *)
Fixpoint addEmails (lowerCase : jsstring -> jsstring) (src : jsstring)
  (es : list contact) (acc : list jsstring * list contact)
  : list jsstring * list contact :=
  match es with
  | [] => acc
  | email :: more =>
      let '(addedEmails, merged) := acc in
      let emailKey := lowerCase (c_email email) in
      if negb (arrayIncludes addedEmails emailKey)
      then addEmails lowerCase src more (setAdd emailKey addedEmails,
                                         merged ++ [withSource src email])
      else addEmails lowerCase src more acc
  end.

(** The merge step: everything of [getCompanyInfo] after the strategies. *)
Definition mergeResults (w : world) (allResults : list strategyResult)
  : mergedResult :=
  let linkedins :=
    fold_left
      (fun set result =>
         let l := linkedin (s_data result) in
         if truthy l && negb (jseqb l NA) && negb (jseqb l (js "Excluded"))
            && negb (jseqb l (js "Error"))
         then setAdd l set else set)
      allResults [] in
  let domains :=
    fold_left
      (fun set result =>
         let d := domain (s_data result) in
         if truthy d && negb (jseqb d NA) then setAdd d set else set)
      allResults [] in
  let sorted :=
    sort (fun a b => inject_Z (len (emails (s_data b)) - len (emails (s_data a))))
         allResults in
  let sourcesWithEmails :=
    len (filter (fun result => len (emails (s_data result)) >? 0) sorted) in
  let mergedSize :=
    fold_left
      (fun sz result =>
         if jseqb sz NA && negb (jseqb (size (s_data result)) NA)
         then size (s_data result) else sz)
      sorted NA in
  let '(_, mergedEmails) :=
    fold_left (fun acc result => addEmails (lowerCase w) (s_source result)
                                   (emails (s_data result)) acc)
              sorted ([], []) in
  mkMerged (orElse (join (js "; ") linkedins) NA)
           (orElse (join (js "; ") domains) NA)
           mergedSize
           (sort (fun a b => inject_Z (getTitlePriority (c_title a)
                                       - getTitlePriority (c_title b)))
                 mergedEmails)
           (now w) (js "merged") sourcesWithEmails.

Definition getCompanyInfo (fuel : nat) (w : world)
  (rawCompanyName rawLocation : jsstring) : M mergedResult :=
  let cleanedCompany := name (parseCompanyAndLocation rawCompanyName) in
  companyInfo <- getCompanyInfoWithSource fuel w cleanedCompany rawLocation
                   (js "company") ;;
  fromLocation <- locationStrategy fuel w cleanedCompany rawLocation ;;
  let potentialCompanies := extractPotentialCompaniesFromAddress rawLocation in
  let parsedPotentialCompanies :=
    filter (fun item => negb (jseqb (parsed item) (js "Unknown")))
      (List.map (fun company =>
                   mkPotential company (name (parseCompanyAndLocation company)))
                potentialCompanies) in
  fromAddress <- potentialStrategies fuel w cleanedCompany rawLocation
                   parsedPotentialCompanies parsedPotentialCompanies ;;
  ret (mergeResults w
         (mkStrategy (js "primary") companyInfo :: fromLocation ++ fromAddress)).

(** *** The job cards of a result page *)

Definition TEST_MODE : bool := false.
Definition TEST_JOB_LIMIT : Z := 5.

(** What the page handler reads off one job card: the [href] attribute
    and the text of the title, company, location and employment
    elements (empty when the element is missing). *)
Record jobCard : Type := mkJobCard {
  card_href : option jsstring;
  card_title : jsstring;
  card_company : jsstring;
  card_location : jsstring;
  card_employment : jsstring }.

Record listing : Type := mkListing {
  l_url : jsstring;
  l_title : jsstring;
  l_company : jsstring;
  l_location : jsstring;
  l_searchLocation : jsstring;
  l_salary : jsstring }.

(** The set of known job URLs, which the handler creates empty. *)
Definition existingUrls : list jsstring := [].

(** One turn of the loop over the cards: the listing, or nothing when
    the card has no link or a known one. *)
Definition cardListing (el : jobCard) : option listing :=
  match ensureAbsoluteUrl (card_href el) with
  | None => None
  | Some jobUrl =>
      if arrayIncludes existingUrls jobUrl then None else
      let title := orElse (trim (card_title el)) (js "Unknown") in
      let rawCompany := orElse (trim (card_company el)) (js "Unknown") in
      let company := name (parseCompanyAndLocation rawCompany) in
      let fullAddress := orElse (trim (card_location el)) NA in
      Some (mkListing jobUrl title company fullAddress
              (cleanCompanyName fullAddress)
              (orElse (trim (card_employment el)) NA))
  end.

Definition collectListings (processedCount : Z) (jobCards : list jobCard)
  : list listing :=
  let cardsToProcess :=
    if TEST_MODE then Z.min (TEST_JOB_LIMIT - processedCount) (len jobCards)
    else len jobCards in
  dropNulls (List.map cardListing (firstn (Z.to_nat cardsToProcess) jobCards)).

End Hunter.

(* ================================================================== *)
(** ** The SearchAPI generation of the script

    Contact collection is switched off: the lookup makes no request and
    answers without emails.  The orchestrator first asks the search
    service for the company's website. *)

Module SearchApi.

Definition EXCLUDED_COMPANIES : list jsstring :=
  List.map toLowerCase (List.map js [
    "Alliance Personnel"; "August Point Advisors"; "Bon Appetit";
    "Capital Restaurant Associates";
    "Chartwells"; "Compass"; "CORE Recruitment"; "EHS Recruiting";
    "Empowered Hospitality";
    "Eurest"; "Goodwin Recruiting"; "HMG Plus - New York"; "LSG Sky Chefs";
    "Major Food Group";
    "Measured HR"; "One Haus"; "Patrice & Associates"; "Persone NYC";
    "Playbook Advisors";
    "Restaurant Associates"; "Source One Hospitality"; "Ten Five Hospitality";
    "The Goodkind Group"; "Tuttle Hospitality"; "Willow Tree Recruiting";
    (* Washington variants *)
    "washington"; "washington dc"; "washington d.c."; "washington d c" ]).

Definition parseCompanyAndLocation : jsstring -> parsedCompany :=
  parseCompanyAndLocation EXCLUDED_COMPANIES.

(** How a call of the search service ends: it rejects, or it answers a
    website URL or [null]. *)
Inductive searchOutcome : Type :=
| SearchRejected
| SearchAnswer (websiteUrl : option jsstring).

(** The outside world: the search service behind
    [getWebsiteUrlFromSearchAPI], the platform's URL parser ([None] when
    [new URL] throws, else the hostname), the clock, and
    [String.prototype.toLowerCase] of the engine. *)
Record world : Type := mkWorld {
  searchAPI : jsstring -> searchOutcome;
  urlHostname : jsstring -> option jsstring;
  now : jsstring;
  lowerCase : jsstring -> jsstring }.

Inductive event : Type :=
| EvSearch (companyName : jsstring).

Definition getCompanyInfoWithSource (w : world)
  (searchTerm searchType source : jsstring) : lookupResult :=
  if negb (truthy searchTerm) || jseqb searchTerm (js "Unknown")
     || startsWith searchTerm (js "Excluded:")
  then mkResult NA NA NA [] (now w) (source ++ js "_skipped") None else
  let excludedAnswer :=
    mkResult (js "Excluded") NA NA [] (now w) (source ++ js "_excluded") None in
  let lowerCleanedName := toLowerCase (cleanSpecialCharacters (Some searchTerm)) in
  let normalizedName := removeSpaces lowerCleanedName in
  if jseqb searchType (js "company")
     && (arrayIncludes EXCLUDED_COMPANIES lowerCleanedName
         || existsb (fun excluded => includes normalizedName (removeSpaces excluded))
                    EXCLUDED_COMPANIES)
  then excludedAnswer else
  if jseqb searchType (js "company")
     && existsb (fun partialTerm =>
                   includes lowerCleanedName partialTerm
                   || includes normalizedName (removeSpaces partialTerm))
                PARTIAL_EXCLUSIONS
  then excludedAnswer else
  let resultDomain := if jseqb searchType (js "domain") then searchTerm else NA in
  mkResult NA resultDomain NA [] (now w) (source ++ js "_contact_disabled")
           (Some searchTerm).

(** [/^https?:\/\//] and [/^www\./] *)
Definition httpPrefix : regex :=
  seqs [RBol; lit (js "http"); ROpt (RChar (chr "s")); lit (js "://")].
Definition wwwPrefix : regex := seqs [RBol; lit (js "www.")].

Definition getDomainFromUrl (w : world) (url : jsstring) : option jsstring :=
  if negb (truthy url) then None else
  match urlHostname w (if startsWith url (js "http") then url
                       else js "http://" ++ url) with
  | Some hostname =>
      Some (if startsWith hostname (js "www.") then substringFrom hostname 4
            else hostname)
  | None =>
      let d := replace false httpPrefix (fun _ => []) url in
      let d := replace false wwwPrefix (fun _ => []) d in
      let d := hd [] (split d (js "/")) in
      let d := hd [] (split d (js "?")) in
      let d := hd [] (split d (js ":")) in
      if includes d (js ".") then Some d else None
  end.

(** A call of the domain discovery client: the event is recorded, then
    the search service decides.  [None] is a rejection. *)
Definition getWebsiteUrlFromGoogle (w : world) (companyName : jsstring)
  (tr : list event) : option (option jsstring) * list event :=
  let tr := tr ++ [EvSearch companyName] in
  match searchAPI w companyName with
  | SearchRejected => (None, tr)
  | SearchAnswer url => (Some url, tr)
  end.

(** The first search task: website, then domain, else the name. *)
Definition primaryTask (w : world) (primaryCompanyName : jsstring)
  (tr : list event) : option lookupResult * list event :=
  match getWebsiteUrlFromGoogle w primaryCompanyName tr with
  | (None, tr) => (None, tr)
  | (Some websiteUrl, tr) =>
      let viaDomain :=
        match websiteUrl with
        | Some url =>
            if truthy url then
              match getDomainFromUrl w url with
              | Some d => if truthy d then Some d else None
              | None => None
              end
            else None
        | None => None
        end in
      match viaDomain with
      | Some d =>
          (Some (getCompanyInfoWithSource w d (js "domain")
                   (js "primary_google_domain")), tr)
      | None =>
          (Some (getCompanyInfoWithSource w primaryCompanyName (js "company")
                   (js "primary_company_name_fallback")), tr)
      end
  end.

(** The second search task: the parent company, by domain only. *)
Definition parentTask (w : world) (parsedParentCompany : jsstring)
  (tr : list event) : option lookupResult * list event :=
  match getWebsiteUrlFromGoogle w parsedParentCompany tr with
  | (None, tr) => (None, tr)
  | (Some parentWebsiteUrl, tr) =>
      let viaDomain :=
        match parentWebsiteUrl with
        | Some url =>
            if truthy url then
              match getDomainFromUrl w url with
              | Some d => if truthy d then Some d else None
              | None => None
              end
            else None
        | None => None
        end in
      match viaDomain with
      | Some d =>
          (Some (getCompanyInfoWithSource w d (js "domain")
                   (js "parent_google_domain")), tr)
      | None =>
          (Some (mkResult NA NA NA [] (now w)
                   (js "parent_company_no_google_result") None), tr)
      end
  end.

(** The strategies of [getCompanyInfo], run one after the other; a task
    that throws adds nothing. *)
Definition runStrategies (w : world) (rawCompanyName : jsstring)
  (parentCompanyName : option jsstring)
  : list lookupResult * list event :=
  let primaryCompanyName := name (parseCompanyAndLocation rawCompanyName) in
  let parsedParentCompany :=
    match parentCompanyName with
    | Some p => if truthy p then Some (name (parseCompanyAndLocation p)) else None
    | None => None
    end in
  let '(fromPrimary, tr) :=
    if truthy primaryCompanyName
       && negb (startsWith primaryCompanyName (js "Excluded"))
    then match primaryTask w primaryCompanyName [] with
         | (Some result, tr) => ([result], tr)
         | (None, tr) => ([], tr)
         end
    else ([], []) in
  let '(fromParent, tr) :=
    match parsedParentCompany with
    | Some parent =>
        if truthy parent && negb (jseqb parent primaryCompanyName)
           && negb (startsWith parent (js "Excluded"))
        then match parentTask w parent tr with
             | (Some result, tr) => ([result], tr)
             | (None, tr) => ([], tr)
             end
        else ([], tr)
    | None => ([], tr)
    end in
  (fromPrimary ++ fromParent, tr).

(** The merged answer of [getCompanyInfo]. *)
Record mergedResult : Type := mkMerged {
  mr_linkedin : jsstring;
  mr_domain : jsstring;
  mr_size : jsstring;
  mr_emails : list contact;
  mr_timestamp : jsstring;
  mr_source : jsstring;
  mr_sourcesWithEmails : Z;
  mr_parentDomain : option jsstring;
  mr_allDomains : list jsstring }.

Definition setAdd (x : jsstring) (set : list jsstring) : list jsstring :=
  if arrayIncludes set x then set else set ++ [x].

(** [{ ...email, source }] *)
Definition withSource (src : jsstring) (email : contact) : contact :=
  mkContact (c_name email) (c_title email) (c_email email) (c_confidence email)
            (c_priority email) (Some src) (c_matchesFinalDomain email).

Definition withFlag (flag : bool) (email : contact) : contact :=
  mkContact (c_name email) (c_title email) (c_email email) (c_confidence email)
            (c_priority email) (c_source email) (Some flag).

(** The inner loop of the merge: emails of one result, without
    duplicates.  The key is the address as the engine lower-cases it. *)
Fixpoint addEmails (lowerCase : jsstring -> jsstring) (src : jsstring)
  (es : list contact) (acc : list jsstring * list contact)
  : list jsstring * list contact :=
  match es with
  | [] => acc
  | email :: more =>
      let '(addedEmails, merged) := acc in
      if truthy (c_email email) then
        let emailKey := lowerCase (c_email email) in
        if negb (arrayIncludes addedEmails emailKey)
        then addEmails lowerCase src more (setAdd emailKey addedEmails,
                                           merged ++ [withSource src email])
        else addEmails lowerCase src more acc
      else addEmails lowerCase src more acc
  end.

(** The comparator of [allResults.sort]: domain searches first, then the
    richer result. *)
Definition compareResults (a b : lookupResult) : Q :=
  let aIsDomain := includes (source a) (js "_domain") in
  let bIsDomain := includes (source b) (js "_domain") in
  if negb (Bool.eqb aIsDomain bIsDomain)
  then (if aIsDomain then inject_Z (-1) else inject_Z 1)
  else inject_Z (len (emails b) - len (emails a)).

Definition matchesFinalDomain (w : world) (finalDomains : list jsstring)
  (email : contact) : bool :=
  match finalDomains with
  | [] => false
  | _ =>
      if truthy (c_email email) then
        match getDomainFromUrl w (c_email email) with
        | Some emailDomain =>
            if truthy emailDomain
            then existsb (fun fd => jseqb (lowerCase w fd)
                                          (lowerCase w emailDomain))
                         finalDomains
            else false
        | None => false
        end
      else false
  end.

(** The merge step: everything of [getCompanyInfo] after the strategies. *)
Definition mergeResults (w : world) (allResults : list lookupResult)
  : mergedResult :=
  let sorted := sort compareResults allResults in
  let linkedins :=
    fold_left
      (fun set result =>
         let l := linkedin result in
         if truthy l && negb (jseqb l NA) && negb (jseqb l (js "Excluded"))
            && negb (jseqb l (js "Error"))
         then fold_left (fun set url => setAdd url set) (split l (js "; ")) set
         else set)
      sorted [] in
  let domains :=
    fold_left
      (fun set result =>
         let d := domain result in
         if truthy d && negb (jseqb d NA)
         then setAdd (hd [] (split d (js "; "))) set else set)
      sorted [] in
  let mergedSize :=
    fold_left
      (fun sz result =>
         if jseqb sz NA && truthy (size result) && negb (jseqb (size result) NA)
         then size result else sz)
      sorted NA in
  let sourcesWithEmails :=
    len (filter (fun result => len (emails result) >? 0) sorted) in
  let '(_, mergedEmails) :=
    fold_left (fun acc result =>
                 addEmails (lowerCase w)
                           (orElse (source result) (js "unknown_source"))
                           (emails result) acc)
              sorted ([], []) in
  let finalDomains := domains in
  let flagged :=
    List.map (fun email => withFlag (matchesFinalDomain w finalDomains email) email)
             mergedEmails in
  mkMerged (orElse (join (js "; ") linkedins) NA)
           (hd NA finalDomains)
           mergedSize
           (sort (fun a b => inject_Z (getTitlePriority (c_title a)
                                       - getTitlePriority (c_title b)))
                 flagged)
           (now w) (js "merged") sourcesWithEmails None finalDomains.

Definition getCompanyInfo (w : world) (rawCompanyName rawLocation : jsstring)
  (parentCompanyName : option jsstring) : mergedResult * list event :=
  let '(allResults, tr) := runStrategies w rawCompanyName parentCompanyName in
  (mergeResults w allResults, tr).

(** *** Location text *)

(** [/([a-zA-Z])([A-Z][a-z]+,?\s*[A-Z]{2})/g] *)
Definition gluedCityState : regex :=
  RSeq (RGroup 1 (RSet false [lowerAZ; upperAZ]))
       (RGroup 2 (seqs [RSet false [upperAZ]; RPlus (RSet false [lowerAZ]);
                        ROpt (RChar (chr ",")); RStar RSpace;
                        RSet false [upperAZ]; RSet false [upperAZ]])).

(** [/([a-z])([A-Z]{2}$)/g] *)
Definition gluedState : regex :=
  RSeq (RGroup 1 (RSet false [lowerAZ]))
       (RGroup 2 (seqs [RSet false [upperAZ]; RSet false [upperAZ]; REol])).

(** [/([a-z])(New York|Los Angeles|...|St\. Paul)/gi] *)
Definition gluedCity : regex :=
  RSeq (RGroup 1 (RSet false [lowerAZ]))
       (RGroup 2
          (alts (List.map (fun city => lit (js city))
                   ["New York"; "Los Angeles"; "San Francisco"; "Las Vegas";
                    "San Diego"; "San Antonio"; "San Jose"; "Kansas City";
                    "St. Louis"; "Virginia Beach"; "Colorado Springs";
                    "Long Beach"; "St. Petersburg"; "North Las Vegas";
                    "Salt Lake City"; "Fort Lauderdale"; "Grand Rapids";
                    "Cape Coral"; "Garden Grove"; "Newport News"; "Fort Wayne";
                    "St. Paul"]))).

Definition cleanLocationText (input : jsstring) : jsstring :=
  if negb (truthy input) then [] else
  let cleaned :=
    trim
      (replaceAll false ws (fun _ => js " ")
         (replaceAll true gluedCity dollar1Space2
            (replaceAll false gluedState dollar1Space2
               (replaceAll false gluedCityState dollar1Space2
                  (replaceAll false camelCase dollar1Space2 input))))) in
  orElse cleaned input.

(** *** The job cards of a result page *)

(** What the page handler reads off one job card: the [href] attribute,
    the text of the title, company and employment elements (empty when
    the element is missing) and the text of the location element, if
    there is one. *)
Record jobCard : Type := mkJobCard {
  card_href : option jsstring;
  card_title : jsstring;
  card_company : jsstring;
  card_location : option jsstring;
  card_employment : jsstring }.

Record listing : Type := mkListing {
  l_url : jsstring;
  l_title : jsstring;
  l_company : jsstring;
  l_location : jsstring;
  l_searchLocation : jsstring;
  l_salary : jsstring }.

(** An entry of [skippedDuplicateJobs]. *)
Record skippedDuplicate : Type := mkSkippedDuplicate {
  sd_url : jsstring; sd_title : jsstring; sd_rawCompany : jsstring }.

(** An entry of [skippedExcludedJobs]. *)
Record skippedExcluded : Type := mkSkippedExcluded {
  se_url : jsstring; se_title : jsstring; se_rawCompany : jsstring;
  se_reason : jsstring }.

(** What one turn of the loop over the cards does with its card. *)
Inductive cardOutcome : Type :=
| NoLink
| Duplicate (d : skippedDuplicate)
| ExcludedCompany (e : skippedExcluded)
| Listed (l : listing).

Definition processCard (existingUrlsFromDB : list jsstring) (el : jobCard)
  : cardOutcome :=
  match ensureAbsoluteUrl (card_href el) with
  | None => NoLink
  | Some jobUrl =>
      if arrayIncludes existingUrlsFromDB jobUrl then
        Duplicate (mkSkippedDuplicate jobUrl
                     (orElse (trim (card_title el)) NA)
                     (orElse (trim (card_company el)) NA))
      else
        let title := orElse (trim (card_title el)) (js "Unknown") in
        let rawCompany := orElse (trim (card_company el)) (js "Unknown") in
        let company := name (parseCompanyAndLocation rawCompany) in
        let fullAddress :=
          match card_location el with
          | Some text => cleanLocationText (trim text)
          | None => []
          end in
        let fullAddress := if negb (truthy fullAddress) then NA else fullAddress in
        if startsWith company (js "Excluded")
        then ExcludedCompany (mkSkippedExcluded jobUrl title rawCompany company)
        else Listed (mkListing jobUrl title company fullAddress
                       (cleanCompanyName fullAddress)
                       (orElse (trim (card_employment el)) NA))
  end.

(** The loop over the first [cardsToProcess] cards; the three lists it
    fills are read off the outcomes, in card order. *)
Definition cardOutcomes (inputTestMode : bool) (inputTestJobLimit processedCount : Z)
  (existingUrlsFromDB : list jsstring) (jobCards : list jobCard)
  : list cardOutcome :=
  let cardsToProcess :=
    if inputTestMode
    then Z.min (inputTestJobLimit - processedCount) (len jobCards)
    else len jobCards in
  List.map (processCard existingUrlsFromDB)
           (firstn (Z.to_nat cardsToProcess) jobCards).

Fixpoint listingsOf (outcomes : list cardOutcome) : list listing :=
  match outcomes with
  | [] => []
  | Listed l :: t => l :: listingsOf t
  | _ :: t => listingsOf t
  end.

Fixpoint skippedDuplicateJobs (outcomes : list cardOutcome)
  : list skippedDuplicate :=
  match outcomes with
  | [] => []
  | Duplicate d :: t => d :: skippedDuplicateJobs t
  | _ :: t => skippedDuplicateJobs t
  end.

Fixpoint skippedExcludedJobs (outcomes : list cardOutcome)
  : list skippedExcluded :=
  match outcomes with
  | [] => []
  | ExcludedCompany e :: t => e :: skippedExcludedJobs t
  | _ :: t => skippedExcludedJobs t
  end.

End SearchApi.

(* ================================================================== *)
(** * Properties *)

(** ** Strings and lists *)

Lemma jseqb_eq (a b : jsstring) : jseqb a b = true <-> a = b.
Proof.
  revert b; induction a as [|x a IH]; intros [|y b]; simpl; split;
    try congruence; try reflexivity.
  - intros H. apply andb_prop in H as [Hxy Hab].
    apply N.eqb_eq in Hxy. apply IH in Hab. congruence.
  - intros H. injection H as -> ->.
    rewrite N.eqb_refl. simpl. apply IH. reflexivity.
Qed.

Lemma jseqb_refl (a : jsstring) : jseqb a a = true.
Proof. apply jseqb_eq. reflexivity. Qed.

Lemma jseqb_neq (a b : jsstring) : jseqb a b = false <-> a <> b.
Proof.
  split.
  - intros H E. apply jseqb_eq in E. congruence.
  - intros H. destruct (jseqb a b) eqn:E; [|reflexivity].
    apply jseqb_eq in E. contradiction.
Qed.

Lemma arrayIncludes_In (l : list jsstring) (x : jsstring) :
  arrayIncludes l x = true <-> In x l.
Proof.
  unfold arrayIncludes. rewrite existsb_exists. split.
  - intros [y [Hy E]]. apply jseqb_eq in E. subst. exact Hy.
  - intros H. exists x. split; [exact H | apply jseqb_refl].
Qed.

Lemma len_nonneg {A : Type} (l : list A) : 0 <= len l.
Proof. unfold len. lia. Qed.

Lemma len_cons {A : Type} (x : A) (l : list A) : len (x :: l) = len l + 1.
Proof. unfold len. simpl List.length. lia. Qed.

Lemma truthy_toLowerCase (s : jsstring) : truthy (toLowerCase s) = truthy s.
Proof. destruct s; reflexivity. Qed.

Lemma findFirst_Some {A B : Type} (f : A -> option B) (l : list A) (y : B) :
  findFirst f l = Some y -> exists x, In x l /\ f x = Some y.
Proof.
  induction l as [|x l IH]; simpl; [discriminate|].
  destruct (f x) eqn:E.
  - intros H. injection H as ->. exists x. auto.
  - intros H. destruct (IH H) as [x' [Hin Hx]]. exists x'. auto.
Qed.

(** ** The stable sort *)

Section SortFacts.
Context {A : Type} (cmp : A -> A -> Q).

Lemma insertSorted_perm (x : A) (l : list A) :
  Permutation (insertSorted cmp x l) (x :: l).
Proof.
  induction l as [|y l IH]; simpl; [reflexivity|].
  destruct (Qle_bool (cmp x y) 0); [reflexivity|].
  rewrite IH. apply perm_swap.
Qed.

Lemma sort_perm (l : list A) : Permutation (sort cmp l) l.
Proof.
  induction l as [|x l IH]; simpl; [reflexivity|].
  rewrite insertSorted_perm. constructor. exact IH.
Qed.

(** When the comparator is the difference of a key, the result is in
    ascending key order. *)
Variable keyOf : A -> Q.
Hypothesis cmp_key : forall a b, (cmp a b == keyOf a - keyOf b)%Q.

Lemma insertSorted_sorted (x : A) (l : list A) :
  StronglySorted (fun a b => (keyOf a <= keyOf b)%Q) l ->
  StronglySorted (fun a b => (keyOf a <= keyOf b)%Q) (insertSorted cmp x l).
Proof.
  induction l as [|y l IH]; simpl; intros Hs.
  - repeat constructor.
  - destruct (Qle_bool (cmp x y) 0) eqn:E.
    + apply Qle_bool_iff in E. rewrite cmp_key in E.
      assert (Hxy : (keyOf x <= keyOf y)%Q) by lra.
      constructor; [exact Hs|].
      constructor; [exact Hxy|].
      inversion Hs as [|? ? _ Hall]; subst.
      eapply Forall_impl; [|exact Hall].
      intros z Hz. simpl in Hz. lra.
    + assert (Hyx : (keyOf y <= keyOf x)%Q).
      { destruct (Qlt_le_dec (keyOf x) (keyOf y)) as [Hlt|Hle]; [|exact Hle].
        assert (Qle_bool (cmp x y) 0 = true)
          by (apply Qle_bool_iff; rewrite cmp_key; lra).
        congruence. }
      inversion Hs as [|? ? Hs' Hall]; subst.
      constructor; [apply IH; exact Hs'|].
      eapply Permutation_Forall;
        [symmetry; apply insertSorted_perm|].
      constructor; [exact Hyx | exact Hall].
Qed.

Lemma sort_sorted (l : list A) :
  StronglySorted (fun a b => (keyOf a <= keyOf b)%Q) (sort cmp l).
Proof.
  induction l as [|x l IH]; simpl; [constructor|].
  apply insertSorted_sorted. exact IH.
Qed.

Lemma sort_order (l l1 l2 l3 : list A) (a b : A) :
  sort cmp l = l1 ++ a :: l2 ++ b :: l3 -> (keyOf a <= keyOf b)%Q.
Proof.
  intros E. pose proof (sort_sorted l) as Hs. rewrite E in Hs.
  clear E. induction l1 as [|x l1 IH]; simpl in Hs.
  - inversion Hs as [|? ? _ Hall]; subst.
    rewrite Forall_forall in Hall. apply Hall.
    apply in_or_app. right. left. reflexivity.
  - inversion Hs; subst. auto.
Qed.
End SortFacts.

(** ** The title priority scorer *)

Lemma arrayIndexOfFrom_range (l : list jsstring) (x : jsstring) (i : Z) :
  arrayIndexOfFrom l x i = -1 \/
  (i <= arrayIndexOfFrom l x i < i + len l).
Proof.
  revert i; induction l as [|y l IH]; intros i; simpl; [left; reflexivity|].
  rewrite len_cons. pose proof (len_nonneg l).
  destruct (jseqb y x); [right; lia|].
  destruct (IH (i + 1)) as [E|E]; [left; exact E | right; lia].
Qed.

Lemma arrayIndexOf_range (l : list jsstring) (x : jsstring) :
  arrayIndexOf l x = -1 \/ (0 <= arrayIndexOf l x < len l).
Proof. apply (arrayIndexOfFrom_range l x 0). Qed.

(** The [n]-th entry of the list is [e], and [e] does not occur before. *)
Definition firstOccurrence (l : list jsstring) (e : jsstring) (n : nat) : Prop :=
  nth_error l n = Some e /\ forall k, (k < n)%nat -> nth_error l k <> Some e.

Lemma arrayIndexOfFrom_first (l : list jsstring) (e : jsstring) (n : nat) (i : Z) :
  firstOccurrence l e n -> arrayIndexOfFrom l e i = i + Z.of_nat n.
Proof.
  revert n i; induction l as [|y l IH]; intros n i [Hn Hfirst].
  - destruct n; discriminate.
  - simpl. destruct n as [|n].
    + simpl in Hn. injection Hn as ->. rewrite jseqb_refl. lia.
    + destruct (jseqb y e) eqn:E.
      * apply jseqb_eq in E. subst y.
        exfalso. apply (Hfirst 0%nat); [lia | reflexivity].
      * rewrite (IH n (i + 1)); [lia|]. split; [exact Hn|].
        intros k Hk. apply (Hfirst (S k)). lia.
Qed.

Lemma vpScan_range (lowerTitle : jsstring) (l : list jsstring) (i r : Z) :
  vpScan lowerTitle l i = Some r -> i <= r < i + len l.
Proof.
  revert i; induction l as [|term l IH]; intros i; simpl; [discriminate|].
  rewrite len_cons. pose proof (len_nonneg l).
  destruct (_ && _).
  - intros Hs; injection Hs as <-. lia.
  - intros Hs. apply IH in Hs. lia.
Qed.

Lemma substringScan_range (lowerTitle : jsstring) (l : list jsstring) (i r : Z) :
  substringScan lowerTitle l i = Some r -> i <= r < i + len l.
Proof.
  revert i; induction l as [|term l IH]; intros i; simpl; [discriminate|].
  rewrite len_cons. pose proof (len_nonneg l).
  repeat match goal with
         | |- context [if ?b then _ else _] => destruct b
         end;
    intros Hs; try (injection Hs as <-; lia); apply IH in Hs; lia.
Qed.

Lemma roleLevelMatch_range (lowerTitle : jsstring) (role level : keyAlt) (r : Z) :
  roleLevelMatch lowerTitle role level = Some r -> 0 <= r < len TITLE_PRIORITY.
Proof.
  unfold roleLevelMatch. cbv zeta.
  set (a := arrayIndexOf TITLE_PRIORITY (key role ++ js " " ++ key level)).
  set (b := arrayIndexOf TITLE_PRIORITY (alt role ++ js " " ++ key level)).
  pose proof (arrayIndexOf_range TITLE_PRIORITY (key role ++ js " " ++ key level)) as Ha.
  pose proof (arrayIndexOf_range TITLE_PRIORITY (alt role ++ js " " ++ key level)) as Hb.
  fold a in Ha. fold b in Hb.
  destruct (a =? -1) eqn:Ea.
  - destruct (b =? -1) eqn:Eb; cbn [negb andb]; [discriminate|].
    apply Z.eqb_neq in Eb.
    destruct (_ || _); intros H; [|discriminate]. injection H as <-. lia.
  - rewrite Ea. cbn [negb andb]. apply Z.eqb_neq in Ea.
    destruct (_ || _); intros H; [|discriminate]. injection H as <-. lia.
Qed.

(** A rank is an index of the list or the sentinel just past it. *)
Lemma getTitlePriority_bounds (title : jsstring) :
  0 <= getTitlePriority title <= len TITLE_PRIORITY + 1.
Proof.
  unfold getTitlePriority. cbv zeta.
  pose proof (len_nonneg TITLE_PRIORITY) as Hl.
  destruct (negb (truthy title)); [lia|].
  pose proof (arrayIndexOf_range TITLE_PRIORITY (toLowerCase title)) as Hx.
  destruct (arrayIndexOf TITLE_PRIORITY (toLowerCase title) =? -1) eqn:Ex;
    cbn [negb].
  2:{ apply Z.eqb_neq in Ex. lia. }
  destruct (findFirst _ roleTypes) as [r|] eqn:Er.
  - apply findFirst_Some in Er as [role [_ Er]].
    apply findFirst_Some in Er as [level [_ Er]].
    apply roleLevelMatch_range in Er. lia.
  - match goal with
    | |- context [match ?v with Some _ => _ | None => _ end] =>
        destruct v as [r|] eqn:Ev
    end.
    + destruct (_ && _); [|discriminate].
      apply vpScan_range in Ev. lia.
    + destruct (substringScan _ _ _) as [r|] eqn:Es; [|lia].
      apply substringScan_range in Es. lia.
Qed.

Lemma TITLE_PRIORITY_length : len TITLE_PRIORITY = 76.
Proof. vm_compute. reflexivity. Qed.

(** A title that lower-cases to an entry gets the index of the entry's
    first occurrence. *)
Lemma getTitlePriority_exact (title : jsstring) (n : nat) :
  firstOccurrence TITLE_PRIORITY (toLowerCase title) n ->
  getTitlePriority title = Z.of_nat n.
Proof.
  intros Hf. unfold getTitlePriority. cbv zeta.
  assert (Ht : truthy title = true).
  { destruct title; [|reflexivity]. exfalso.
    destruct Hf as [Hn _]. apply nth_error_In in Hn.
    apply arrayIncludes_In in Hn. vm_compute in Hn. discriminate. }
  rewrite Ht. cbn [negb].
  unfold arrayIndexOf. rewrite (arrayIndexOfFrom_first 0 Hf).
  replace (0 + Z.of_nat n =? -1) with false by (symmetry; apply Z.eqb_neq; lia).
  cbn [negb]. lia.
Qed.

Definition firstOccurrenceb (l : list jsstring) (e : jsstring) (n : nat) : bool :=
  match nth_error l n with
  | Some x => jseqb x e && forallb (fun y => negb (jseqb y e)) (firstn n l)
  | None => false
  end.

Lemma firstOccurrenceb_correct (l : list jsstring) (e : jsstring) (n : nat) :
  firstOccurrenceb l e n = true -> firstOccurrence l e n.
Proof.
  unfold firstOccurrenceb, firstOccurrence.
  destruct (nth_error l n) as [x|] eqn:En; [|discriminate].
  intros H. apply andb_prop in H as [Hx Hall].
  apply jseqb_eq in Hx. subst x. split; [reflexivity|].
  intros k Hk Ek. rewrite forallb_forall in Hall.
  assert (Hin : In e (firstn n l)).
  { apply nth_error_In with (n := k). rewrite nth_error_firstn.
    apply Nat.ltb_lt in Hk. rewrite Hk. exact Ek. }
  apply Hall in Hin. rewrite jseqb_refl in Hin. discriminate.
Qed.

(** C7, as stated, fails: the entry "chief people officer" stands in the
    list twice, at 0 and at 43, and [indexOf] answers the first.  So the
    title matching the entry at 2 is ranked after the title matching the
    entry at 43. *)
Lemma getTitlePriority_duplicate_entry :
  nth_error TITLE_PRIORITY 2 = Some (toLowerCase (js "CHRO")) /\
  nth_error TITLE_PRIORITY 43 = Some (toLowerCase (js "Chief People Officer")) /\
  getTitlePriority (js "CHRO") = 2 /\
  getTitlePriority (js "Chief People Officer") = 0 /\
  ~ (getTitlePriority (js "CHRO") < getTitlePriority (js "Chief People Officer")).
Proof. vm_compute. repeat split; try reflexivity. discriminate. Qed.

(** C7, amended: for two titles that exactly (case-insensitively) match
    two entries of TITLE_PRIORITY, the title whose entry has its first
    occurrence earlier in the list gets the strictly lower rank. *)
Theorem getTitlePriority_monotone (title1 title2 : jsstring) (i j : nat) :
  firstOccurrence TITLE_PRIORITY (toLowerCase title1) i ->
  firstOccurrence TITLE_PRIORITY (toLowerCase title2) j ->
  (i < j)%nat ->
  getTitlePriority title1 < getTitlePriority title2.
Proof.
  intros H1 H2 Hij.
  rewrite (getTitlePriority_exact title1 H1), (getTitlePriority_exact title2 H2).
  lia.
Qed.

Lemma getTitlePriority_monotone_witness :
  getTitlePriority (js "CHRO") < getTitlePriority (js "CEO").
Proof.
  apply (@getTitlePriority_monotone (js "CHRO") (js "CEO") 2 38).
  - apply firstOccurrenceb_correct. vm_compute. reflexivity.
  - apply firstOccurrenceb_correct. vm_compute. reflexivity.
  - lia.
Defined.

(** ** The company name parser *)

(** C3, as stated, fails: the name that comes back is not in title case. *)
Lemma parse_marcus_samuelsson_not_title_case :
  name (Hunter.parseCompanyAndLocation (js "MARCUS SAMUELSSON RESTAURANT GROUP"))
  <> js "Marcus Samuelsson Restaurant Group".
Proof. vm_compute. discriminate. Qed.

(** C3, amended: the raw company text "MARCUS SAMUELSSON RESTAURANT GROUP"
    is resolved to itself, in its own capitals: the whole name is kept
    and not stripped down to its generic ending. *)
Theorem parse_marcus_samuelsson_preserved :
  Hunter.parseCompanyAndLocation (js "MARCUS SAMUELSSON RESTAURANT GROUP")
  = mkParsed (js "MARCUS SAMUELSSON RESTAURANT GROUP") [].
Proof. vm_compute. reflexivity. Qed.

(** C4, as stated, fails: "Washington" is a recognised place name, and
    the parser answers 'Excluded' for it, since the exclusion list, which
    is consulted first, holds "washington". *)
Lemma parse_washington_excluded :
  In (js "Washington") commonLocations /\
  name (Hunter.parseCompanyAndLocation (js "Washington")) <> js "Unknown".
Proof.
  split.
  - apply arrayIncludes_In. vm_compute. reflexivity.
  - vm_compute. discriminate.
Qed.

(** The other place name that is not parsed to 'Unknown': the pattern for
    glued words, which ignores case, reads "Denver" as "den" and "ver". *)
Lemma parse_denver :
  In (js "Denver") commonLocations /\
  Hunter.parseCompanyAndLocation (js "Denver") = mkParsed (js "Den ver") [].
Proof.
  split; [apply arrayIncludes_In|]; vm_compute; reflexivity.
Qed.

(** C4, amended: a raw company string that is exactly a recognised place
    name, other than "Washington" and "Denver", is parsed to 'Unknown';
    "Washington" is parsed to 'Excluded'. *)
Theorem parse_location_alone (loc : jsstring) :
  In loc commonLocations ->
  loc <> js "Washington" ->
  loc <> js "Denver" ->
  Hunter.parseCompanyAndLocation loc = unknownCompany
  /\ Hunter.parseCompanyAndLocation (js "Washington") = mkParsed (js "Excluded") [].
Proof.
  intros Hin Hw Hd. split; [|vm_compute; reflexivity].
  assert (Hall :
    forallb (fun l =>
               jseqb l (js "Washington") || jseqb l (js "Denver")
               || (jseqb (name (Hunter.parseCompanyAndLocation l)) (js "Unknown")
                   && jseqb (location (Hunter.parseCompanyAndLocation l)) []))
            commonLocations = true) by (vm_compute; reflexivity).
  rewrite forallb_forall in Hall. specialize (Hall loc Hin).
  apply jseqb_neq in Hw, Hd. rewrite Hw, Hd in Hall. cbn [orb] in Hall.
  apply andb_prop in Hall as [Hn Hl].
  apply jseqb_eq in Hn, Hl.
  destruct (Hunter.parseCompanyAndLocation loc) as [n l]. simpl in *.
  subst. reflexivity.
Qed.

Lemma parse_location_alone_witness :
  Hunter.parseCompanyAndLocation (js "New York") = unknownCompany
  /\ Hunter.parseCompanyAndLocation (js "Washington") = mkParsed (js "Excluded") [].
Proof.
  apply (@parse_location_alone (js "New York")).
  - apply arrayIncludes_In. vm_compute. reflexivity.
  - vm_compute. discriminate.
  - vm_compute. discriminate.
Defined.

(** The parse result is a company name: neither the sentinel nor an
    exclusion. *)
Definition isResolved (p : parsedCompany) : bool :=
  negb (jseqb (name p) (js "Unknown")) && negb (startsWith (name p) (js "Excluded")).


(** The company texts the parser's own comments give as examples, those
    that resolve to a name. *)
Definition parserFixtures : list jsstring := List.map js [
  "MARCUS SAMUELSSON RESTAURANT GROUP";
  "Marcus Samuelsson Restaurant Group";
  "Blue Hill Fine Dining";
  "Seaport Entertainment GroupNew York, NY";
  "P.M. Pastry Sous Chef abc V Restaurants by JorgesNew York";
  "Bobby's Restaurant";
  "Brooklyn Brewery";
  "New York Culinary Group";
  "Restaurants by Jorge";
  "Georges" ].

(** ** The directory lookup of the Hunter generation *)

Module HunterFacts.
Import Hunter.

(** The guard at the head of [getCompanyInfoWithSource]. *)
Definition guarded (companyName : jsstring) : bool :=
  negb (truthy companyName) || jseqb companyName (js "Unknown")
  || startsWith companyName (js "Excluded:").

(** The condition under which the [catch] block looks the location up. *)
Definition retries (companyName locationName source : jsstring) : bool :=
  jseqb source (js "company") && truthy locationName
  && negb (jseqb locationName companyName).

(** The request did not bring a usable answer: it timed out or was
    rejected, the status was an error, or the body was not a JSON object
    with a [data] object. *)
Definition requestFails (o : fetchOutcome) : bool :=
  match o with
  | Json (Some _) => false
  | _ => true
  end.

Definition isFetch (ev : event) : bool :=
  match ev with EvFetch _ => true | _ => false end.

(** The number of requests sent to the directory so far. *)
Definition fetches (st : state) : nat := List.length (filter isFetch (trace st)).

Lemma getCompanyInfoWithSource_unfold (fuel : nat) (w : world)
  (companyName locationName source : jsstring) (st : state) :
  getCompanyInfoWithSource (S fuel) w companyName locationName source st =
  if guarded companyName then Some (skipShape w source, st) else
  match beforeFetch w companyName source st with
  | (inl early, st) => Some (early, st)
  | (inr (cleanedName, cacheKey), st) =>
      match tryFetch w companyName source cleanedName cacheKey st with
      | (inr result, st) => Some (result, st)
      | (inl error, st) =>
          if retries companyName locationName source
          then getCompanyInfoWithSource fuel w locationName [] (js "location") st
          else Some (errorShape w source, st)
      end
  end.
Proof. reflexivity. Qed.

Lemma trace_cacheDelete (key : jsstring) (st : state) :
  trace (cacheDelete key st) = trace st.
Proof. reflexivity. Qed.

Lemma trace_forceRefresh (lowerCleanedName : jsstring) (keys : list jsstring)
  (st : state) :
  trace (fold_left
           (fun st key =>
              if includes (toLowerCase key) lowerCleanedName
              then cacheDelete key st else st) keys st) = trace st.
Proof.
  revert st; induction keys as [|k keys IH]; intros st; simpl; [reflexivity|].
  rewrite IH. destruct (includes _ _); reflexivity.
Qed.

(** Nothing is requested before the [try] block. *)
Lemma beforeFetch_trace (w : world) (companyName source : jsstring) (st : state) :
  trace (snd (beforeFetch w companyName source st)) = trace st.
Proof.
  unfold beforeFetch. cbv zeta.
  destruct (_ || _); [reflexivity|].
  destruct (existsb _ PARTIAL_EXCLUSIONS); [reflexivity|].
  set (st1 := if arrayIncludes FORCE_FRESH_COMPANIES _ then _ else st).
  assert (H1 : trace st1 = trace st).
  { subst st1. destruct (arrayIncludes FORCE_FRESH_COMPANIES _); [|reflexivity].
    rewrite trace_forceRefresh. destruct (cacheHas _ st); reflexivity. }
  unfold DISABLE_COMPANY_CACHE. cbn [negb andb]. exact H1.
Qed.

(** The [try] block sends exactly one request, for the cleaned name;
    after a 429 it also waits. *)
Lemma tryFetch_trace (w : world) (companyName source cleanedName cacheKey : jsstring)
  (st : state) :
  trace (snd (tryFetch w companyName source cleanedName cacheKey st))
  = trace st ++ [EvDelay 1000; EvFetch (trim cleanedName)]
  \/ trace (snd (tryFetch w companyName source cleanedName cacheKey st))
     = trace st ++ [EvDelay 1000; EvFetch (trim cleanedName); EvDelay 10000].
Proof.
  unfold tryFetch. cbv zeta. unfold DISABLE_COMPANY_CACHE. cbn [negb].
  assert (E : trace (emit (EvFetch (trim cleanedName)) (emit (EvDelay 1000) st))
              = trace st ++ [EvDelay 1000; EvFetch (trim cleanedName)]).
  { unfold emit. simpl. rewrite <- app_assoc. reflexivity. }
  destruct (hunter w (trim cleanedName)) as [msg|status txt|msg|[data|]];
    try (left; exact E).
  - destruct (status =? 429); [right|left; exact E].
    unfold emit in *. simpl in *. rewrite E, <- app_assoc. reflexivity.
  - destruct (match d_results data with Some _ => _ | None => _ end)
      as [[[i best] es]|]; [left; exact E|].
    destruct (match d_emails data with Some _ => _ | None => _ end);
      left; exact E.
Qed.

Lemma fetches_app (st : state) (tr : list event) (tail : list event) :
  tr = trace st ++ tail ->
  List.length (filter isFetch tr) = (fetches st + List.length (filter isFetch tail))%nat.
Proof. intros ->. unfold fetches. rewrite filter_app, length_app. reflexivity. Qed.

Lemma tryFetch_fetches (w : world) (companyName source cleanedName cacheKey : jsstring)
  (st : state) :
  fetches (snd (tryFetch w companyName source cleanedName cacheKey st))
  = S (fetches st).
Proof.
  unfold fetches at 1.
  destruct (tryFetch_trace w companyName source cleanedName cacheKey st) as [E|E];
    rewrite (@fetches_app st _ _ E); simpl; lia.
Qed.

Lemma beforeFetch_fetches (w : world) (companyName source : jsstring) (st : state) :
  fetches (snd (beforeFetch w companyName source st)) = fetches st.
Proof. unfold fetches. rewrite beforeFetch_trace. reflexivity. Qed.

(** The [try] block throws exactly when the request fails. *)
Lemma tryFetch_throws (w : world) (companyName source cleanedName cacheKey : jsstring)
  (st : state) :
  requestFails (hunter w (trim cleanedName)) = true <->
  exists error, fst (tryFetch w companyName source cleanedName cacheKey st) = inl error.
Proof.
  unfold tryFetch. cbv zeta. unfold DISABLE_COMPANY_CACHE. cbn [negb].
  destruct (hunter w (trim cleanedName)) as [msg|status txt|msg|[data|]];
    simpl requestFails.
  - split; [eexists; reflexivity | reflexivity].
  - split; [eexists; reflexivity | reflexivity].
  - split; [eexists; reflexivity | reflexivity].
  - split; [discriminate|]. intros [error H]. exfalso. revert H.
    destruct (match d_results data with Some _ => _ | None => _ end)
      as [[[i best] es]|]; [discriminate|].
    destruct (match d_emails data with Some _ => _ | None => _ end);
      discriminate.
  - split; [eexists; reflexivity | reflexivity].
Qed.

(** A lookup tagged [location] never looks anything else up. *)
Lemma retries_location (companyName locationName : jsstring) :
  retries companyName locationName (js "location") = false.
Proof. reflexivity. Qed.

Lemma lookup_location (fuel : nat) (w : world) (companyName : jsstring) (st : state) :
  exists r st',
    getCompanyInfoWithSource (S fuel) w companyName [] (js "location") st
    = Some (r, st')
    /\ (fetches st' <= fetches st + 1)%nat.
Proof.
  rewrite getCompanyInfoWithSource_unfold.
  destruct (guarded companyName); [eexists; eexists; split; [reflexivity|lia]|].
  pose proof (beforeFetch_fetches w companyName (js "location") st) as Hb.
  destruct (beforeFetch w companyName (js "location") st)
    as [[early|[cleanedName cacheKey]] st1]; simpl in Hb.
  - eexists; eexists; split; [reflexivity|lia].
  - pose proof (tryFetch_fetches w companyName (js "location") cleanedName cacheKey st1)
      as Ht.
    destruct (tryFetch w companyName (js "location") cleanedName cacheKey st1)
      as [[error|result] st2]; simpl in Ht.
    + rewrite retries_location. eexists; eexists; split; [reflexivity|lia].
    + eexists; eexists; split; [reflexivity|lia].
Qed.

Lemma lookup_location_fuel (fuel : nat) (w : world) (companyName : jsstring)
  (st : state) :
  getCompanyInfoWithSource (S fuel) w companyName [] (js "location") st
  = getCompanyInfoWithSource 1 w companyName [] (js "location") st.
Proof.
  rewrite !getCompanyInfoWithSource_unfold.
  destruct (guarded companyName); [reflexivity|].
  destruct (beforeFetch w companyName (js "location") st)
    as [[early|[cleanedName cacheKey]] st1]; [reflexivity|].
  destruct (tryFetch w companyName (js "location") cleanedName cacheKey st1)
    as [[error|result] st2]; [|reflexivity].
  rewrite retries_location. reflexivity.
Qed.

(** C6, amended: the lookup always returns (it never throws to its
    caller) and sends at most two requests.  When the request fails (a
    timeout or a rejection, an HTTP error status, a body that is not an
    object with data), the answer is the empty shape whose [linkedin] is
    'Error' and whose [source] is the caller's tag, unchanged; except
    that a lookup tagged 'company' with a non-empty location other than
    the company name answers what one further lookup of that location,
    tagged 'location', answers.  That second lookup has fuel for no
    third. *)
Theorem getCompanyInfoWithSource_failure (fuel : nat) (w : world)
  (companyName locationName source : jsstring) (st : state) :
  (2 <= fuel)%nat ->
  (exists r st',
      getCompanyInfoWithSource fuel w companyName locationName source st
      = Some (r, st')
      /\ (fetches st' <= fetches st + 2)%nat)
  /\
  (forall cleanedName cacheKey st1,
      guarded companyName = false ->
      beforeFetch w companyName source st = (inr (cleanedName, cacheKey), st1) ->
      requestFails (hunter w (trim cleanedName)) = true ->
      let st2 := snd (tryFetch w companyName source cleanedName cacheKey st1) in
      if retries companyName locationName source
      then getCompanyInfoWithSource fuel w companyName locationName source st
           = getCompanyInfoWithSource 1 w locationName [] (js "location") st2
      else getCompanyInfoWithSource fuel w companyName locationName source st
           = Some (errorShape w source, st2)).
Proof.
  intros Hfuel. destruct fuel as [|[|fuel]]; try lia. clear Hfuel.
  rewrite getCompanyInfoWithSource_unfold. split.
  - destruct (guarded companyName); [eexists; eexists; split; [reflexivity|lia]|].
    pose proof (beforeFetch_fetches w companyName source st) as Hb.
    destruct (beforeFetch w companyName source st)
      as [[early|[cleanedName cacheKey]] st1]; simpl in Hb.
    + eexists; eexists; split; [reflexivity|lia].
    + pose proof (tryFetch_fetches w companyName source cleanedName cacheKey st1)
        as Ht.
      destruct (tryFetch w companyName source cleanedName cacheKey st1)
        as [[error|result] st2]; simpl in Ht.
      * destruct (retries companyName locationName source).
        -- destruct (lookup_location fuel w locationName st2)
             as [r [st' [E Hf]]].
           exists r, st'. split; [exact E|lia].
        -- eexists; eexists; split; [reflexivity|lia].
      * eexists; eexists; split; [reflexivity|lia].
  - intros cleanedName cacheKey st1 Hg Hb Hfail. rewrite Hg, Hb.
    apply (tryFetch_throws w companyName source cleanedName cacheKey st1) in Hfail.
    destruct Hfail as [error Herr].
    destruct (tryFetch w companyName source cleanedName cacheKey st1)
      as [outcome st2]. simpl in Herr. subst outcome.
    cbv beta iota zeta. cbn [snd].
    destruct (retries companyName locationName source); [|reflexivity].
    apply lookup_location_fuel.
Qed.

(** A directory that never answers in time, and one that answers a
    company without emails. *)
Definition timingOut : world :=
  mkWorld (fun _ => Rejected (js "Operation timed out after 30000ms")) (js "now") 0
          toLowerCase.

Definition answeringEmpty : world :=
  mkWorld (fun _ => Json (Some (mkApiData None None None None None None)))
          (js "now") 0 toLowerCase.

Definition freshState : state := mkState [] [].

Lemma getCompanyInfoWithSource_failure_witness :
  getCompanyInfoWithSource 2 timingOut (js "Acme") (js "Brooklyn") (js "company")
    freshState
  = Some (errorShape timingOut (js "location"),
          mkState [] [EvDelay 1000; EvFetch (js "Acme");
                      EvDelay 1000; EvFetch (js "Brooklyn")]).
Proof.
  destruct (@getCompanyInfoWithSource_failure 2 timingOut (js "Acme") (js "Brooklyn")
              (js "company") freshState (le_n 2)) as [_ H].
  specialize (H (js "Acme") (js "acme:company") freshState).
  rewrite H; vm_compute; reflexivity.
Defined.

(** C6, as stated, fails: the [source] field of the failure shape is the
    tag the caller passed, the same that a lookup answered without emails
    carries; it is [linkedin] that reads 'Error'. *)
Lemma failure_source_is_the_callers_tag :
  option_map (fun x => (linkedin (fst x), source (fst x)))
    (getCompanyInfoWithSource 2 timingOut (js "Acme") [] (js "company") freshState)
  = Some (js "Error", js "company")
  /\
  option_map (fun x => (linkedin (fst x), source (fst x)))
    (getCompanyInfoWithSource 2 answeringEmpty (js "Acme") [] (js "company") freshState)
  = Some (js "N/A", js "company").
Proof. vm_compute. split; reflexivity. Qed.

(** The names the guard does stop, 'Unknown' and 'Excluded: <term>' among
    them, bring the skip shape and no request. *)
Lemma guarded_name_is_skipped (fuel : nat) (w : world)
  (companyName locationName source : jsstring) (st : state) :
  guarded companyName = true ->
  getCompanyInfoWithSource (S fuel) w companyName locationName source st
  = Some (skipShape w source, st).
Proof. intros H. rewrite getCompanyInfoWithSource_unfold, H. reflexivity. Qed.

Lemma guarded_sentinels :
  guarded (js "Unknown") = true /\ guarded (js "Excluded: whole foods") = true
  /\ guarded [] = true.
Proof. repeat split; reflexivity. Qed.

(** C1, at the failing input: the raw company text "Compass" is on the
    exclusion list and is parsed to 'Excluded'; the guard of the lookup
    tests for 'Excluded:' and lets this name through, so the orchestrator
    sends a request for a company called "Excluded" to the directory. *)
Theorem excluded_name_is_looked_up (w : world) (st : state) :
  name (parseCompanyAndLocation (js "Compass")) = js "Excluded"
  /\ guarded (js "Excluded") = false
  /\ exists merged st',
       getCompanyInfo 2 w (js "Compass") [] st = Some (merged, st')
       /\ In (EvFetch (js "Excluded")) (trace st').
Proof.
  split; [vm_compute; reflexivity|]. split; [reflexivity|].
  unfold getCompanyInfo, bind. cbv zeta.
  replace (name (parseCompanyAndLocation (js "Compass"))) with (js "Excluded")
    by (vm_compute; reflexivity).
  rewrite getCompanyInfoWithSource_unfold.
  change (guarded (js "Excluded")) with false. cbv iota.
  assert (Hb : beforeFetch w (js "Excluded") (js "company") st
               = (inr (js "Excluded", js "excluded:company"), st))
    by (destruct st; vm_compute; reflexivity).
  rewrite Hb.
  pose proof (tryFetch_trace w (js "Excluded") (js "company") (js "Excluded")
                (js "excluded:company") st) as Ht.
  change (trim (js "Excluded")) with (js "Excluded") in Ht.
  destruct (tryFetch w (js "Excluded") (js "company") (js "Excluded")
              (js "excluded:company") st) as [[error|result] st2];
    simpl snd in Ht.
  - change (retries (js "Excluded") [] (js "company")) with false. cbv iota.
    eexists; eexists; split; [reflexivity|].
    destruct Ht as [-> | ->]; apply in_or_app; right; simpl; auto.
  - eexists; eexists; split; [reflexivity|].
    destruct Ht as [-> | ->]; apply in_or_app; right; simpl; auto.
Qed.

End HunterFacts.

(** ** The orchestrator of the SearchAPI generation *)

Module SearchApiFacts.
Import SearchApi.

Lemma getWebsiteUrlFromGoogle_trace (w : world) (companyName : jsstring)
  (tr : list event) :
  snd (getWebsiteUrlFromGoogle w companyName tr) = tr ++ [EvSearch companyName].
Proof.
  unfold getWebsiteUrlFromGoogle. destruct (searchAPI w companyName); reflexivity.
Qed.

Lemma primaryTask_trace (w : world) (companyName : jsstring) (tr : list event) :
  snd (primaryTask w companyName tr) = tr ++ [EvSearch companyName].
Proof.
  unfold primaryTask.
  pose proof (getWebsiteUrlFromGoogle_trace w companyName tr) as H.
  destruct (getWebsiteUrlFromGoogle w companyName tr) as [[url|] tr'];
    simpl in H; subst tr'; [|reflexivity].
  destruct (match url with Some _ => _ | None => _ end); reflexivity.
Qed.

Lemma parentTask_trace (w : world) (companyName : jsstring) (tr : list event) :
  snd (parentTask w companyName tr) = tr ++ [EvSearch companyName].
Proof.
  unfold parentTask.
  pose proof (getWebsiteUrlFromGoogle_trace w companyName tr) as H.
  destruct (getWebsiteUrlFromGoogle w companyName tr) as [[url|] tr'];
    simpl in H; subst tr'; [|reflexivity].
  destruct (match url with Some _ => _ | None => _ end); reflexivity.
Qed.

(** The names the domain discovery client is called with, in order: the
    parsed primary name unless it is empty or starts with 'Excluded',
    then the parsed parent name under the same test, unless it is the
    primary name. *)
Definition searchedNames (rawCompanyName : jsstring)
  (parentCompanyName : option jsstring) : list jsstring :=
  let primary := name (parseCompanyAndLocation rawCompanyName) in
  (if truthy primary && negb (startsWith primary (js "Excluded"))
   then [primary] else [])
  ++ match parentCompanyName with
     | Some p =>
         if truthy p then
           let parent := name (parseCompanyAndLocation p) in
           if truthy parent && negb (jseqb parent primary)
              && negb (startsWith parent (js "Excluded"))
           then [parent] else []
         else []
     | None => []
     end.

Lemma getCompanyInfo_trace (w : world) (rawCompanyName rawLocation : jsstring)
  (parentCompanyName : option jsstring) :
  snd (getCompanyInfo w rawCompanyName rawLocation parentCompanyName)
  = List.map EvSearch (searchedNames rawCompanyName parentCompanyName).
Proof.
  unfold getCompanyInfo, runStrategies, searchedNames. cbv zeta.
  set (primary := name (parseCompanyAndLocation rawCompanyName)).
  destruct (truthy primary && negb (startsWith primary (js "Excluded"))).
  - pose proof (primaryTask_trace w primary []) as Hp.
    destruct (primaryTask w primary []) as [[result|] tr]; simpl in Hp; subst tr.
    + destruct parentCompanyName as [p|]; [|reflexivity].
      destruct (truthy p); [|reflexivity].
      set (parent := name (parseCompanyAndLocation p)).
      destruct (truthy parent && negb (jseqb parent primary)
                && negb (startsWith parent (js "Excluded"))); [|reflexivity].
      pose proof (parentTask_trace w parent [EvSearch primary]) as Hq.
      destruct (parentTask w parent [EvSearch primary]) as [[r2|] tr2];
        simpl in Hq; subst tr2; reflexivity.
    + destruct parentCompanyName as [p|]; [|reflexivity].
      destruct (truthy p); [|reflexivity].
      set (parent := name (parseCompanyAndLocation p)).
      destruct (truthy parent && negb (jseqb parent primary)
                && negb (startsWith parent (js "Excluded"))); [|reflexivity].
      pose proof (parentTask_trace w parent [EvSearch primary]) as Hq.
      destruct (parentTask w parent [EvSearch primary]) as [[r2|] tr2];
        simpl in Hq; subst tr2; reflexivity.
  - destruct parentCompanyName as [p|]; [|reflexivity].
    destruct (truthy p); [|reflexivity].
    set (parent := name (parseCompanyAndLocation p)).
    destruct (truthy parent && negb (jseqb parent primary)
              && negb (startsWith parent (js "Excluded"))); [|reflexivity].
    pose proof (parentTask_trace w parent []) as Hq.
    destruct (parentTask w parent []) as [[r2|] tr2];
      simpl in Hq; subst tr2; reflexivity.
Qed.

(** No name that starts with 'Excluded' is searched for. *)
Lemma excluded_name_is_never_searched (rawCompanyName : jsstring)
  (parentCompanyName : option jsstring) (n : jsstring) :
  In n (searchedNames rawCompanyName parentCompanyName) ->
  startsWith n (js "Excluded") = false.
Proof.
  unfold searchedNames. cbv zeta. rewrite in_app_iff. intros [H|H].
  - destruct (truthy _ && negb (startsWith _ (js "Excluded"))) eqn:E;
      [|destruct H].
    destruct H as [<-|[]]. apply andb_prop in E as [_ E].
    apply negb_true_iff in E. exact E.
  - destruct parentCompanyName as [p|]; [|destruct H].
    destruct (truthy p); [|destruct H].
    destruct (truthy _ && negb (jseqb _ _) && negb (startsWith _ (js "Excluded")))
      eqn:E; [|destruct H].
    destruct H as [<-|[]]. apply andb_prop in E as [_ E].
    apply negb_true_iff in E. exact E.
Qed.

(** C5, at the failing input: the raw company text "Restaurant Group" is
    parsed to 'Unknown'; the orchestrator tests the parsed name only for
    being empty or starting with 'Excluded', so the domain discovery
    client is called with the name "Unknown". *)
Theorem unknown_name_is_searched (w : world) (rawLocation : jsstring) :
  name (parseCompanyAndLocation (js "Restaurant Group")) = js "Unknown"
  /\ snd (getCompanyInfo w (js "Restaurant Group") rawLocation None)
     = [EvSearch (js "Unknown")].
Proof.
  split; [vm_compute; reflexivity|].
  rewrite getCompanyInfo_trace. vm_compute. reflexivity.
Qed.

End SearchApiFacts.

(** ** The merge step *)

(** The deduplication key of a contact. *)
Section MergeKey.

(** [String.prototype.toLowerCase] of the engine. *)
Variable lowerCase : jsstring -> jsstring.

(** The key under which the merge remembers a contact: its address,
    lower-cased by the engine. *)
Definition emailKey (email : contact) : jsstring := lowerCase (c_email email).

(** [c] is the first of the candidates to carry its key. *)
Definition firstWriter (candidates : list contact) (c : contact) : Prop :=
  exists pre post,
    candidates = pre ++ c :: post
    /\ forall x, In x pre -> emailKey x <> emailKey c.

Lemma NoDup_snoc {A : Type} (l : list A) (x : A) :
  NoDup l -> ~ In x l -> NoDup (l ++ [x]).
Proof.
  intros Hl Hx. apply NoDup_app.
  - exact Hl.
  - repeat constructor. intros [].
  - intros y Hy [<-|[]]. exact (Hx Hy).
Qed.

Lemma firstWriter_In (candidates : list contact) (c : contact) :
  firstWriter candidates c -> In c candidates.
Proof. intros [pre [post [-> _]]]. apply in_or_app. right. left. reflexivity. Qed.

Lemma firstWriter_snoc (l : list contact) (t c : contact) :
  firstWriter (l ++ [t]) c <->
  firstWriter l c \/ (c = t /\ forall x, In x l -> emailKey x <> emailKey t).
Proof.
  split.
  - intros [pre [post [E Hpre]]].
    destruct post as [|z post _] using rev_ind.
    + apply app_inj_tail in E as [-> ->]. right. auto.
    + left. change (pre ++ c :: post ++ [z]) with (pre ++ (c :: post) ++ [z]) in E.
      rewrite app_assoc in E. apply app_inj_tail in E as [-> _].
      exists pre, post. auto.
  - intros [[pre [post [-> Hpre]]]|[-> Hall]].
    + exists pre, (post ++ [t]). rewrite <- app_assoc. auto.
    + exists l, []. auto.
Qed.

(** What the merge loops keep true, [seen] being the candidates gone
    through so far: the set holds just their keys, the merged list holds
    no key twice, and its members are the first writers. *)
Definition mergeInvariant (seen : list contact)
  (acc : list jsstring * list contact) : Prop :=
  (forall k, In k (fst acc) <-> In k (List.map emailKey seen))
  /\ NoDup (List.map emailKey (snd acc))
  /\ (forall c, In c (snd acc) <-> firstWriter seen c).

Lemma mergeInvariant_empty : mergeInvariant [] ([], []).
Proof.
  repeat split; simpl; try tauto; try constructor.
  intros [pre [post [E _]]]. destruct pre; discriminate.
Qed.

(** A candidate whose key is already in the set changes nothing. *)
Lemma mergeInvariant_skip (seen : list contact) (added : list jsstring)
  (merged : list contact) (t : contact) :
  In (emailKey t) added ->
  mergeInvariant seen (added, merged) ->
  mergeInvariant (seen ++ [t]) (added, merged).
Proof.
  intros Hin [Hkeys [Hnd Hmem]]. simpl in *. repeat split; simpl.
  - intros H. rewrite map_app, in_app_iff. left. apply Hkeys. exact H.
  - rewrite map_app, in_app_iff. simpl. intros [H|[<-|[]]]; [|exact Hin].
    apply Hkeys. exact H.
  - exact Hnd.
  - intros H. apply firstWriter_snoc. left. apply Hmem. exact H.
  - intros H. apply firstWriter_snoc in H as [H|[-> Hall]]; [apply Hmem; exact H|].
    exfalso. apply Hkeys in Hin. apply in_map_iff in Hin as [x [Ex Hx]].
    exact (Hall x Hx Ex).
Qed.

(** A candidate with a new key is added to the set and to the list. *)
Lemma mergeInvariant_add (seen : list contact) (added added' : list jsstring)
  (merged : list contact) (t : contact) :
  ~ In (emailKey t) added ->
  (forall k, In k added' <-> k = emailKey t \/ In k added) ->
  mergeInvariant seen (added, merged) ->
  mergeInvariant (seen ++ [t]) (added', merged ++ [t]).
Proof.
  intros Hnew Hadd [Hkeys [Hnd Hmem]]. simpl in *. repeat split; simpl.
  - intros H. rewrite map_app, in_app_iff. simpl.
    apply Hadd in H as [->|H]; [auto|]. left. apply Hkeys. exact H.
  - rewrite map_app, in_app_iff. simpl. intros [H|[<-|[]]]; apply Hadd; [|auto].
    right. apply Hkeys. exact H.
  - rewrite map_app. simpl. apply NoDup_snoc; [exact Hnd|].
    intros H. apply in_map_iff in H as [c [Ec Hc]].
    apply Hmem, firstWriter_In in Hc.
    apply Hnew, Hkeys. rewrite <- Ec. apply in_map. exact Hc.
  - rewrite in_app_iff. simpl. intros [H|[<-|[]]]; apply firstWriter_snoc.
    + left. apply Hmem. exact H.
    + right. split; [reflexivity|]. intros x Hx Ex.
      apply Hnew, Hkeys. rewrite <- Ex. apply in_map. exact Hx.
  - intros H. apply firstWriter_snoc in H as [H|[-> _]]; apply in_or_app.
    + left. apply Hmem. exact H.
    + right. left. reflexivity.
Qed.

Lemma setAdd_In (x k : jsstring) (set : list jsstring) :
  In k (Hunter.setAdd x set) <-> k = x \/ In k set.
Proof.
  unfold Hunter.setAdd. destruct (arrayIncludes set x) eqn:E.
  - apply arrayIncludes_In in E. split; [auto|]. intros [->|H]; auto.
  - rewrite in_app_iff. simpl. split.
    + intros [H|[<-|[]]]; auto.
    + intros [->|H]; auto.
Qed.

Lemma hunter_addEmails_invariant (src : jsstring) (es seen : list contact)
  (acc : list jsstring * list contact) :
  mergeInvariant seen acc ->
  mergeInvariant (seen ++ List.map (Hunter.withSource src) es)
                 (Hunter.addEmails lowerCase src es acc).
Proof.
  revert seen acc; induction es as [|email es IH]; intros seen [added merged] Hinv;
    simpl; [rewrite app_nil_r; exact Hinv|].
  change (seen ++ Hunter.withSource src email :: List.map (Hunter.withSource src) es)
    with (seen ++ [Hunter.withSource src email] ++ List.map (Hunter.withSource src) es).
  rewrite app_assoc.
  destruct (arrayIncludes added (lowerCase (c_email email))) eqn:E;
    cbn [negb]; apply IH.
  - apply mergeInvariant_skip; [|exact Hinv].
    apply arrayIncludes_In in E. exact E.
  - apply mergeInvariant_add with (added := added); [| |exact Hinv].
    + intros H. apply arrayIncludes_In in H. unfold emailKey in H. simpl in H.
      congruence.
    + intros k. apply setAdd_In.
Qed.

Definition hasEmail (email : contact) : bool := truthy (c_email email).

Lemma searchApi_addEmails_invariant (src : jsstring) (es seen : list contact)
  (acc : list jsstring * list contact) :
  mergeInvariant seen acc ->
  mergeInvariant (seen ++ List.map (SearchApi.withSource src) (filter hasEmail es))
                 (SearchApi.addEmails lowerCase src es acc).
Proof.
  revert seen acc; induction es as [|email es IH]; intros seen [added merged] Hinv;
    simpl; [rewrite app_nil_r; exact Hinv|].
  unfold hasEmail at 1. destruct (truthy (c_email email)); [|apply IH; exact Hinv].
  simpl List.map.
  change (seen ++ SearchApi.withSource src email
               :: List.map (SearchApi.withSource src) (filter hasEmail es))
    with (seen ++ [SearchApi.withSource src email]
               ++ List.map (SearchApi.withSource src) (filter hasEmail es)).
  rewrite app_assoc.
  destruct (arrayIncludes added (lowerCase (c_email email))) eqn:E;
    cbn [negb]; apply IH.
  - apply mergeInvariant_skip; [|exact Hinv].
    apply arrayIncludes_In in E. exact E.
  - apply mergeInvariant_add with (added := added); [| |exact Hinv].
    + intros H. apply arrayIncludes_In in H. unfold emailKey in H. simpl in H.
      congruence.
    + intros k. apply setAdd_In.
Qed.

Lemma fold_left_mergeInvariant {R : Type}
  (step : list jsstring * list contact -> R -> list jsstring * list contact)
  (candidatesOf : R -> list contact) (results : list R) (seen : list contact)
  (acc : list jsstring * list contact) :
  (forall seen acc r,
      mergeInvariant seen acc -> mergeInvariant (seen ++ candidatesOf r) (step acc r)) ->
  mergeInvariant seen acc ->
  mergeInvariant (seen ++ flat_map candidatesOf results) (fold_left step results acc).
Proof.
  intros Hstep. revert seen acc; induction results as [|r results IH];
    intros seen acc Hinv; simpl.
  - rewrite app_nil_r. exact Hinv.
  - rewrite app_assoc. apply IH. apply Hstep. exact Hinv.
Qed.

Lemma NoDup_keys_perm (l l' : list contact) :
  Permutation l l' -> NoDup (List.map emailKey l) -> NoDup (List.map emailKey l').
Proof.
  intros Hp H. eapply Permutation_NoDup; [|exact H].
  apply Permutation_map. exact Hp.
Qed.

End MergeKey.

(** The candidates in the order in which the merge step of the Hunter
    generation goes through them: results with more emails first, each
    contact tagged with the strategy it came from. *)
Definition hunterCandidates (allResults : list Hunter.strategyResult)
  : list contact :=
  flat_map
    (fun result =>
       List.map (Hunter.withSource (Hunter.s_source result))
                (emails (Hunter.s_data result)))
    (sort (fun a b => inject_Z (len (emails (Hunter.s_data b))
                                - len (emails (Hunter.s_data a))))
          allResults).

(** The same for the SearchAPI generation: domain searches first, then
    results with more emails; contacts without an address are passed
    over. *)
Definition searchApiCandidates (allResults : list lookupResult) : list contact :=
  flat_map
    (fun result =>
       List.map (SearchApi.withSource (orElse (source result) (js "unknown_source")))
                (filter hasEmail (emails result)))
    (sort SearchApi.compareResults allResults).

(** C2: whatever results the strategies brought, the contact list the
    merge step puts out holds no two entries whose emails are equal after
    lower-casing, and its entries are the first writers: of the
    candidates, in the order in which the merge goes through them, those
    before which no candidate carries the same lower-cased email.  This
    holds for the merge step of either generation (the later one also
    sets a flag on each contact it keeps), and whatever the engine's
    [toLowerCase] does to an address, since both the merge and the
    statement take it from the world. *)
Theorem merged_emails_unique (hw : Hunter.world) (sw : SearchApi.world)
  (hunterResults : list Hunter.strategyResult)
  (searchApiResults : list lookupResult) :
  (NoDup (List.map (emailKey (Hunter.lowerCase hw))
            (Hunter.mr_emails (Hunter.mergeResults hw hunterResults)))
   /\ forall c,
        In c (Hunter.mr_emails (Hunter.mergeResults hw hunterResults))
        <-> firstWriter (Hunter.lowerCase hw) (hunterCandidates hunterResults) c)
  /\
  (NoDup (List.map (emailKey (SearchApi.lowerCase sw))
            (SearchApi.mr_emails (SearchApi.mergeResults sw searchApiResults)))
   /\ forall c,
        In c (SearchApi.mr_emails (SearchApi.mergeResults sw searchApiResults))
        <-> exists c0,
              firstWriter (SearchApi.lowerCase sw)
                          (searchApiCandidates searchApiResults) c0
              /\ c = SearchApi.withFlag
                       (SearchApi.matchesFinalDomain sw
                          (SearchApi.mr_allDomains
                             (SearchApi.mergeResults sw searchApiResults)) c0)
                       c0).
Proof.
  split.
  - unfold Hunter.mergeResults, hunterCandidates. cbv zeta.
    match goal with
    | |- context [fold_left ?f ?l ([], [])] =>
        pose proof (@fold_left_mergeInvariant (Hunter.lowerCase hw) _ f
                      (fun result =>
                         List.map (Hunter.withSource (Hunter.s_source result))
                                  (emails (Hunter.s_data result)))
                      l [] ([], [])) as Hinv;
        destruct (fold_left f l ([], [])) as [added merged]
    end.
    simpl Hunter.mr_emails. simpl app in Hinv.
    destruct Hinv as [_ [Hnd Hmem]].
    { intros seen acc r Hacc. apply hunter_addEmails_invariant. exact Hacc. }
    { apply mergeInvariant_empty. }
    simpl in Hnd, Hmem. split.
    + eapply NoDup_keys_perm; [symmetry; apply sort_perm | exact Hnd].
    + intros c. rewrite <- Hmem. split; apply Permutation_in;
        [apply sort_perm | symmetry; apply sort_perm].
  - unfold SearchApi.mergeResults, searchApiCandidates. cbv zeta.
    match goal with
    | |- context [fold_left ?f ?l ([], [])] =>
        pose proof (@fold_left_mergeInvariant (SearchApi.lowerCase sw) _ f
                      (fun result =>
                         List.map (SearchApi.withSource
                                     (orElse (source result) (js "unknown_source")))
                                  (filter hasEmail (emails result)))
                      l [] ([], [])) as Hinv;
        destruct (fold_left f l ([], [])) as [added merged]
    end.
    simpl SearchApi.mr_emails. simpl SearchApi.mr_allDomains. simpl app in Hinv.
    destruct Hinv as [_ [Hnd Hmem]].
    { intros seen acc r Hacc. apply searchApi_addEmails_invariant. exact Hacc. }
    { apply mergeInvariant_empty. }
    simpl in Hnd, Hmem. split.
    + eapply NoDup_keys_perm; [symmetry; apply sort_perm|].
      rewrite map_map. simpl. exact Hnd.
    + intros c. split.
      * intros H. apply (Permutation_in _ (sort_perm _ _)) in H.
        apply in_map_iff in H as [c0 [E H]].
        exists c0. split; [apply Hmem; exact H | symmetry; exact E].
      * intros [c0 [H ->]].
        apply (Permutation_in _ (Permutation_sym (sort_perm _ _))).
        apply in_map_iff. exists c0. split; [reflexivity|].
        apply Hmem. exact H.
Qed.

(** ** The contact scorer *)

Module ScorerFacts.
Import Hunter.

(** Neither [position] nor [position_raw] holds a text. *)
Definition hasNoTitle (email : rawEmail) : Prop :=
  truthyOpt (e_position email) = false /\ truthyOpt (e_position_raw email) = false.

(** The reported confidence, when there is one, lies in [0,100]. *)
Definition confidenceInRange (email : rawEmail) : Prop :=
  match e_confidence email with
  | Some c => (0 <= c <= 100)%Q
  | None => True
  end.

Lemma titleOf_hasNoTitle (email : rawEmail) : hasNoTitle email -> titleOf email = [].
Proof.
  intros [Hp Hr]. unfold titleOf, orOpt, orElse.
  destruct (e_position email) as [p|]; simpl in Hp; [rewrite Hp|];
    destruct (e_position_raw email) as [r|]; simpl in Hr;
    try rewrite Hr; reflexivity.
Qed.

Lemma Qhalf (c : Q) : (c / 2 == c * (1 # 2))%Q.
Proof. unfold Qdiv. reflexivity. Qed.

(** Without a title the score is at least 225. *)
Lemma calculateEmailScore_untitled (lowerCase : jsstring -> jsstring)
  (email : rawEmail) :
  hasNoTitle email -> confidenceInRange email ->
  (225 <= calculateEmailScore lowerCase email)%Q.
Proof.
  intros Hno Hc. unfold calculateEmailScore. cbv zeta.
  rewrite (titleOf_hasNoTitle Hno). cbn [truthy andb].
  unfold confidenceInRange in Hc.
  destruct (negb (truthyOpt (e_value email))); [lra|].
  destruct (isGenericEmail lowerCase (e_value email));
    destruct (truthyOpt (e_first_name email) || truthyOpt (e_last_name email));
    destruct (e_confidence email) as [c|];
    destruct (e_type email) as [t|];
    try destruct (truthy t);
    try destruct (jseqb t (js "personal"));
    try destruct (jseqb t (js "generic"));
    rewrite ?Qhalf; lra.
Qed.

(** With an address and a title that is not blank, the score is the
    title's rank. *)
Lemma calculateEmailScore_titled (lowerCase : jsstring -> jsstring)
  (email : rawEmail) :
  truthyOpt (e_value email) = true ->
  truthy (trim (titleOf email)) = true ->
  calculateEmailScore lowerCase email = inject_Z (getTitlePriority (titleOf email)).
Proof.
  intros Hv Ht. unfold calculateEmailScore. cbv zeta.
  rewrite Hv, Ht. cbn [negb].
  destruct (titleOf email); [discriminate Ht | reflexivity].
Qed.

Lemma processEmails_array (lowerCase : jsstring -> jsstring)
  (es : list rawEmail) :
  processEmails lowerCase (EmailsArray es)
  = sort (fun a b => c_priority a - c_priority b)%Q
         (dropNulls (List.map (scoreEmail lowerCase) es)).
Proof. destruct es; reflexivity. Qed.

Lemma In_dropNulls {A : Type} (l : list (option A)) (x : A) :
  In x (dropNulls l) <-> In (Some x) l.
Proof.
  induction l as [|[y|] l IH]; simpl.
  - tauto.
  - rewrite IH. split; intros [H|H]; auto; left; congruence.
  - rewrite IH. split; [auto|]. intros [H|H]; [discriminate|exact H].
Qed.

Lemma scoreEmail_priority (lowerCase : jsstring -> jsstring)
  (email : rawEmail) (c : contact) :
  scoreEmail lowerCase email = Some c -> c_priority c = calculateEmailScore lowerCase email.
Proof.
  unfold scoreEmail. cbv zeta.
  destruct (negb (truthy _)); [discriminate|].
  intros H. injection H as <-. reflexivity.
Qed.

(** Two different members of a list stand in one order or the other. *)
Lemma in_two_split {A : Type} (l : list A) (a b : A) :
  In a l -> In b l -> a <> b ->
  (exists l1 l2 l3, l = l1 ++ a :: l2 ++ b :: l3)
  \/ (exists l1 l2 l3, l = l1 ++ b :: l2 ++ a :: l3).
Proof.
  intros Ha Hb Hab. apply in_split in Ha as [l1 [l2 ->]].
  apply in_app_or in Hb as [Hb|[Hb|Hb]]; [|congruence|].
  - right. apply in_split in Hb as [m1 [m2 ->]].
    exists m1, m2, l2. rewrite <- app_assoc. reflexivity.
  - left. apply in_split in Hb as [m1 [m2 ->]].
    exists l1, m1, m2. reflexivity.
Qed.

(** C10, as stated, fails twice over.  A titled contact that carries its
    address under [email] and not under [value] is scored 1000, after
    every untitled contact; and a title made of blanks counts as no
    title, so the contact is scored by the other signals. *)
Lemma calculateEmailScore_title_not_decisive :
  let titledNoValue :=
    mkRawEmail None (Some (js "ceo@acme.com")) None None (Some (js "CEO")) None
               None None None None None in
  let blankTitle :=
    mkRawEmail (Some (js "pat@acme.com")) None None None (Some (js " ")) None
               None None None None None in
  let untitled :=
    mkRawEmail (Some (js "sam@acme.com")) None (Some (js "Sam")) None None None
               (Some 100%Q) (Some (js "personal")) None None None in
  hasNoTitle untitled /\ confidenceInRange untitled
  /\ titleOf titledNoValue <> [] /\ titleOf blankTitle <> []
  /\ (calculateEmailScore toLowerCase untitled == 225)%Q
  /\ (calculateEmailScore toLowerCase titledNoValue == 1000)%Q
  /\ (calculateEmailScore toLowerCase blankTitle == 450)%Q
  /\ ~ (calculateEmailScore toLowerCase titledNoValue < calculateEmailScore toLowerCase untitled)%Q
  /\ ~ (calculateEmailScore toLowerCase blankTitle < calculateEmailScore toLowerCase untitled)%Q.
Proof.
  cbv zeta. repeat split; vm_compute; (reflexivity || discriminate || auto).
Qed.

(** C10, amended: take a contact record with an address under [value]
    and a title ([position] or [position_raw]) that is not blank, and a
    record with no title whose confidence, when given, lies in [0,100].
    Then [calculateEmailScore] scores the first at most
    TITLE_PRIORITY.length + 1 = 77, the second at least 225, so the first
    strictly lower; and when both are among the emails given to
    [processEmails] and have an address, the contact of the first stands
    before the contact of the second in the result. *)
Theorem calculateEmailScore_title_first (lowerCase : jsstring -> jsstring)
  (titled untitled : rawEmail) :
  truthyOpt (e_value titled) = true ->
  truthy (trim (titleOf titled)) = true ->
  hasNoTitle untitled ->
  confidenceInRange untitled ->
  (calculateEmailScore lowerCase titled <= inject_Z (len TITLE_PRIORITY + 1))%Q
  /\ (inject_Z (len TITLE_PRIORITY + 1) == 77)%Q
  /\ (225 <= calculateEmailScore lowerCase untitled)%Q
  /\ (calculateEmailScore lowerCase titled < calculateEmailScore lowerCase untitled)%Q
  /\ forall (es : list rawEmail) (a b : contact),
       In titled es -> In untitled es ->
       scoreEmail lowerCase titled = Some a -> scoreEmail lowerCase untitled = Some b ->
       (exists l1 l2 l3, processEmails lowerCase (EmailsArray es) = l1 ++ a :: l2 ++ b :: l3)
       /\ ~ (exists l1 l2 l3,
               processEmails lowerCase (EmailsArray es) = l1 ++ b :: l2 ++ a :: l3).
Proof.
  intros Hv Ht Hno Hc.
  pose proof (calculateEmailScore_titled lowerCase titled Hv Ht) as Et.
  pose proof (getTitlePriority_bounds (titleOf titled)) as Hb.
  pose proof (calculateEmailScore_untitled lowerCase Hno Hc) as Hu.
  assert (H77 : (inject_Z (len TITLE_PRIORITY + 1) == 77)%Q)
    by (rewrite TITLE_PRIORITY_length; reflexivity).
  assert (Hle : (calculateEmailScore lowerCase titled <= inject_Z (len TITLE_PRIORITY + 1))%Q).
  { rewrite Et. rewrite <- Zle_Qle. lia. }
  assert (Hlt : (calculateEmailScore lowerCase titled < calculateEmailScore lowerCase untitled)%Q).
  { rewrite H77 in Hle. lra. }
  repeat split; try assumption.
  - rename H into Hin_t, H0 into Hin_u, H1 into Ea, H2 into Eb.
    assert (Hina : In a (processEmails lowerCase (EmailsArray es))).
    { rewrite processEmails_array.
      eapply Permutation_in; [symmetry; apply sort_perm|].
      apply In_dropNulls. rewrite <- Ea. apply in_map. exact Hin_t. }
    assert (Hinb : In b (processEmails lowerCase (EmailsArray es))).
    { rewrite processEmails_array.
      eapply Permutation_in; [symmetry; apply sort_perm|].
      apply In_dropNulls. rewrite <- Eb. apply in_map. exact Hin_u. }
    assert (Hab : a <> b).
    { intros ->. apply scoreEmail_priority in Ea, Eb.
      rewrite Ea in Eb. rewrite Eb in Hlt. lra. }
    destruct (in_two_split _ Hina Hinb Hab) as [H|[l1 [l2 [l3 E]]]]; [exact H|].
    exfalso. rewrite processEmails_array in E.
    apply (@sort_order _ _ c_priority (fun x y => Qeq_refl _)) in E.
    apply scoreEmail_priority in Ea, Eb. rewrite Ea, Eb in E. lra.
  - rename H into Hin_t, H0 into Hin_u, H1 into Ea, H2 into Eb.
    intros [l1 [l2 [l3 E]]]. rewrite processEmails_array in E.
    apply (@sort_order _ _ c_priority (fun x y => Qeq_refl _)) in E.
    apply scoreEmail_priority in Ea, Eb. rewrite Ea, Eb in E. lra.
Qed.

Definition titledExample : rawEmail :=
  mkRawEmail (Some (js "ceo@acme.com")) None None None (Some (js "CEO")) None
             None None None None None.

Definition untitledExample : rawEmail :=
  mkRawEmail (Some (js "sam@acme.com")) None (Some (js "Sam")) None None None
             (Some 100%Q) (Some (js "personal")) None None None.

Lemma calculateEmailScore_title_first_witness :
  (calculateEmailScore toLowerCase titledExample < calculateEmailScore toLowerCase untitledExample)%Q
  /\ exists l1 l2 l3 a b,
       scoreEmail toLowerCase titledExample = Some a /\ scoreEmail toLowerCase untitledExample = Some b
       /\ processEmails toLowerCase (EmailsArray [untitledExample; titledExample])
          = l1 ++ a :: l2 ++ b :: l3.
Proof.
  assert (Hv : truthyOpt (e_value titledExample) = true) by reflexivity.
  assert (Ht : truthy (trim (titleOf titledExample)) = true) by reflexivity.
  assert (Hno : hasNoTitle untitledExample) by (split; reflexivity).
  assert (Hc : confidenceInRange untitledExample)
    by (split; vm_compute; discriminate).
  destruct (@calculateEmailScore_title_first toLowerCase titledExample
              untitledExample Hv Ht Hno Hc) as [_ [_ [_ [Hlt Horder]]]].
  split; [exact Hlt|].
  destruct (scoreEmail toLowerCase titledExample) as [a|] eqn:Ea; [|discriminate].
  destruct (scoreEmail toLowerCase untitledExample) as [b|] eqn:Eb; [|discriminate].
  destruct (Horder [untitledExample; titledExample] a b) as [[l1 [l2 [l3 E]]] _];
    simpl; auto.
  exists l1, l2, l3, a, b. auto.
Defined.

End ScorerFacts.

(** ** The text normaliser *)

(** The characters the pattern of [cleanSpecialCharacters] lets stand:
    [\w], that is the ASCII letters, the digits and the underscore; [\s];
    and the five punctuation marks. *)
Definition kept (c : char) : bool :=
  isWordChar c || isWhiteSpace c
  || N.eqb c (chr ".") || N.eqb c (chr ",") || N.eqb c (chr "&")
  || N.eqb c (chr "'") || N.eqb c (chr "-").

(** The characters the specification names: alphanumeric, whitespace and
    the five punctuation marks. *)
Definition isAlphanumeric (c : char) : bool :=
  (between 65 90 c || between 97 122 c || between 48 57 c)%N.

Definition named (c : char) : bool :=
  isAlphanumeric c || isWhiteSpace c
  || N.eqb c (chr ".") || N.eqb c (chr ",") || N.eqb c (chr "&")
  || N.eqb c (chr "'") || N.eqb c (chr "-").

Lemma matchAt_specialCharacter (i : nat) (pv : option char) (s : jsstring) :
  matchAt false specialCharacter (mkPos i pv s) =
  match s with
  | c :: t => if kept c then None else Some (mkPos (S i) (Some c) t, [])
  | [] => None
  end.
Proof.
  destruct s as [|c t]; [reflexivity|].
  unfold matchAt, specialCharacter. cbn [m step1 rest idx].
  replace (xorb true (inSet false _ c)) with (negb (kept c)).
  - destruct (kept c); reflexivity.
  - unfold inSet, kept. cbn [existsb inItem andb].
    rewrite !orb_false_r.
    rewrite (N.eqb_sym (chr ".")), (N.eqb_sym (chr ",")), (N.eqb_sym (chr "&")),
      (N.eqb_sym (chr "'")), (N.eqb_sym (chr "-")).
    rewrite !orb_assoc. reflexivity.
Qed.

(** The leftmost special character, if any: everything before it is
    kept, and the match is that one character. *)
Lemma searchFrom_specialCharacter (s : jsstring) (i : nat) (pv : option char) :
  match searchFrom false specialCharacter i pv s with
  | None => filter kept s = s
  | Some mr =>
      exists pre c t,
        s = pre ++ c :: t /\ filter kept pre = pre /\ kept c = false
        /\ m_index mr = (i + List.length pre)%nat
        /\ m_end mr = mkPos (S (i + List.length pre)) (Some c) t
  end.
Proof.
  revert i pv; induction s as [|c t IH]; intros i pv.
  - reflexivity.
  - cbn [searchFrom]. rewrite matchAt_specialCharacter.
    destruct (kept c) eqn:Ec.
    + specialize (IH (S i) (Some c)).
      destruct (searchFrom false specialCharacter (S i) (Some c) t) as [mr|].
      * destruct IH as [pre [c' [t' [E [Hpre [Hc [Hi He]]]]]]].
        exists (c :: pre), c', t'. simpl. rewrite Ec, Hpre, E.
        repeat split; try assumption.
        -- rewrite Hi. lia.
        -- rewrite He. f_equal. lia.
      * simpl. rewrite Ec, IH. reflexivity.
    + exists [], c, t. simpl. rewrite Nat.add_0_r. auto.
Qed.

Lemma replaceAllFrom_specialCharacter (fuel : nat) (s : jsstring) (i : nat)
  (pv : option char) :
  (List.length s < fuel)%nat ->
  replaceAllFrom fuel false specialCharacter (fun _ => []) (mkPos i pv s)
  = filter kept s.
Proof.
  revert s i pv; induction fuel as [|fuel IH]; intros s i pv Hlen; [lia|].
  cbn [replaceAllFrom rest idx prev].
  pose proof (searchFrom_specialCharacter s i pv) as Hs.
  destruct (searchFrom false specialCharacter i pv s) as [mr|];
    [|symmetry; exact Hs].
  destruct Hs as [pre [c [t [E [Hpre [Hc [Hi He]]]]]]].
  rewrite Hi, He. cbn [idx rest].
  replace (S (i + List.length pre) =? i + List.length pre)%nat with false
    by (symmetry; apply Nat.eqb_neq; lia).
  replace (i + List.length pre - i)%nat with (List.length pre) by lia.
  subst s. rewrite firstn_app, firstn_all, Nat.sub_diag. simpl firstn.
  rewrite app_nil_r, filter_app. simpl filter. rewrite Hc, Hpre.
  simpl. f_equal. apply IH.
  rewrite length_app in Hlen. simpl in Hlen. lia.
Qed.

(** What the normaliser computes: the kept characters, in their order. *)
Lemma cleanSpecialCharacters_filter (t : jsstring) :
  cleanSpecialCharacters (Some t) = filter kept t.
Proof.
  unfold cleanSpecialCharacters. destruct t as [|c t]; [reflexivity|].
  cbn [truthy]. unfold replaceAll. apply replaceAllFrom_specialCharacter. lia.
Qed.

(** C8, at the failing input: the normaliser is total, answers the empty
    string for a missing or empty text, and keeps exactly the characters
    of [\w], [\s] and the five punctuation marks; [\w] holds the
    underscore, which is none of the characters the claim names, so "a_b"
    comes back unchanged. *)
Theorem cleanSpecialCharacters_keeps_underscore :
  cleanSpecialCharacters None = []
  /\ cleanSpecialCharacters (Some []) = []
  /\ (forall t, cleanSpecialCharacters (Some t) = filter kept t)
  /\ (forall c, named c = true -> kept c = true)
  /\ named (chr "_") = false
  /\ cleanSpecialCharacters (Some (js "a_b")) = js "a_b".
Proof.
  repeat split; try reflexivity.
  - apply cleanSpecialCharacters_filter.
  - intros c. unfold named, kept, isAlphanumeric, isWordChar.
    destruct (between 65%N 90%N c), (between 97%N 122%N c),
      (between 48%N 57%N c), (isWhiteSpace c), (N.eqb c (chr ".")), (N.eqb c (chr ",")),
      (N.eqb c (chr "&")), (N.eqb c (chr "'")), (N.eqb c (chr "-"));
      cbn [orb]; intros H; try reflexivity; try discriminate H;
      rewrite ?orb_true_r; reflexivity.
Qed.

(* ================================================================== *)
(** * Further properties of the code around the engine *)

(** ** Cell text and job links *)

Lemma len_firstn_le {A : Type} (n : nat) (l : list A) :
  (n <= List.length l)%nat -> len (firstn n l) = Z.of_nat n.
Proof. intros H. unfold len. rewrite firstn_length_le; [reflexivity|exact H]. Qed.

Lemma len_app {A : Type} (a b : list A) : len (a ++ b) = len a + len b.
Proof. unfold len. rewrite length_app. lia. Qed.

(** X1: with room for the ellipsis (a limit of 3 or more), the text
    [truncateText] answers never exceeds the limit; a text that fits
    comes back as it is, a longer one is cut to limit - 3 characters
    followed by "...". *)
Theorem truncateText_fits (text : jsstring) (maxLength : Z) :
  3 <= maxLength ->
  len (truncateText text maxLength) <= maxLength
  /\ (len text <= maxLength -> truncateText text maxLength = text)
  /\ (maxLength < len text ->
      truncateText text maxLength
      = firstn (Z.to_nat (maxLength - 3)) text ++ js "...").
Proof.
  intros Hmax. unfold truncateText.
  destruct text as [|c t]; [simpl; repeat split; try reflexivity; try lia;
                            unfold len; simpl; lia|].
  change (negb (truthy (c :: t))) with false. cbv iota.
  set (text := c :: t).
  destruct (len text >? maxLength) eqn:E.
  - apply Z.gtb_lt in E.
    assert (Hs : substring text 0 (maxLength - 3)
                 = firstn (Z.to_nat (maxLength - 3)) text).
    { unfold substring, clamp.
      rewrite Z.max_l by lia. rewrite Z.min_l by (pose proof (len_nonneg text); lia).
      rewrite (Z.max_l (maxLength - 3)) by lia.
      rewrite (Z.min_l (maxLength - 3)) by lia.
      change (Z.to_nat 0) with 0%nat.
      rewrite Nat.min_0_l, Nat.max_0_l, Nat.sub_0_r. reflexivity. }
    rewrite Hs. split; [|split; [lia|reflexivity]].
    rewrite len_app, len_firstn_le.
    + change (len (js "...")) with 3. lia.
    + unfold len in E. lia.
  - rewrite Z.gtb_ltb in E. apply Z.ltb_ge in E.
    split; [lia|]. split; [reflexivity|lia].
Qed.

Lemma truncateText_fits_witness :
  len (truncateText (js "abcdefghij") 5) <= 5
  /\ truncateText (js "abcdefghij") 5 = js "ab...".
Proof.
  destruct (@truncateText_fits (js "abcdefghij") 5) as [Hlen [_ Hcut]].
  - lia.
  - split; [exact Hlen|]. rewrite Hcut; [reflexivity|]. vm_compute. reflexivity.
Defined.

(** X2: [ensureAbsoluteUrl] answers [null] just for a missing or empty
    link; otherwise the answer starts with "http", ends with the link it
    was given, and is left unchanged when passed through again. *)
Theorem ensureAbsoluteUrl_absolute (url : option jsstring) :
  match ensureAbsoluteUrl url with
  | None => url = None \/ url = Some []
  | Some r =>
      startsWith r (js "http") = true
      /\ ensureAbsoluteUrl (Some r) = Some r
      /\ exists u p, url = Some u /\ r = p ++ u
  end.
Proof.
  destruct url as [u|]; [|left; reflexivity].
  destruct u as [|c u]; [right; reflexivity|].
  assert (Hs : forall x, startsWith (BASE_URL ++ x) (js "http") = true)
    by (intros x; vm_compute; reflexivity).
  unfold ensureAbsoluteUrl.
  change (negb (truthy (c :: u))) with false. cbv iota.
  set (link := c :: u).
  destruct (startsWith link (js "http")) eqn:E.
  - split; [exact E|]. split; [|exists link, []; auto].
    subst link. change (negb (truthy (c :: u))) with false. cbv iota.
    rewrite E. reflexivity.
  - split; [apply Hs|]. split.
    + rewrite Hs.
      change (negb (truthy (BASE_URL
                            ++ (if startsWith link (js "/") then [] else js "/")
                            ++ link))) with false.
      reflexivity.
    + exists link, (BASE_URL ++ (if startsWith link (js "/") then [] else js "/")).
      rewrite <- app_assoc. auto.
Qed.

(** ** What the parser answers, whatever the text *)

Lemma existsb_false_In (l : list jsstring) (x : jsstring) (f : jsstring -> jsstring) :
  existsb (fun y => jseqb x (f y)) l = false -> ~ In x (List.map f l).
Proof.
  intros H Hin. apply in_map_iff in Hin as [y [E Hy]].
  assert (existsb (fun y => jseqb x (f y)) l = true).
  { apply existsb_exists. exists y. split; [exact Hy|]. apply jseqb_eq. auto. }
  congruence.
Qed.

(** The last step either rejects what is left or answers it as it is;
    in the second case it has three characters or more and is, in lower
    case, neither a generic industry term nor a place name. *)
Lemma classify_cases (namePart : jsstring) :
  classify namePart = unknownCompany
  \/ (classify namePart = mkParsed namePart []
      /\ 3 <= len namePart
      /\ ~ In (toLowerCase namePart) (List.map toLowerCase genericTerms)
      /\ ~ In (toLowerCase namePart) (List.map toLowerCase commonLocations)).
Proof.
  unfold classify. cbv zeta.
  destruct (existsb _ genericTerms) eqn:Eg; [left; reflexivity|].
  destruct (_ && arrayIncludes standaloneIndustryTerms _); [left; reflexivity|].
  destruct (existsb (fun loc => jseqb _ _) commonLocations) eqn:El;
    [left; reflexivity|].
  destruct (_ && existsb _ commonLocations); [left; reflexivity|].
  destruct (len namePart <? 3) eqn:E3; [left; reflexivity|].
  cbn [orb].
  destruct (_ && forallb _ _); [left; reflexivity|].
  right. apply Z.ltb_ge in E3.
  assert (Hn : orElse namePart (js "Unknown") = namePart).
  { destruct namePart; [unfold len in E3; simpl in E3; lia | reflexivity]. }
  rewrite Hn. repeat split; try assumption.
  - apply existsb_false_In. exact Eg.
  - apply existsb_false_In. exact El.
Qed.

(** The four ways out of the parser. *)
Lemma parse_cases (EXCLUDED_COMPANIES : list jsstring) (rawName : jsstring) :
  parseCompanyAndLocation EXCLUDED_COMPANIES rawName = unknownCompany
  \/ (exists excludedName,
         In excludedName PARTIAL_EXCLUSIONS
         /\ parseCompanyAndLocation EXCLUDED_COMPANIES rawName
            = mkParsed (js "Excluded: " ++ excludedName) [])
  \/ parseCompanyAndLocation EXCLUDED_COMPANIES rawName = mkParsed (js "Excluded") []
  \/ exists namePart,
       parseCompanyAndLocation EXCLUDED_COMPANIES rawName = classify namePart.
Proof.
  unfold parseCompanyAndLocation. cbv zeta.
  destruct (negb (truthy rawName) || jseqb rawName (js "Unknown"));
    [left; reflexivity|].
  destruct (findFirst _ PARTIAL_EXCLUSIONS) as [excludedName|] eqn:Ep.
  { right; left. exists excludedName. split; [|reflexivity].
    apply findFirst_Some in Ep as [x [Hin Hx]].
    destruct (includes _ _); [|discriminate]. injection Hx as <-. exact Hin. }
  destruct (existsb _ EXCLUDED_COMPANIES); [right; right; left; reflexivity|].
  destruct (_ && includes rawName bullet); [left; reflexivity|].
  right; right; right.
  repeat match goal with
         | |- context [let '(_, _) := ?p in _] =>
             match p with
             | if ?b then _ else _ => destruct b
             | match ?o with Some _ => _ | None => _ end => destruct o
             end
         end;
    eexists; reflexivity.
Qed.

(** X3: whatever the raw text and whatever the exclusion list, the name
    the parser answers has at least three characters (so it is never
    empty), and in lower case it is neither one of the generic industry
    terms nor one of the recognised place names. *)
Theorem parse_name_definite (EXCLUDED_COMPANIES : list jsstring)
  (rawName : jsstring) :
  let parsedName := name (parseCompanyAndLocation EXCLUDED_COMPANIES rawName) in
  3 <= len parsedName
  /\ ~ In (toLowerCase parsedName) (List.map toLowerCase genericTerms)
  /\ ~ In (toLowerCase parsedName) (List.map toLowerCase commonLocations).
Proof.
  cbv zeta.
  assert (Hfixed : forall n,
             In n [js "Unknown"; js "Excluded"; js "Excluded: whole foods"] ->
             3 <= len n
             /\ ~ In (toLowerCase n) (List.map toLowerCase genericTerms)
             /\ ~ In (toLowerCase n) (List.map toLowerCase commonLocations)).
  { intros n Hn.
    assert (Hb : forallb
                   (fun n => (3 <=? len n)
                             && negb (arrayIncludes (List.map toLowerCase genericTerms)
                                        (toLowerCase n))
                             && negb (arrayIncludes (List.map toLowerCase commonLocations)
                                        (toLowerCase n)))
                   [js "Unknown"; js "Excluded"; js "Excluded: whole foods"] = true)
      by (vm_compute; reflexivity).
    rewrite forallb_forall in Hb. specialize (Hb n Hn).
    apply andb_prop in Hb as [Hb Hl]. apply andb_prop in Hb as [H3 Hg].
    apply Z.leb_le in H3. apply negb_true_iff in Hg, Hl.
    repeat split; [exact H3| |]; intros H; apply arrayIncludes_In in H; congruence. }
  destruct (parse_cases EXCLUDED_COMPANIES rawName)
    as [E|[[e [He E]]|[E|[namePart E]]]]; rewrite E.
  - apply Hfixed. simpl. auto.
  - apply Hfixed. vm_compute in He. destruct He as [<-|[]]. simpl. auto.
  - apply Hfixed. simpl. auto.
  - destruct (classify_cases namePart) as [Ec|[Ec [H3 [Hg Hl]]]]; rewrite Ec.
    + apply Hfixed. simpl. auto.
    + simpl. auto.
Qed.

(** ** Exclusion whatever the surroundings and the capitals *)

Lemma startsWith_app_self (e b : jsstring) : startsWith (e ++ b) e = true.
Proof.
  induction e as [|c e IH]; simpl; [destruct b; reflexivity|].
  rewrite N.eqb_refl. exact IH.
Qed.

Lemma findFrom_hit (e s : jsstring) (i : nat) :
  startsWith s e = true -> findFrom e s i = Some i.
Proof. intros H. destruct s; simpl; simpl in H; rewrite H; reflexivity. Qed.

Lemma findFrom_middle (e a b : jsstring) (i : nat) :
  exists j, findFrom e (a ++ e ++ b) i = Some j.
Proof.
  revert i; induction a as [|c a IH]; intros i.
  - exists i. apply findFrom_hit. apply (startsWith_app_self e b).
  - change ((c :: a) ++ e ++ b) with (c :: (a ++ e ++ b)). cbn [findFrom].
    destruct (startsWith (c :: a ++ e ++ b) e); [eexists; reflexivity|].
    apply IH.
Qed.

(** A text includes whatever stands in its middle. *)
Lemma includes_middle (e a b : jsstring) : includes (a ++ e ++ b) e = true.
Proof.
  unfold includes, indexOf, indexOfFrom, clamp.
  rewrite Z.max_l by lia. rewrite Z.min_l by apply len_nonneg.
  change (Z.to_nat 0) with 0%nat. cbn [skipn].
  destruct (findFrom_middle e a b 0) as [j ->]. apply Z.leb_le. lia.
Qed.

Lemma toLowerCase_app (a b : jsstring) :
  toLowerCase (a ++ b) = toLowerCase a ++ toLowerCase b.
Proof. apply map_app. Qed.

(** A character whose lower-case form the normaliser keeps is kept
    itself. *)
Lemma kept_of_lowerChar (c : char) : kept (lowerChar c) = true -> kept c = true.
Proof.
  unfold lowerChar.
  destruct (between 65 90 c || between 192 222 c && negb (N.eqb c 215))%N
    eqn:E; [|auto].
  intros H. apply orb_prop in E as [E|E].
  - unfold kept, isWordChar. rewrite E. reflexivity.
  - exfalso. apply andb_prop in E as [E _].
    unfold between in E. apply andb_prop in E as [E1 E2].
    apply N.leb_le in E1, E2.
    assert (Hk : kept (c + 32)%N = false); [|congruence].
    unfold kept, isWordChar, isWhiteSpace, between.
    change (chr ".") with 46%N. change (chr ",") with 44%N.
    change (chr "&") with 38%N. change (chr "'") with 39%N.
    change (chr "-") with 45%N.
    repeat match goal with
           | |- context [N.leb ?a ?b] =>
               destruct (N.leb_spec a b); try lia
           | |- context [N.eqb ?a ?b] =>
               destruct (N.eqb_spec a b); try lia
           end; reflexivity.
Qed.

Lemma filter_kept_of_lower (x : jsstring) :
  forallb kept (toLowerCase x) = true -> filter kept x = x.
Proof.
  induction x as [|c x IH]; simpl; [reflexivity|].
  intros H. apply andb_prop in H as [Hc Hx].
  rewrite (kept_of_lowerChar c Hc), (IH Hx). reflexivity.
Qed.

(** A raw text around any spelling of an excluded name is excluded. *)
Lemma parse_excludes_embedded (EXCLUDED_COMPANIES : list jsstring)
  (e x pre post : jsstring) :
  In e EXCLUDED_COMPANIES ->
  e <> [] ->
  forallb kept e = true ->
  includes (js "unknown") e = false ->
  toLowerCase x = e ->
  startsWith (name (parseCompanyAndLocation EXCLUDED_COMPANIES (pre ++ x ++ post)))
             (js "Excluded") = true.
Proof.
  intros Hin Hne Hkept Hunk Hx.
  assert (Hinc : includes (toLowerCase (cleanSpecialCharacters (Some (pre ++ x ++ post))))
                          e = true).
  { rewrite cleanSpecialCharacters_filter, !filter_app.
    rewrite (filter_kept_of_lower x) by (rewrite Hx; exact Hkept).
    rewrite !toLowerCase_app, Hx. apply includes_middle. }
  unfold parseCompanyAndLocation. cbv zeta.
  destruct (negb (truthy (pre ++ x ++ post))
            || jseqb (pre ++ x ++ post) (js "Unknown")) eqn:Eg.
  { exfalso. apply orb_prop in Eg as [Eg|Eg].
    - destruct x as [|c x]; [simpl in Hx; congruence|].
      destruct pre; discriminate Eg.
    - apply jseqb_eq in Eg. rewrite Eg in Hinc.
      change (toLowerCase (cleanSpecialCharacters (Some (js "Unknown"))))
        with (js "unknown") in Hinc. congruence. }
  destruct (findFirst _ PARTIAL_EXCLUSIONS); [reflexivity|].
  replace (existsb _ EXCLUDED_COMPANIES) with true; [reflexivity|].
  symmetry. apply existsb_exists. exists e. auto.
Qed.

(** X4: a raw company text that holds an entry of the exclusion list,
    in any capitals and with any text before and after it, is parsed to
    an Excluded result ('Excluded' or 'Excluded: <term>'); this holds for
    the list of either generation. *)
Theorem parse_excludes_listed_names (e x pre post : jsstring) :
  toLowerCase x = e ->
  (In e Hunter.EXCLUDED_COMPANIES ->
   startsWith (name (Hunter.parseCompanyAndLocation (pre ++ x ++ post)))
              (js "Excluded") = true)
  /\ (In e SearchApi.EXCLUDED_COMPANIES ->
      startsWith (name (SearchApi.parseCompanyAndLocation (pre ++ x ++ post)))
                 (js "Excluded") = true).
Proof.
  intros Hx.
  assert (Hok : forall l,
             forallb (fun e => truthy e && forallb kept e
                               && negb (includes (js "unknown") e)) l = true ->
             In e l ->
             startsWith (name (parseCompanyAndLocation l (pre ++ x ++ post)))
                        (js "Excluded") = true).
  { intros l Hall Hin. rewrite forallb_forall in Hall. specialize (Hall e Hin).
    apply andb_prop in Hall as [Hall Hu]. apply andb_prop in Hall as [Ht Hk].
    apply negb_true_iff in Hu.
    apply parse_excludes_embedded with (e := e); auto.
    intros ->. discriminate Ht. }
  split; apply Hok; vm_compute; reflexivity.
Qed.

Lemma parse_excludes_listed_names_witness :
  startsWith
    (name (Hunter.parseCompanyAndLocation
             (js "The " ++ js "COMPASS" ++ js " Group, Boston")))
    (js "Excluded") = true.
Proof.
  destruct (@parse_excludes_listed_names (js "compass") (js "COMPASS")
              (js "The ") (js " Group, Boston")) as [H _].
  - reflexivity.
  - apply H. apply arrayIncludes_In. vm_compute. reflexivity.
Defined.

(** ** More on the title priority scorer *)

(** X5: the rank depends on the title only through its lower-case form:
    two titles that differ in capitals alone get the same rank. *)
Theorem getTitlePriority_ignores_case (title1 title2 : jsstring) :
  toLowerCase title1 = toLowerCase title2 ->
  getTitlePriority title1 = getTitlePriority title2.
Proof.
  intros H. unfold getTitlePriority. cbv zeta.
  rewrite <- (truthy_toLowerCase title1), <- (truthy_toLowerCase title2), H.
  reflexivity.
Qed.

Lemma getTitlePriority_ignores_case_witness :
  getTitlePriority (js "Director of HR") = getTitlePriority (js "DIRECTOR OF hr").
Proof.
  apply (@getTitlePriority_ignores_case (js "Director of HR") (js "DIRECTOR OF hr")).
  reflexivity.
Defined.

(** X6: a rank is either an index into TITLE_PRIORITY (0 to 75) or the
    sentinel TITLE_PRIORITY.length + 1 = 77 for a title that matches
    nothing; 76 is never answered, and the empty title gets the
    sentinel. *)
Theorem getTitlePriority_index_or_sentinel (title : jsstring) :
  (0 <= getTitlePriority title < 76 \/ getTitlePriority title = 77)
  /\ getTitlePriority [] = 77.
Proof.
  split; [|vm_compute; reflexivity].
  unfold getTitlePriority. cbv zeta.
  pose proof TITLE_PRIORITY_length as Hl.
  destruct (negb (truthy title)); [right; lia|].
  pose proof (arrayIndexOf_range TITLE_PRIORITY (toLowerCase title)) as Hx.
  destruct (arrayIndexOf TITLE_PRIORITY (toLowerCase title) =? -1) eqn:Ex;
    cbn [negb].
  2:{ apply Z.eqb_neq in Ex. left. lia. }
  destruct (findFirst _ roleTypes) as [r|] eqn:Er.
  - apply findFirst_Some in Er as [role [_ Er]].
    apply findFirst_Some in Er as [level [_ Er]].
    apply roleLevelMatch_range in Er. left. lia.
  - match goal with
    | |- context [match ?v with Some _ => _ | None => _ end] =>
        destruct v as [r|] eqn:Ev
    end.
    + destruct (_ && _); [|discriminate].
      apply vpScan_range in Ev. left. lia.
    + destruct (substringScan _ _ _) as [r|] eqn:Es; [|right; lia].
      apply substringScan_range in Es. left. lia.
Qed.

(** The first turn of the loop over role and level, for "hr" and
    "manager": the eight word orders, two of which coincide with others. *)
Lemma roleLevelMatch_hr_manager (lowerTitle : jsstring) :
  roleLevelMatch lowerTitle (mkKeyAlt (js "hr") (js "human resources"))
                 (mkKeyAlt (js "manager") (js "manager of"))
  = if includes lowerTitle (js "hr manager")
       || includes lowerTitle (js "manager of hr")
       || includes lowerTitle (js "manager, hr")
       || includes lowerTitle (js "human resources manager")
       || includes lowerTitle (js "manager of human resources")
       || includes lowerTitle (js "manager, human resources")
       || includes lowerTitle (js "manager of hr")
       || includes lowerTitle (js "manager of human resources")
    then Some 20 else None.
Proof. vm_compute. reflexivity. Qed.

(** X7: a title that is not itself an entry of the list and that names
    an HR manager in any of the word orders the scorer knows ("HR
    Manager", "Manager of HR", "Manager, HR", and the same with "Human
    Resources") gets rank 20, the rank of 'hr manager', whatever else it
    holds. *)
Theorem getTitlePriority_hr_manager_word_order (title : jsstring) :
  arrayIndexOf TITLE_PRIORITY (toLowerCase title) = -1 ->
  includes (toLowerCase title) (js "hr manager")
  || includes (toLowerCase title) (js "manager of hr")
  || includes (toLowerCase title) (js "manager, hr")
  || includes (toLowerCase title) (js "human resources manager")
  || includes (toLowerCase title) (js "manager of human resources")
  || includes (toLowerCase title) (js "manager, human resources") = true ->
  getTitlePriority title = 20.
Proof.
  intros Hexact Hinc.
  assert (Ht : truthy title = true).
  { destruct title; [vm_compute in Hinc; discriminate | reflexivity]. }
  unfold getTitlePriority. cbv zeta. rewrite Ht, Hexact. cbn [negb Z.eqb].
  unfold roleTypes, levelTypes. cbn [findFirst].
  rewrite roleLevelMatch_hr_manager.
  set (a := includes (toLowerCase title) (js "hr manager")) in *.
  set (b := includes (toLowerCase title) (js "manager of hr")) in *.
  set (c := includes (toLowerCase title) (js "manager, hr")) in *.
  set (d := includes (toLowerCase title) (js "human resources manager")) in *.
  set (e := includes (toLowerCase title) (js "manager of human resources")) in *.
  set (f := includes (toLowerCase title) (js "manager, human resources")) in *.
  replace (a || b || c || d || e || f || b || e) with true; [reflexivity|].
  destruct a, b, c, d, e, f; try reflexivity; discriminate Hinc.
Qed.

Lemma getTitlePriority_hr_manager_word_order_witness :
  getTitlePriority (js "Senior Manager of HR, East Coast") = 20.
Proof.
  apply (@getTitlePriority_hr_manager_word_order
           (js "Senior Manager of HR, East Coast"));
    vm_compute; reflexivity.
Defined.

(** ** More on the contact scorer *)

Module ScorerMore.
Import Hunter ScorerFacts.

(** The emails [processEmails] works on, for each shape of its argument. *)
Definition emailsOf (data : emailsData) : list rawEmail :=
  match data with
  | EmailsArray emails | EmailsResponse (Some emails) => emails
  | _ => []
  end.

Lemma processEmails_emailsOf (lowerCase : jsstring -> jsstring)
  (data : emailsData) :
  processEmails lowerCase data
  = sort (fun a b => c_priority a - c_priority b)%Q
         (dropNulls (List.map (scoreEmail lowerCase) (emailsOf data))).
Proof.
  destruct data as [|es|[es|]]; try reflexivity; destruct es; reflexivity.
Qed.

Lemma scoreEmail_has_address (lowerCase : jsstring -> jsstring)
  (email : rawEmail) (c : contact) :
  scoreEmail lowerCase email = Some c -> truthy (c_email c) = true.
Proof.
  unfold scoreEmail. cbv zeta.
  destruct (truthy (orOpt (e_value email) (orOpt (e_email email) []))) eqn:E;
    cbn [negb]; [|discriminate].
  intros H. injection H as <-. exact E.
Qed.

Lemma length_dropNulls {A : Type} (l : list (option A)) :
  List.length (dropNulls l)
  = List.length (filter (fun o => match o with Some _ => true | None => false end) l).
Proof.
  induction l as [|[x|] l IH]; simpl; [reflexivity| |exact IH].
  rewrite IH. reflexivity.
Qed.

Lemma processEmails_perm (lowerCase : jsstring -> jsstring)
  (data : emailsData) :
  Permutation (processEmails lowerCase data)
              (dropNulls (List.map (scoreEmail lowerCase) (emailsOf data))).
Proof. rewrite processEmails_emailsOf. apply sort_perm. Qed.

Lemma processEmails_sorted (lowerCase : jsstring -> jsstring)
  (data : emailsData) :
  StronglySorted (fun a b => (c_priority a <= c_priority b)%Q)
                 (processEmails lowerCase data).
Proof.
  rewrite processEmails_emailsOf.
  apply (@sort_sorted _ (fun a b : contact => c_priority a - c_priority b)%Q
           c_priority).
  intros a b. reflexivity.
Qed.

Lemma processEmails_has_address (lowerCase : jsstring -> jsstring)
  (data : emailsData) (c : contact) :
  In c (processEmails lowerCase data) -> truthy (c_email c) = true.
Proof.
  intros Hc. apply (Permutation_in _ (processEmails_perm lowerCase data)) in Hc.
  apply In_dropNulls, in_map_iff in Hc as [email [E _]].
  exact (scoreEmail_has_address lowerCase email E).
Qed.

(** X8: whatever it is given, [processEmails] answers the scored
    contacts of the emails that have an address ([value] or [email]), all
    of them and no others, in ascending order of score; every contact it
    answers has a non-empty address. *)
Theorem processEmails_sorted_complete (lowerCase : jsstring -> jsstring)
  (data : emailsData) :
  Permutation (processEmails lowerCase data)
              (dropNulls (List.map (scoreEmail lowerCase) (emailsOf data)))
  /\ StronglySorted (fun a b => (c_priority a <= c_priority b)%Q)
                    (processEmails lowerCase data)
  /\ (forall c, In c (processEmails lowerCase data) -> truthy (c_email c) = true)
  /\ (List.length (processEmails lowerCase data)
      <= List.length (emailsOf data))%nat.
Proof.
  split; [apply processEmails_perm|].
  split; [apply processEmails_sorted|].
  split; [apply processEmails_has_address|].
  rewrite (Permutation_length (processEmails_perm lowerCase data)),
    length_dropNulls.
  etransitivity; [apply filter_length_le|]. rewrite length_map. lia.
Qed.

(** The score of a contact without usable title, as a sum of its four
    signals. *)
Lemma calculateEmailScore_signals (lowerCase : jsstring -> jsstring)
  (email : rawEmail) :
  truthyOpt (e_value email) = true ->
  truthy (trim (titleOf email)) = false ->
  confidenceInRange email ->
  (if isGenericEmail lowerCase (e_value email)
   then 525 <= calculateEmailScore lowerCase email
   else calculateEmailScore lowerCase email <= 475)%Q.
Proof.
  intros Hv Ht Hc. unfold calculateEmailScore. cbv zeta.
  rewrite Hv, Ht, andb_false_r. cbn [negb].
  unfold confidenceInRange in Hc.
  destruct (isGenericEmail lowerCase (e_value email));
    destruct (truthyOpt (e_first_name email) || truthyOpt (e_last_name email));
    destruct (e_confidence email) as [c|];
    destruct (e_type email) as [t|];
    try destruct (truthy t);
    try destruct (jseqb t (js "personal"));
    try destruct (jseqb t (js "generic"));
    rewrite ?Qhalf; lra.
Qed.

(** X9: among contacts with an address and without a usable title (none,
    or blanks only), whose confidence, when given, lies in [0,100], one
    whose address is not a generic role address (info@, hr@, careers@,
    ...) always scores strictly better than one whose address is:
    at most 475 against at least 525, whatever the names, confidences and
    types. *)
Theorem personal_address_beats_generic (lowerCase : jsstring -> jsstring)
  (personal generic : rawEmail) :
  truthyOpt (e_value personal) = true ->
  truthyOpt (e_value generic) = true ->
  truthy (trim (titleOf personal)) = false ->
  truthy (trim (titleOf generic)) = false ->
  confidenceInRange personal ->
  confidenceInRange generic ->
  isGenericEmail lowerCase (e_value personal) = false ->
  isGenericEmail lowerCase (e_value generic) = true ->
  (calculateEmailScore lowerCase personal <= 475)%Q
  /\ (525 <= calculateEmailScore lowerCase generic)%Q
  /\ (calculateEmailScore lowerCase personal
      < calculateEmailScore lowerCase generic)%Q.
Proof.
  intros Hvp Hvg Htp Htg Hcp Hcg Hp Hg.
  pose proof (calculateEmailScore_signals lowerCase personal Hvp Htp Hcp) as H1.
  pose proof (calculateEmailScore_signals lowerCase generic Hvg Htg Hcg) as H2.
  rewrite Hp in H1. rewrite Hg in H2. repeat split; try assumption. lra.
Qed.

Lemma personal_address_beats_generic_witness :
  (calculateEmailScore toLowerCase
     (mkRawEmail (Some (js "pat@acme.com")) None None None None None
                 (Some 0%Q) (Some (js "generic")) None None None)
   < calculateEmailScore toLowerCase
       (mkRawEmail (Some (js "careers@acme.com")) None (Some (js "Sam"))
                   (Some (js "Lee")) None None
                   (Some 100%Q) (Some (js "personal")) None None None))%Q.
Proof.
  apply (@personal_address_beats_generic toLowerCase
           (mkRawEmail (Some (js "pat@acme.com")) None None None None None
                       (Some 0%Q) (Some (js "generic")) None None None)
           (mkRawEmail (Some (js "careers@acme.com")) None (Some (js "Sam"))
                       (Some (js "Lee")) None None
                       (Some 100%Q) (Some (js "personal")) None None None));
    try reflexivity; split; vm_compute; discriminate.
Defined.

End ScorerMore.

(** ** More on the directory lookup of the Hunter generation *)

Module HunterMore.
Import Hunter HunterFacts.

(** The name as it is searched for, and the key it would be cached
    under. *)
Definition cleanedNameOf (companyName : jsstring) : jsstring :=
  cleanCompanyName (cleanSpecialCharacters (Some companyName)).

Definition searchTermOf (companyName : jsstring) : jsstring :=
  trim (cleanedNameOf companyName).

Definition cacheKeyOf (companyName source : jsstring) : jsstring :=
  toLowerCase companyName ++ js ":" ++ source.

(** The two exclusion checks of the lookup, on the cleaned name: the
    exclusion list, with and without spaces, and the partial terms. *)
Definition isExcludedName (companyName : jsstring) : bool :=
  let lowerCleanedName := toLowerCase (cleanedNameOf companyName) in
  let normalizedName := removeSpaces lowerCleanedName in
  (arrayIncludes EXCLUDED_COMPANIES lowerCleanedName
   || existsb (fun excluded => includes normalizedName (removeSpaces excluded))
              EXCLUDED_COMPANIES)
  || existsb (fun partialTerm =>
                includes lowerCleanedName partialTerm
                || includes normalizedName (removeSpaces partialTerm))
             PARTIAL_EXCLUSIONS.

Lemma beforeFetch_fst (w : world) (companyName source : jsstring) (st : state) :
  fst (beforeFetch w companyName source st)
  = if isExcludedName companyName then inl (excludedShape w source)
    else inr (cleanedNameOf companyName, cacheKeyOf companyName source).
Proof.
  unfold beforeFetch, isExcludedName, cleanedNameOf, cacheKeyOf. cbv zeta.
  destruct (_ || existsb _ EXCLUDED_COMPANIES); [reflexivity|].
  destruct (existsb _ PARTIAL_EXCLUSIONS); [reflexivity|].
  unfold DISABLE_COMPANY_CACHE. cbn [negb andb orb]. reflexivity.
Qed.

Lemma beforeFetch_excluded (w : world) (companyName source : jsstring) (st : state) :
  isExcludedName companyName = true ->
  beforeFetch w companyName source st = (inl (excludedShape w source), st).
Proof.
  unfold beforeFetch, isExcludedName, cleanedNameOf. cbv zeta.
  destruct (_ || existsb _ EXCLUDED_COMPANIES); [reflexivity|].
  destruct (existsb _ PARTIAL_EXCLUSIONS); [reflexivity|discriminate].
Qed.

Lemma cache_forceRefresh (lowerCleanedName : jsstring) (keys : list jsstring)
  (st : state) (kv : jsstring * lookupResult) :
  In kv (companyCache
           (fold_left
              (fun st key =>
                 if includes (toLowerCase key) lowerCleanedName
                 then cacheDelete key st else st) keys st)) ->
  In kv (companyCache st).
Proof.
  revert st; induction keys as [|k keys IH]; intros st; simpl; [auto|].
  intros H. apply IH in H. destruct (includes _ _); [|exact H].
  unfold cacheDelete in H. simpl in H. apply filter_In in H. tauto.
Qed.

(** Before the request the cache can only lose entries. *)
Lemma beforeFetch_cache (w : world) (companyName source : jsstring) (st : state)
  (kv : jsstring * lookupResult) :
  In kv (companyCache (snd (beforeFetch w companyName source st))) ->
  In kv (companyCache st).
Proof.
  unfold beforeFetch. cbv zeta.
  destruct (_ || existsb _ EXCLUDED_COMPANIES); [auto|].
  destruct (existsb _ PARTIAL_EXCLUSIONS); [auto|].
  unfold DISABLE_COMPANY_CACHE. cbn [negb andb snd].
  destruct (arrayIncludes FORCE_FRESH_COMPANIES _); [|auto].
  intros H. apply cache_forceRefresh in H.
  destruct (cacheHas _ st); [|exact H].
  unfold cacheDelete in H. simpl in H. apply filter_In in H. tauto.
Qed.

(** The request leaves the cache as it is. *)
Lemma tryFetch_cache (w : world) (companyName source cleanedName cacheKey : jsstring)
  (st : state) :
  companyCache (snd (tryFetch w companyName source cleanedName cacheKey st))
  = companyCache st.
Proof.
  unfold tryFetch. cbv zeta. unfold DISABLE_COMPANY_CACHE. cbn [negb].
  destruct (hunter w (trim cleanedName)) as [msg|status txt|msg|[data|]];
    try reflexivity.
  - destruct (status =? 429); reflexivity.
  - destruct (match d_results data with Some _ => _ | None => _ end)
      as [[[i best] es]|]; [reflexivity|].
    destruct (match d_emails data with Some _ => _ | None => _ end); reflexivity.
Qed.

(** The emails of an answered request come out of [processEmails]. *)
Lemma tryFetch_emails (w : world) (companyName source cleanedName cacheKey : jsstring)
  (st : state) (r : lookupResult) :
  fst (tryFetch w companyName source cleanedName cacheKey st) = inr r ->
  exists data, emails r = processEmails (lowerCase w) data.
Proof.
  unfold tryFetch. cbv zeta. unfold DISABLE_COMPANY_CACHE. cbn [negb].
  destruct (hunter w (trim cleanedName)) as [msg|status txt|msg|[data|]];
    try discriminate.
  destruct (match d_results data with Some _ => _ | None => _ end)
    as [[[i best] es]|].
  - intros H. injection H as <-.
    exists (EmailsArray
              (List.map (identify w (orOpt (r_company best) companyName)
                           (r_domain best)) es)).
    reflexivity.
  - destruct (d_emails data) as [es|].
    + exists (EmailsArray
                (List.map (identify w (orOpt (d_organization data) companyName)
                             (d_domain data)) es)).
      destruct (processEmails _ _); injection H as <-; reflexivity.
    + intros H. injection H as <-. exists NoEmailsData. reflexivity.
Qed.

(** How to show a property of every lookup: show it of the four ways a
    lookup without retry ends, and show that the retry hands it on. *)
Lemma lookup_invariant (w : world)
  (P : jsstring -> jsstring -> jsstring -> state -> lookupResult -> state -> Prop) :
  (forall c loc src st, guarded c = true -> P c loc src st (skipShape w src) st) ->
  (forall c loc src st,
      guarded c = false -> isExcludedName c = true ->
      P c loc src st (excludedShape w src) st) ->
  (forall c loc src st r,
      guarded c = false -> isExcludedName c = false ->
      let st1 := snd (beforeFetch w c src st) in
      let out := tryFetch w c src (cleanedNameOf c) (cacheKeyOf c src) st1 in
      fst out = inr r -> P c loc src st r (snd out)) ->
  (forall c loc src st error,
      guarded c = false -> isExcludedName c = false ->
      let st1 := snd (beforeFetch w c src st) in
      let out := tryFetch w c src (cleanedNameOf c) (cacheKeyOf c src) st1 in
      fst out = inl error -> retries c loc src = false ->
      P c loc src st (errorShape w src) (snd out)) ->
  (forall c loc src st error r st',
      guarded c = false -> isExcludedName c = false ->
      let st1 := snd (beforeFetch w c src st) in
      let out := tryFetch w c src (cleanedNameOf c) (cacheKeyOf c src) st1 in
      fst out = inl error -> retries c loc src = true ->
      P loc [] (js "location") (snd out) r st' -> P c loc src st r st') ->
  forall fuel c loc src st r st',
    getCompanyInfoWithSource fuel w c loc src st = Some (r, st') ->
    P c loc src st r st'.
Proof.
  intros Hskip Hexcl Hok Herr Hretry.
  induction fuel as [|fuel IH]; intros c loc src st r st'; [discriminate|].
  rewrite getCompanyInfoWithSource_unfold.
  destruct (guarded c) eqn:Eg.
  { intros H. injection H as <- <-. apply Hskip. exact Eg. }
  destruct (isExcludedName c) eqn:Ee.
  { rewrite (beforeFetch_excluded w c src st Ee).
    intros H. injection H as <- <-. apply Hexcl; assumption. }
  pose proof (beforeFetch_fst w c src st) as Hb. rewrite Ee in Hb.
  specialize (Hok c loc src st). specialize (Herr c loc src st).
  specialize (Hretry c loc src st). cbv zeta in Hok, Herr, Hretry.
  destruct (beforeFetch w c src st) as [b st1]. simpl in Hb. subst b.
  cbn [snd] in Hok, Herr, Hretry.
  destruct (tryFetch w c src (cleanedNameOf c) (cacheKeyOf c src) st1)
    as [[error|result] st2]; cbn [fst snd] in Hok, Herr, Hretry.
  - destruct (retries c loc src) eqn:Er.
    + intros H. apply IH in H. eapply Hretry; eauto.
    + intros H. injection H as <- <-. eapply Herr; eauto.
  - intros H. injection H as <- <-. apply Hok; auto.
Qed.

(** A world whose directory knows one contact of every company. *)
Definition chefContact : rawEmail :=
  mkRawEmail (Some (js "chef@acme.com")) None (Some (js "Ann")) (Some (js "Lee"))
             (Some (js "Executive Chef")) None (Some 90%Q) (Some (js "personal"))
             None None None.

Definition answeringOne : world :=
  mkWorld (fun _ => Json (Some (mkApiData None (Some [chefContact]) None
                                  (Some (js "acme.com")) None None)))
          (js "now") 0 toLowerCase.

(** A cache that holds an answer for "acme" from an earlier run. *)
Definition staleState : state :=
  mkState [(js "acme:company", skipShape answeringOne (js "company"))] [].

(** X10: a lookup never writes to the company cache and never saves it:
    whatever the directory answers, every entry the cache holds
    afterwards was there before, and no save of the cache file is
    recorded that was not recorded before. *)
Theorem lookup_never_fills_cache (fuel : nat) (w : world)
  (companyName locationName source : jsstring) (st st' : state)
  (r : lookupResult) :
  getCompanyInfoWithSource fuel w companyName locationName source st
  = Some (r, st') ->
  (forall kv, In kv (companyCache st') -> In kv (companyCache st))
  /\ (In EvSaveCache (trace st') -> In EvSaveCache (trace st)).
Proof.
  revert fuel companyName locationName source st r st'.
  apply (@lookup_invariant w
           (fun _ _ _ st _ st' =>
              (forall kv, In kv (companyCache st') -> In kv (companyCache st))
              /\ (In EvSaveCache (trace st') -> In EvSaveCache (trace st)))).
  - intros; split; auto.
  - intros; split; auto.
  - intros c loc src st r _ _ st1 out _. subst out st1. split.
    + intros kv H. rewrite tryFetch_cache in H.
      apply beforeFetch_cache in H. exact H.
    + intros H.
      destruct (tryFetch_trace w c src (cleanedNameOf c) (cacheKeyOf c src)
                  (snd (beforeFetch w c src st))) as [E|E];
        rewrite E, beforeFetch_trace in H; apply in_app_or in H as [H|H];
        try exact H; simpl in H; repeat destruct H as [H|H]; try discriminate H;
        destruct H.
  - intros c loc src st error _ _ st1 out _ _. subst out st1. split.
    + intros kv H. rewrite tryFetch_cache in H.
      apply beforeFetch_cache in H. exact H.
    + intros H.
      destruct (tryFetch_trace w c src (cleanedNameOf c) (cacheKeyOf c src)
                  (snd (beforeFetch w c src st))) as [E|E];
        rewrite E, beforeFetch_trace in H; apply in_app_or in H as [H|H];
        try exact H; simpl in H; repeat destruct H as [H|H]; try discriminate H;
        destruct H.
  - intros c loc src st error r st' _ _ st1 out _ _ [Hc Ht]. subst out st1.
    split.
    + intros kv H. apply Hc in H. rewrite tryFetch_cache in H.
      apply beforeFetch_cache in H. exact H.
    + intros H. apply Ht in H.
      destruct (tryFetch_trace w c src (cleanedNameOf c) (cacheKeyOf c src)
                  (snd (beforeFetch w c src st))) as [E|E];
        rewrite E, beforeFetch_trace in H; apply in_app_or in H as [H|H];
        try exact H; simpl in H; repeat destruct H as [H|H]; try discriminate H;
        destruct H.
Qed.

Lemma lookup_never_fills_cache_witness :
  (forall kv,
     In kv (companyCache
              (mkState [(js "acme:company", skipShape answeringOne (js "company"))]
                       [EvDelay 1000; EvFetch (js "Acme")])) ->
     In kv (companyCache staleState))
  /\ (In EvSaveCache
        (trace (mkState [(js "acme:company",
                          skipShape answeringOne (js "company"))]
                        [EvDelay 1000; EvFetch (js "Acme")])) ->
      In EvSaveCache (trace staleState)).
Proof.
  refine (@lookup_never_fills_cache 2 answeringOne (js "Acme")
            (js "Brooklyn") (js "company") staleState _ _ _).
  vm_compute. reflexivity.
Defined.

(** X11: a lookup only ever sends a request for the company name it was
    given or, on the retry of a lookup tagged 'company', for the location
    it was given; the name in question is none of the sentinels (empty,
    'Unknown', 'Excluded: ...'), passes both exclusion checks, and the
    request asks for its cleaned, trimmed form. *)
Theorem lookup_requests_only_admitted_names (fuel : nat) (w : world)
  (companyName locationName source : jsstring) (st st' : state)
  (r : lookupResult) :
  getCompanyInfoWithSource fuel w companyName locationName source st
  = Some (r, st') ->
  exists added,
    trace st' = trace st ++ added
    /\ forall term, In (EvFetch term) added ->
         exists n,
           (n = companyName \/ (n = locationName /\ source = js "company"))
           /\ term = searchTermOf n
           /\ guarded n = false /\ isExcludedName n = false.
Proof.
  revert fuel companyName locationName source st r st'.
  apply (@lookup_invariant w
           (fun c loc src st _ st' =>
              exists added,
                trace st' = trace st ++ added
                /\ forall term, In (EvFetch term) added ->
                     exists n,
                       (n = c \/ (n = loc /\ src = js "company"))
                       /\ term = searchTermOf n
                       /\ guarded n = false /\ isExcludedName n = false)).
  - intros. exists []. rewrite app_nil_r. split; [reflexivity|intros ? []].
  - intros. exists []. rewrite app_nil_r. split; [reflexivity|intros ? []].
  - intros c loc src st r Hg He st1 out _. subst out st1.
    destruct (tryFetch_trace w c src (cleanedNameOf c) (cacheKeyOf c src)
                (snd (beforeFetch w c src st))) as [E|E];
      rewrite E, beforeFetch_trace; eexists; (split; [reflexivity|]);
      intros term H; simpl in H; repeat destruct H as [H|H];
      try discriminate H; try contradiction;
      injection H as <-; exists c; auto.
  - intros c loc src st error Hg He st1 out _ _. subst out st1.
    destruct (tryFetch_trace w c src (cleanedNameOf c) (cacheKeyOf c src)
                (snd (beforeFetch w c src st))) as [E|E];
      rewrite E, beforeFetch_trace; eexists; (split; [reflexivity|]);
      intros term H; simpl in H; repeat destruct H as [H|H];
      try discriminate H; try contradiction;
      injection H as <-; exists c; auto.
  - intros c loc src st error r st' Hg He st1 out _ Hr [added [Et Ha]].
    subst out st1.
    assert (Hsrc : src = js "company").
    { unfold retries in Hr. apply andb_prop in Hr as [Hr _].
      apply andb_prop in Hr as [Hr _]. apply jseqb_eq in Hr. exact Hr. }
    destruct (tryFetch_trace w c src (cleanedNameOf c) (cacheKeyOf c src)
                (snd (beforeFetch w c src st))) as [E|E];
      rewrite E, beforeFetch_trace in Et; rewrite <- app_assoc in Et;
      eexists; (split; [exact Et|]);
      intros term H; apply in_app_or in H as [H|H].
    + simpl in H; repeat destruct H as [H|H];
        try discriminate H; try contradiction.
      injection H as <-; exists c; auto.
    + destruct (Ha term H) as [n [[Hn|[Hn Hx]] Hrest]].
      * exists n. split; [right; split; assumption|exact Hrest].
      * discriminate Hx.
    + simpl in H; repeat destruct H as [H|H];
        try discriminate H; try contradiction.
      injection H as <-; exists c; auto.
    + destruct (Ha term H) as [n [[Hn|[Hn Hx]] Hrest]].
      * exists n. split; [right; split; assumption|exact Hrest].
      * discriminate Hx.
Qed.

Lemma lookup_requests_only_admitted_names_witness :
  exists added,
    [EvDelay 1000; EvFetch (js "Acme"); EvDelay 1000; EvFetch (js "Brooklyn")]
    = [] ++ added
    /\ forall term, In (EvFetch term) added ->
         exists n,
           (n = js "Acme" \/ (n = js "Brooklyn" /\ js "company" = js "company"))
           /\ term = searchTermOf n
           /\ guarded n = false /\ isExcludedName n = false.
Proof.
  refine (@lookup_requests_only_admitted_names 2 timingOut (js "Acme")
            (js "Brooklyn") (js "company") freshState
            (mkState [] [EvDelay 1000; EvFetch (js "Acme");
                         EvDelay 1000; EvFetch (js "Brooklyn")]) _ _).
  vm_compute. reflexivity.
Defined.

(** X12: the contacts of every answer of a lookup, whichever way it
    ended, are in ascending order of score, and each of them has a
    non-empty address. *)
Theorem lookup_contacts_sorted (fuel : nat) (w : world)
  (companyName locationName source : jsstring) (st st' : state)
  (r : lookupResult) :
  getCompanyInfoWithSource fuel w companyName locationName source st
  = Some (r, st') ->
  StronglySorted (fun a b => (c_priority a <= c_priority b)%Q) (emails r)
  /\ forall c, In c (emails r) -> truthy (c_email c) = true.
Proof.
  revert fuel companyName locationName source st r st'.
  apply (@lookup_invariant w
           (fun _ _ _ _ r _ =>
              StronglySorted (fun a b => (c_priority a <= c_priority b)%Q)
                             (emails r)
              /\ forall c, In c (emails r) -> truthy (c_email c) = true)).
  - intros. split; [constructor|intros ? []].
  - intros. split; [constructor|intros ? []].
  - intros c loc src st r _ _ st1 out H. subst out st1.
    apply tryFetch_emails in H as [data ->]. split.
    + apply ScorerMore.processEmails_sorted.
    + apply ScorerMore.processEmails_has_address.
  - intros. split; [constructor|intros ? []].
  - intros c loc src st error r st' _ _ st1 out _ _ H. exact H.
Qed.

Lemma lookup_contacts_sorted_witness :
  StronglySorted (fun a b => (c_priority a <= c_priority b)%Q)
    (processEmails toLowerCase
       (EmailsArray [identify answeringOne (js "Acme")
                       (Some (js "acme.com")) chefContact]))
  /\ forall c,
       In c (processEmails toLowerCase
               (EmailsArray [identify answeringOne (js "Acme")
                               (Some (js "acme.com")) chefContact])) ->
       truthy (c_email c) = true.
Proof.
  refine (@lookup_contacts_sorted 1 answeringOne (js "Acme") (js "Brooklyn")
            (js "company") freshState
            (mkState [] [EvDelay 1000; EvFetch (js "Acme")])
            (mkResult NA (js "acme.com") NA
               (processEmails toLowerCase
                  (EmailsArray [identify answeringOne (js "Acme")
                                  (Some (js "acme.com")) chefContact]))
               (js "now") (js "company") (Some (js "Acme"))) _).
  vm_compute. reflexivity.
Defined.

(** X13: when the directory answers the request for an admitted name
    with an HTTP error status, the lookup (where no retry by location
    applies) answers the error shape; after status 429 it has first
    paused ten seconds, after any other status it has not. *)
Theorem lookup_http_error_cool_down (fuel : nat) (w : world)
  (companyName locationName source errorText : jsstring) (status : Z)
  (st : state) :
  guarded companyName = false ->
  isExcludedName companyName = false ->
  retries companyName locationName source = false ->
  hunter w (searchTermOf companyName) = HttpError status errorText ->
  exists st',
    getCompanyInfoWithSource (S fuel) w companyName locationName source st
    = Some (errorShape w source, st')
    /\ trace st'
       = trace st ++ [EvDelay 1000; EvFetch (searchTermOf companyName)]
                  ++ (if status =? 429 then [EvDelay 10000] else []).
Proof.
  intros Hg He Hr Hh.
  rewrite getCompanyInfoWithSource_unfold, Hg.
  pose proof (beforeFetch_fst w companyName source st) as Hb. rewrite He in Hb.
  pose proof (beforeFetch_trace w companyName source st) as Ht.
  destruct (beforeFetch w companyName source st) as [b st1].
  simpl in Hb, Ht. subst b.
  unfold tryFetch. cbv zeta. fold (searchTermOf companyName). rewrite Hh, Hr.
  eexists. split; [reflexivity|].
  destruct (status =? 429); unfold emit; simpl; rewrite Ht, <- ?app_assoc;
    reflexivity.
Qed.

Definition rateLimiting : world :=
  mkWorld (fun _ => HttpError 429 (js "Too Many Requests")) (js "now") 0
          toLowerCase.

Lemma lookup_http_error_cool_down_witness :
  exists st',
    getCompanyInfoWithSource 1 rateLimiting (js "Acme") [] (js "company") freshState
    = Some (errorShape rateLimiting (js "company"), st')
    /\ trace st' = [EvDelay 1000; EvFetch (js "Acme"); EvDelay 10000].
Proof.
  apply (@lookup_http_error_cool_down 0 rateLimiting (js "Acme") []
           (js "company") (js "Too Many Requests") 429 freshState);
    vm_compute; reflexivity.
Defined.

(** A lookup with fuel for the retry always answers, after at most two
    requests. *)
Lemma lookup_total (fuel : nat) (w : world)
  (companyName locationName source : jsstring) (st : state) :
  exists r st',
    getCompanyInfoWithSource (S (S fuel)) w companyName locationName source st
    = Some (r, st')
    /\ (fetches st' <= fetches st + 2)%nat.
Proof.
  rewrite getCompanyInfoWithSource_unfold.
  destruct (guarded companyName); [eexists; eexists; split; [reflexivity|lia]|].
  pose proof (beforeFetch_fetches w companyName source st) as Hb.
  destruct (beforeFetch w companyName source st)
    as [[early|[cleanedName cacheKey]] st1]; simpl in Hb.
  - eexists; eexists; split; [reflexivity|lia].
  - pose proof (tryFetch_fetches w companyName source cleanedName cacheKey st1)
      as Ht.
    destruct (tryFetch w companyName source cleanedName cacheKey st1)
      as [[error|result] st2]; simpl in Ht.
    + destruct (retries companyName locationName source).
      * destruct (lookup_location fuel w locationName st2) as [r [st' [E Hf]]].
        exists r, st'. split; [exact E|lia].
      * eexists; eexists; split; [reflexivity|lia].
    + eexists; eexists; split; [reflexivity|lia].
Qed.

(** Without a location there is no retry: one request at most. *)
Lemma lookup_total_no_location (fuel : nat) (w : world)
  (companyName source : jsstring) (st : state) :
  exists r st',
    getCompanyInfoWithSource (S fuel) w companyName [] source st = Some (r, st')
    /\ (fetches st' <= fetches st + 1)%nat.
Proof.
  rewrite getCompanyInfoWithSource_unfold.
  destruct (guarded companyName); [eexists; eexists; split; [reflexivity|lia]|].
  pose proof (beforeFetch_fetches w companyName source st) as Hb.
  destruct (beforeFetch w companyName source st)
    as [[early|[cleanedName cacheKey]] st1]; simpl in Hb.
  - eexists; eexists; split; [reflexivity|lia].
  - pose proof (tryFetch_fetches w companyName source cleanedName cacheKey st1)
      as Ht.
    destruct (tryFetch w companyName source cleanedName cacheKey st1)
      as [[error|result] st2]; simpl in Ht.
    + replace (retries companyName [] source) with false
        by (unfold retries; simpl; rewrite andb_false_r; reflexivity).
      eexists; eexists; split; [reflexivity|lia].
    + eexists; eexists; split; [reflexivity|lia].
Qed.

Lemma locationStrategy_total (fuel : nat) (w : world)
  (cleanedCompany rawLocation : jsstring) (st : state) :
  exists l st',
    locationStrategy (S fuel) w cleanedCompany rawLocation st = Some (l, st')
    /\ (fetches st' <= fetches st + 1)%nat.
Proof.
  unfold locationStrategy. cbv zeta.
  destruct (truthy rawLocation && negb (jseqb rawLocation cleanedCompany));
    [|eexists; eexists; split; [reflexivity|lia]].
  destruct (arrayIncludes commonGenericTerms _ || jseqb _ (js "restaurant group"));
    [eexists; eexists; split; [reflexivity|lia]|].
  destruct (matchesPartialExclusion _ || matchesExclusionList _);
    [eexists; eexists; split; [reflexivity|lia]|].
  unfold bind.
  destruct (lookup_total_no_location fuel w
              (cleanSpecialCharacters (Some rawLocation)) (js "full_location") st)
    as [r [st' [E Hf]]].
  rewrite E. eexists; eexists; split; [reflexivity|exact Hf].
Qed.

Lemma potentialStrategies_total (fuel : nat) (w : world)
  (cleanedCompany rawLocation : jsstring) (all todo : list potential) (st : state) :
  exists l st',
    potentialStrategies (S fuel) w cleanedCompany rawLocation all todo st
    = Some (l, st')
    /\ (fetches st' <= fetches st + List.length todo)%nat.
Proof.
  revert st. induction todo as [|p more IH]; intros st.
  - eexists; eexists; split; [reflexivity|simpl; lia].
  - cbn [potentialStrategies]. cbv zeta.
    destruct (jseqb _ _ || jseqb _ _).
    + destruct (IH st) as [l [st' [E Hf]]].
      exists l, st'. split; [exact E|simpl; lia].
    + destruct (matchesPartialExclusion _ || matchesExclusionList _).
      * unfold bind. destruct (IH st) as [l [st' [E Hf]]]. rewrite E.
        eexists; eexists; split; [reflexivity|simpl; lia].
      * unfold bind.
        destruct (lookup_total_no_location fuel w (parsed p)
                    (js "potential_" ++ findIndexText all (original p) 0) st)
          as [r [st1 [E1 Hf1]]].
        rewrite E1.
        destruct (IH st1) as [l [st' [E Hf]]]. rewrite E.
        eexists; eexists; split; [reflexivity|simpl; lia].
Qed.

Lemma mergeResults_source (w : world) (allResults : list strategyResult) :
  mr_source (mergeResults w allResults) = js "merged"
  /\ mr_timestamp (mergeResults w allResults) = now w.
Proof.
  unfold mergeResults. cbv zeta.
  destruct (fold_left _ _ ([], [])) as [added merged]. split; reflexivity.
Qed.

(** X14: the orchestrator always answers: its lookups never throw, their
    failures become results that are merged.  The answer is tagged
    'merged', and the whole resolution sends at most three requests (the
    company, its retry by location, the location as a company) plus one
    for each candidate mined from the address. *)
Theorem getCompanyInfo_answers_within_budget (fuel : nat) (w : world)
  (rawCompanyName rawLocation : jsstring) (st : state) :
  exists merged st',
    getCompanyInfo (S (S fuel)) w rawCompanyName rawLocation st
    = Some (merged, st')
    /\ mr_source merged = js "merged"
    /\ (fetches st' <= fetches st + 3
        + List.length (extractPotentialCompaniesFromAddress rawLocation))%nat.
Proof.
  unfold getCompanyInfo. cbv zeta. unfold bind.
  destruct (lookup_total fuel w (name (parseCompanyAndLocation rawCompanyName))
              rawLocation (js "company") st) as [r1 [st1 [E1 H1]]].
  rewrite E1.
  destruct (locationStrategy_total (S fuel) w
              (name (parseCompanyAndLocation rawCompanyName)) rawLocation st1)
    as [l2 [st2 [E2 H2]]].
  rewrite E2.
  match goal with
  | |- context [potentialStrategies _ _ _ _ ?all ?all st2] =>
      destruct (potentialStrategies_total (S fuel) w
                  (name (parseCompanyAndLocation rawCompanyName)) rawLocation
                  all all st2) as [l3 [st3 [E3 H3]]];
      rewrite E3;
      assert (Hlen : (List.length all
                      <= List.length (extractPotentialCompaniesFromAddress
                                        rawLocation))%nat)
        by (etransitivity; [apply filter_length_le|rewrite length_map; lia])
  end.
  eexists; eexists. split; [reflexivity|]. split.
  - apply mergeResults_source.
  - lia.
Qed.

End HunterMore.

(** ** More on the merge step *)

Lemma StronglySorted_impl {A : Type} (R S : A -> A -> Prop) (l : list A) :
  (forall a b, R a b -> S a b) -> StronglySorted R l -> StronglySorted S l.
Proof.
  intros HRS H. induction H as [|a l Hl IH Ha]; constructor; [exact IH|].
  eapply Forall_impl; [|exact Ha]. intros b. apply HRS.
Qed.

(** The last step of either merge: the contacts in ascending order of
    the rank of their title. *)
Lemma sort_by_title_rank (l : list contact) :
  StronglySorted
    (fun a b => getTitlePriority (c_title a) <= getTitlePriority (c_title b))
    (sort (fun a b => inject_Z (getTitlePriority (c_title a)
                                - getTitlePriority (c_title b))) l).
Proof.
  apply StronglySorted_impl
    with (R := fun a b => (inject_Z (getTitlePriority (c_title a))
                           <= inject_Z (getTitlePriority (c_title b)))%Q).
  - intros a b H. rewrite Zle_Qle. exact H.
  - apply (@sort_sorted _ _ (fun a => inject_Z (getTitlePriority (c_title a)))).
    intros a b. unfold Qminus. rewrite <- inject_Z_opp, <- inject_Z_plus.
    reflexivity.
Qed.

Lemma flat_map_nil {A B : Type} (f : A -> list B) (l : list A) :
  flat_map f l = [] <-> Forall (fun x => f x = []) l.
Proof.
  induction l as [|x l IH]; simpl.
  - split; [constructor|reflexivity].
  - split.
    + intros H. apply app_eq_nil in H as [Hx Hl]. constructor; [exact Hx|].
      apply IH. exact Hl.
    + intros H. inversion H as [|? ? Hx Hl]; subst. rewrite Hx. apply IH. exact Hl.
Qed.

(** The merged list is empty just when there was no candidate. *)
Lemma mergeInvariant_nil (lowerCase : jsstring -> jsstring)
  (seen : list contact) (acc : list jsstring * list contact) :
  mergeInvariant lowerCase seen acc -> (snd acc = [] <-> seen = []).
Proof.
  intros [_ [_ Hmem]]. split.
  - intros E. destruct seen as [|c seen]; [reflexivity|].
    assert (H : In c (snd acc)).
    { apply Hmem. exists [], seen. split; [reflexivity|intros x []]. }
    rewrite E in H. destruct H.
  - intros ->. destruct (snd acc) as [|c merged] eqn:E; [reflexivity|].
    assert (H : firstWriter lowerCase [] c) by (apply Hmem; left; reflexivity).
    apply firstWriter_In in H. destruct H.
Qed.

Lemma sort_nil {A : Type} (cmp : A -> A -> Q) (l : list A) :
  sort cmp l = [] <-> l = [].
Proof.
  split.
  - intros E. pose proof (sort_perm cmp l) as Hp. rewrite E in Hp.
    apply Permutation_nil in Hp. exact Hp.
  - intros ->. reflexivity.
Qed.

Lemma len_zero {A : Type} (l : list A) : len l = 0 <-> l = [].
Proof.
  unfold len. destruct l; simpl; split; intros H;
    try reflexivity; try discriminate; lia.
Qed.

Lemma len_gtb_zero {A : Type} (l : list A) : (len l >? 0) = false <-> l = [].
Proof.
  destruct l as [|x l]; [split; reflexivity|].
  split; [|discriminate]. intros H. exfalso.
  rewrite Z.gtb_ltb in H. apply Z.ltb_ge in H. rewrite len_cons in H.
  pose proof (len_nonneg l). lia.
Qed.

Lemma filter_nil {A : Type} (f : A -> bool) (l : list A) :
  filter f l = [] <-> Forall (fun x => f x = false) l.
Proof.
  induction l as [|x l IH]; simpl.
  - split; [constructor|reflexivity].
  - destruct (f x) eqn:E; split.
    + discriminate.
    + intros H. inversion H; subst. congruence.
    + intros H. constructor; [exact E|]. apply IH. exact H.
    + intros H. inversion H; subst. apply IH. assumption.
Qed.

(** X15: the contacts of the merged answer of the Hunter generation are
    in ascending order of the rank of their title; the number of sources
    with emails lies between 0 and the number of results, and it is 0
    exactly when the merged answer has no contact. *)
Theorem hunter_merged_contacts_ranked (w : Hunter.world)
  (allResults : list Hunter.strategyResult) :
  StronglySorted
    (fun a b => getTitlePriority (c_title a) <= getTitlePriority (c_title b))
    (Hunter.mr_emails (Hunter.mergeResults w allResults))
  /\ 0 <= Hunter.mr_sourcesWithEmails (Hunter.mergeResults w allResults)
       <= len allResults
  /\ (Hunter.mr_emails (Hunter.mergeResults w allResults) = []
      <-> Hunter.mr_sourcesWithEmails (Hunter.mergeResults w allResults) = 0).
Proof.
  unfold Hunter.mergeResults. cbv zeta.
  match goal with
  | |- context [fold_left ?f ?l ([], [])] =>
      pose proof (@fold_left_mergeInvariant (Hunter.lowerCase w) _ f
                    (fun result =>
                       List.map (Hunter.withSource (Hunter.s_source result))
                                (emails (Hunter.s_data result)))
                    l [] ([], [])) as Hinv;
      set (sorted := l) in *;
      destruct (fold_left f sorted ([], [])) as [added merged]
  end.
  simpl Hunter.mr_emails. simpl Hunter.mr_sourcesWithEmails. simpl app in Hinv.
  assert (Hm : mergeInvariant (Hunter.lowerCase w)
                 (flat_map
                    (fun result =>
                       List.map (Hunter.withSource (Hunter.s_source result))
                                (emails (Hunter.s_data result))) sorted)
                 (added, merged)).
  { apply Hinv.
    - intros seen acc r Hacc. apply hunter_addEmails_invariant. exact Hacc.
    - apply mergeInvariant_empty. }
  clear Hinv. apply mergeInvariant_nil in Hm. simpl in Hm.
  split; [apply sort_by_title_rank|]. split.
  - split; [apply len_nonneg|]. unfold len. apply inj_le.
    etransitivity; [apply filter_length_le|].
    subst sorted. rewrite (Permutation_length (sort_perm _ allResults)). lia.
  - rewrite sort_nil, Hm, len_zero, flat_map_nil, filter_nil.
    split; intros H; (eapply Forall_impl; [|exact H]); intros r Hr.
    + apply map_eq_nil in Hr. apply len_gtb_zero. exact Hr.
    + apply len_gtb_zero in Hr. rewrite Hr. reflexivity.
Qed.

(** X16: the merge step of the SearchAPI generation also answers its
    contacts in ascending order of the rank of their title, and when no
    result brought an email the merged answer has no contact. *)
Theorem searchApi_merged_contacts_ranked (w : SearchApi.world)
  (allResults : list lookupResult) :
  StronglySorted
    (fun a b => getTitlePriority (c_title a) <= getTitlePriority (c_title b))
    (SearchApi.mr_emails (SearchApi.mergeResults w allResults))
  /\ 0 <= SearchApi.mr_sourcesWithEmails (SearchApi.mergeResults w allResults)
       <= len allResults
  /\ (SearchApi.mr_sourcesWithEmails (SearchApi.mergeResults w allResults) = 0 ->
      SearchApi.mr_emails (SearchApi.mergeResults w allResults) = []).
Proof.
  unfold SearchApi.mergeResults. cbv zeta.
  match goal with
  | |- context [fold_left ?f ?l ([], [])] =>
      pose proof (@fold_left_mergeInvariant (SearchApi.lowerCase w) _ f
                    (fun result =>
                       List.map (SearchApi.withSource
                                   (orElse (source result) (js "unknown_source")))
                                (filter hasEmail (emails result)))
                    l [] ([], [])) as Hinv;
      set (sorted := l) in *;
      destruct (fold_left f sorted ([], [])) as [added merged]
  end.
  simpl SearchApi.mr_emails. simpl SearchApi.mr_sourcesWithEmails.
  simpl app in Hinv.
  assert (Hm : mergeInvariant (SearchApi.lowerCase w)
                 (flat_map
                    (fun result =>
                       List.map (SearchApi.withSource
                                   (orElse (source result) (js "unknown_source")))
                                (filter hasEmail (emails result))) sorted)
                 (added, merged)).
  { apply Hinv.
    - intros seen acc r Hacc. apply searchApi_addEmails_invariant. exact Hacc.
    - apply mergeInvariant_empty. }
  clear Hinv. apply mergeInvariant_nil in Hm. simpl in Hm.
  split; [apply sort_by_title_rank|]. split.
  - split; [apply len_nonneg|]. unfold len. apply inj_le.
    etransitivity; [apply filter_length_le|].
    subst sorted. rewrite (Permutation_length (sort_perm _ allResults)). lia.
  - rewrite sort_nil, len_zero, filter_nil. intros H.
    assert (E : merged = []).
    { apply Hm, flat_map_nil. eapply Forall_impl; [|exact H]. intros r Hr.
      apply len_gtb_zero in Hr. rewrite Hr. reflexivity. }
    rewrite E. reflexivity.
Qed.

(** ** More on the SearchAPI generation *)

Module SearchApiMore.
Import SearchApi SearchApiFacts.

(** What every lookup result of this generation looks like: no contacts,
    no size, and no LinkedIn page (the field holds a placeholder). *)
Definition contactless (r : lookupResult) : Prop :=
  emails r = [] /\ size r = NA
  /\ (linkedin r = NA \/ linkedin r = js "Excluded").

Lemma getCompanyInfoWithSource_contactless (w : world)
  (searchTerm searchType source : jsstring) :
  contactless (getCompanyInfoWithSource w searchTerm searchType source).
Proof.
  unfold getCompanyInfoWithSource, contactless. cbv zeta.
  destruct (negb (truthy searchTerm) || _ || _); [simpl; auto|].
  destruct (jseqb searchType (js "company") && (_ || _)); [simpl; auto|].
  destruct (jseqb searchType (js "company") && existsb _ PARTIAL_EXCLUSIONS);
    simpl; auto.
Qed.

Lemma primaryTask_contactless (w : world) (primaryCompanyName : jsstring)
  (tr : list event) (r : lookupResult) :
  fst (primaryTask w primaryCompanyName tr) = Some r -> contactless r.
Proof.
  unfold primaryTask.
  destruct (getWebsiteUrlFromGoogle w primaryCompanyName tr) as [[url|] tr'];
    [|discriminate].
  destruct (match url with Some _ => _ | None => _ end);
    intros H; injection H as <-; apply getCompanyInfoWithSource_contactless.
Qed.

Lemma parentTask_contactless (w : world) (parsedParentCompany : jsstring)
  (tr : list event) (r : lookupResult) :
  fst (parentTask w parsedParentCompany tr) = Some r -> contactless r.
Proof.
  unfold parentTask.
  destruct (getWebsiteUrlFromGoogle w parsedParentCompany tr) as [[url|] tr'];
    [|discriminate].
  destruct (match url with Some _ => _ | None => _ end);
    intros H; injection H as <-;
    [apply getCompanyInfoWithSource_contactless|].
  unfold contactless. simpl. auto.
Qed.

Lemma runStrategies_contactless (w : world) (rawCompanyName : jsstring)
  (parentCompanyName : option jsstring) :
  Forall contactless (fst (runStrategies w rawCompanyName parentCompanyName)).
Proof.
  unfold runStrategies. cbv zeta.
  set (primary := name (parseCompanyAndLocation rawCompanyName)).
  assert (Hparent :
    forall parent tr,
      Forall contactless
        (fst (match parentTask w parent tr with
              | (Some result, tr) => ([result], tr)
              | (None, tr) => ([], tr)
              end))).
  { intros parent tr. pose proof (parentTask_contactless w parent tr) as H.
    destruct (parentTask w parent tr) as [[r|] tr']; simpl; constructor;
      [apply H; reflexivity|constructor]. }
  assert (Hprimary :
    Forall contactless
      (fst (if truthy primary && negb (startsWith primary (js "Excluded"))
            then match primaryTask w primary [] with
                 | (Some result, tr) => ([result], tr)
                 | (None, tr) => ([], tr)
                 end
            else ([], [])))).
  { destruct (truthy primary && negb (startsWith primary (js "Excluded")));
      [|constructor].
    pose proof (primaryTask_contactless w primary []) as H.
    destruct (primaryTask w primary []) as [[r|] tr']; simpl; constructor;
      [apply H; reflexivity|constructor]. }
  destruct (if truthy primary && negb (startsWith primary (js "Excluded"))
            then _ else _) as [fromPrimary tr].
  simpl in Hprimary.
  destruct (match parentCompanyName with Some _ => _ | None => _ end)
    as [parent|].
  - destruct (truthy parent && negb (jseqb parent primary)
              && negb (startsWith parent (js "Excluded"))).
    + specialize (Hparent parent tr).
      destruct (match parentTask w parent tr with
                | (Some result, tr) => _ | (None, tr) => _ end)
        as [fromParent tr2].
      simpl in *. apply Forall_app. split; assumption.
    + simpl. rewrite app_nil_r. exact Hprimary.
  - simpl. rewrite app_nil_r. exact Hprimary.
Qed.

Lemma fold_left_unchanged {A B : Type} (f : A -> B -> A) (P : B -> Prop)
  (l : list B) (acc : A) :
  (forall x, P x -> f acc x = acc) -> Forall P l -> fold_left f l acc = acc.
Proof.
  intros Hf H. induction H as [|x l Hx Hl IH]; simpl; [reflexivity|].
  rewrite (Hf x Hx). exact IH.
Qed.

(** X17: in the SearchAPI generation, where contact collection is
    switched off, the merged answer never carries a contact, a LinkedIn
    page or a size, whatever the search service answers: only the domain
    fields can hold a finding. *)
Theorem getCompanyInfo_answers_domains_only (w : world)
  (rawCompanyName rawLocation : jsstring) (parentCompanyName : option jsstring) :
  let merged := fst (getCompanyInfo w rawCompanyName rawLocation parentCompanyName) in
  mr_emails merged = []
  /\ mr_sourcesWithEmails merged = 0
  /\ mr_linkedin merged = NA
  /\ mr_size merged = NA
  /\ mr_source merged = js "merged".
Proof.
  unfold getCompanyInfo.
  pose proof (runStrategies_contactless w rawCompanyName parentCompanyName) as H.
  destruct (runStrategies w rawCompanyName parentCompanyName) as [allResults tr].
  simpl in H. cbv zeta. cbn [fst].
  assert (Hs : Forall contactless (sort compareResults allResults)).
  { apply Forall_forall. intros r Hr. rewrite Forall_forall in H. apply H.
    apply (Permutation_in _ (sort_perm compareResults allResults)). exact Hr. }
  unfold mergeResults. cbv zeta.
  set (sorted := sort compareResults allResults) in *.
  rewrite (@fold_left_unchanged _ _ _ contactless sorted ([], [])); [|
    intros r [He _]; rewrite He; reflexivity | exact Hs].
  rewrite (@fold_left_unchanged _ _
             (fun sz result =>
                if jseqb sz NA && truthy (size result)
                   && negb (jseqb (size result) NA)
                then size result else sz) contactless sorted NA); [|
    intros r [_ [Hz _]]; rewrite Hz; reflexivity | exact Hs].
  rewrite (@fold_left_unchanged _ _
             (fun set result =>
                if truthy (linkedin result) && negb (jseqb (linkedin result) NA)
                   && negb (jseqb (linkedin result) (js "Excluded"))
                   && negb (jseqb (linkedin result) (js "Error"))
                then fold_left (fun set url => setAdd url set)
                       (split (linkedin result) (js "; ")) set
                else set) contactless sorted []); [|
    intros r [_ [_ [Hl|Hl]]]; rewrite Hl; reflexivity | exact Hs].
  cbn [mr_emails mr_sourcesWithEmails mr_linkedin mr_size mr_source].
  repeat split.
  apply len_zero, filter_nil. eapply Forall_impl; [|exact Hs].
  intros r [He _]. rewrite He. reflexivity.
Qed.

(** X18: one call of [getCompanyInfo] calls the domain discovery client
    at most twice, never twice with the same name, never with an empty
    name and never with a name that starts with 'Excluded'; each name it
    is called with is the parsed company name or the parsed parent
    company name.  (This is the orchestrator alone: the job handler that
    calls it has, before that, searched for the parent company under its
    raw name.) *)
Theorem discovery_calls_are_few_and_distinct (w : world)
  (rawCompanyName rawLocation : jsstring) (parentCompanyName : option jsstring) :
  exists names,
    snd (getCompanyInfo w rawCompanyName rawLocation parentCompanyName)
    = List.map EvSearch names
    /\ (List.length names <= 2)%nat
    /\ NoDup names
    /\ forall n, In n names ->
         truthy n = true
         /\ startsWith n (js "Excluded") = false
         /\ (n = name (parseCompanyAndLocation rawCompanyName)
             \/ exists p, parentCompanyName = Some p
                          /\ n = name (parseCompanyAndLocation p)).
Proof.
  exists (searchedNames rawCompanyName parentCompanyName).
  split; [apply getCompanyInfo_trace|].
  unfold searchedNames. cbv zeta.
  set (primary := name (parseCompanyAndLocation rawCompanyName)).
  set (first := if truthy primary && negb (startsWith primary (js "Excluded"))
                then [primary] else []).
  assert (Hfirst : first = [] \/ (first = [primary] /\ truthy primary = true
                                  /\ startsWith primary (js "Excluded") = false)).
  { subst first.
    destruct (truthy primary) eqn:Et; [|left; reflexivity].
    destruct (startsWith primary (js "Excluded")) eqn:Ee; [left; reflexivity|].
    right. auto. }
  set (second := match parentCompanyName with Some _ => _ | None => _ end).
  assert (Hsecond :
    second = []
    \/ exists p, parentCompanyName = Some p
                 /\ second = [name (parseCompanyAndLocation p)]
                 /\ truthy (name (parseCompanyAndLocation p)) = true
                 /\ name (parseCompanyAndLocation p) <> primary
                 /\ startsWith (name (parseCompanyAndLocation p)) (js "Excluded")
                    = false).
  { subst second. destruct parentCompanyName as [p|]; [|left; reflexivity].
    destruct (truthy p); [|left; reflexivity].
    destruct (truthy (name (parseCompanyAndLocation p))) eqn:Et;
      [|left; reflexivity].
    destruct (jseqb (name (parseCompanyAndLocation p)) primary) eqn:Ej;
      [left; reflexivity|].
    destruct (startsWith (name (parseCompanyAndLocation p)) (js "Excluded")) eqn:Ee;
      [left; reflexivity|].
    right. exists p. repeat split; auto.
    intros E. rewrite E, jseqb_refl in Ej. discriminate Ej. }
  clearbody first second.
  destruct Hfirst as [->|[-> [Ht He]]];
    destruct Hsecond as [->|[p [Ep [-> [Ht2 [Hne He2]]]]]]; simpl.
  - split; [lia|]. split; [constructor|]. intros n [].
  - split; [lia|]. split; [repeat constructor; intros []|].
    intros n [<-|[]]. repeat split; auto. right. exists p. auto.
  - split; [lia|]. split; [repeat constructor; intros []|].
    intros n [<-|[]]. repeat split; auto.
  - split; [lia|]. split.
    + repeat constructor; [|intros []]. intros [E|[]]. exact (Hne E).
    + intros n [<-|[<-|[]]]; repeat split; auto. right. exists p. auto.
Qed.

End SearchApiMore.

(** ** The job cards of a result page *)

Module ListingFacts.

Lemma In_firstn {A : Type} (n : nat) (l : list A) (x : A) :
  In x (firstn n l) -> In x l.
Proof.
  revert l; induction n as [|n IH]; intros [|y l]; simpl; try tauto.
  intros [H|H]; [left; exact H|right; apply IH; exact H].
Qed.

Lemma length_firstn_le {A : Type} (n : nat) (l : list A) :
  (List.length (firstn n l) <= List.length l)%nat.
Proof. rewrite length_firstn. lia. Qed.

Lemma ensureAbsoluteUrl_http (url : option jsstring) (jobUrl : jsstring) :
  ensureAbsoluteUrl url = Some jobUrl -> startsWith jobUrl (js "http") = true.
Proof.
  destruct url as [u|]; [|discriminate].
  unfold ensureAbsoluteUrl. destruct (negb (truthy u)); [discriminate|].
  destruct (startsWith u (js "http")) eqn:E; intros H; injection H as <-;
    [exact E|].
  vm_compute. reflexivity.
Qed.

Section Page.
Variables (inputTestMode : bool) (inputTestJobLimit processedCount : Z).
Variables (existingUrlsFromDB : list jsstring) (jobCards : list SearchApi.jobCard).

Let outcomes : list SearchApi.cardOutcome :=
  SearchApi.cardOutcomes inputTestMode inputTestJobLimit processedCount
    existingUrlsFromDB jobCards.

Lemma outcome_of_card (o : SearchApi.cardOutcome) :
  In o outcomes -> exists el, In el jobCards
                              /\ o = SearchApi.processCard existingUrlsFromDB el.
Proof.
  unfold outcomes, SearchApi.cardOutcomes. cbv zeta. intros H.
  apply in_map_iff in H as [el [E H]]. exists el. split; [|symmetry; exact E].
  eapply In_firstn. exact H.
Qed.

Lemma listed_in (l : SearchApi.listing) (out : list SearchApi.cardOutcome) :
  In l (SearchApi.listingsOf out) <-> In (SearchApi.Listed l) out.
Proof.
  induction out as [|o out IH]; simpl; [tauto|].
  destruct o; simpl; rewrite IH; split; intros H; auto;
    try (destruct H as [H|H]; [discriminate H|exact H]).
  - destruct H as [->|H]; auto.
  - destruct H as [H|H]; [injection H as ->; auto|auto].
Qed.

Lemma duplicate_in (d : SearchApi.skippedDuplicate)
  (out : list SearchApi.cardOutcome) :
  In d (SearchApi.skippedDuplicateJobs out) <-> In (SearchApi.Duplicate d) out.
Proof.
  induction out as [|o out IH]; simpl; [tauto|].
  destruct o; simpl; rewrite IH; split; intros H; auto;
    try (destruct H as [H|H]; [discriminate H|exact H]).
  - destruct H as [->|H]; auto.
  - destruct H as [H|H]; [injection H as ->; auto|auto].
Qed.

Lemma excluded_in (e : SearchApi.skippedExcluded)
  (out : list SearchApi.cardOutcome) :
  In e (SearchApi.skippedExcludedJobs out) <-> In (SearchApi.ExcludedCompany e) out.
Proof.
  induction out as [|o out IH]; simpl; [tauto|].
  destruct o; simpl; rewrite IH; split; intros H; auto;
    try (destruct H as [H|H]; [discriminate H|exact H]).
  - destruct H as [->|H]; auto.
  - destruct H as [H|H]; [injection H as ->; auto|auto].
Qed.

Lemma outcomes_counted (out : list SearchApi.cardOutcome) :
  (List.length (SearchApi.listingsOf out)
   + List.length (SearchApi.skippedDuplicateJobs out)
   + List.length (SearchApi.skippedExcludedJobs out) <= List.length out)%nat.
Proof. induction out as [|o out IH]; simpl; [lia|]. destruct o; simpl; lia. Qed.

(** X19: of the job cards of a page, the SearchAPI generation lists only
    jobs whose URL is absolute and not yet in the database and whose
    parsed company name does not start with 'Excluded'; title and
    location of a listing are never empty.  Every job it records as a
    duplicate is in the database, every job it records as excluded has an
    Excluded company name, and no card is counted twice. *)
Theorem page_listings_are_new_and_admitted :
  (forall l, In l (SearchApi.listingsOf outcomes) ->
     startsWith (SearchApi.l_url l) (js "http") = true
     /\ arrayIncludes existingUrlsFromDB (SearchApi.l_url l) = false
     /\ startsWith (SearchApi.l_company l) (js "Excluded") = false
     /\ truthy (SearchApi.l_title l) = true
     /\ truthy (SearchApi.l_location l) = true)
  /\ (forall d, In d (SearchApi.skippedDuplicateJobs outcomes) ->
        arrayIncludes existingUrlsFromDB (SearchApi.sd_url d) = true)
  /\ (forall e, In e (SearchApi.skippedExcludedJobs outcomes) ->
        startsWith (SearchApi.se_reason e) (js "Excluded") = true
        /\ SearchApi.se_reason e
           = name (SearchApi.parseCompanyAndLocation (SearchApi.se_rawCompany e)))
  /\ (List.length (SearchApi.listingsOf outcomes)
      + List.length (SearchApi.skippedDuplicateJobs outcomes)
      + List.length (SearchApi.skippedExcludedJobs outcomes)
      <= List.length jobCards)%nat.
Proof.
  assert (Hor : forall a b, truthy (orElse a b) = truthy a || truthy b).
  { intros a b. unfold orElse. destruct (truthy a) eqn:E; [exact E|reflexivity]. }
  split; [|split; [|split]].
  - intros l H. apply listed_in, outcome_of_card in H as [el [_ H]].
    unfold SearchApi.processCard in H. cbv zeta in H.
    destruct (ensureAbsoluteUrl (SearchApi.card_href el)) as [jobUrl|] eqn:Eu;
      [|discriminate H].
    destruct (arrayIncludes existingUrlsFromDB jobUrl) eqn:Ex; [discriminate H|].
    destruct (startsWith _ (js "Excluded")) eqn:Ee; [discriminate H|].
    injection H as ->. cbn [SearchApi.l_url SearchApi.l_company SearchApi.l_title
                            SearchApi.l_location].
    split; [exact (ensureAbsoluteUrl_http _ Eu)|]. split; [exact Ex|].
    split; [exact Ee|]. split.
    + rewrite Hor. apply orb_true_r.
    + destruct (negb (truthy _)) eqn:Et; [reflexivity|].
      apply negb_false_iff in Et. exact Et.
  - intros d H. apply duplicate_in, outcome_of_card in H as [el [_ H]].
    unfold SearchApi.processCard in H. cbv zeta in H.
    destruct (ensureAbsoluteUrl (SearchApi.card_href el)) as [jobUrl|];
      [|discriminate H].
    destruct (arrayIncludes existingUrlsFromDB jobUrl) eqn:Ex.
    + injection H as ->. exact Ex.
    + destruct (startsWith _ (js "Excluded")); discriminate H.
  - intros e H. apply excluded_in, outcome_of_card in H as [el [_ H]].
    unfold SearchApi.processCard in H. cbv zeta in H.
    destruct (ensureAbsoluteUrl (SearchApi.card_href el)) as [jobUrl|];
      [|discriminate H].
    destruct (arrayIncludes existingUrlsFromDB jobUrl); [discriminate H|].
    destruct (startsWith _ (js "Excluded")) eqn:Ee; [|discriminate H].
    injection H as ->. split; [exact Ee|reflexivity].
  - etransitivity; [apply outcomes_counted|].
    unfold outcomes, SearchApi.cardOutcomes. cbv zeta.
    rewrite length_map. apply length_firstn_le.
Qed.

End Page.

Lemma searchApi_parse_excludes (e x pre post : jsstring) :
  In e SearchApi.EXCLUDED_COMPANIES ->
  toLowerCase x = e ->
  startsWith (name (SearchApi.parseCompanyAndLocation (pre ++ x ++ post)))
             (js "Excluded") = true.
Proof.
  intros Hin Hx.
  assert (Hall : forallb (fun e => truthy e && forallb kept e
                                   && negb (includes (js "unknown") e))
                         SearchApi.EXCLUDED_COMPANIES = true)
    by (vm_compute; reflexivity).
  rewrite forallb_forall in Hall. specialize (Hall e Hin).
  apply andb_prop in Hall as [Hall Hu]. apply andb_prop in Hall as [Ht Hk].
  apply negb_true_iff in Hu.
  apply parse_excludes_embedded with (e := e); auto.
  intros ->. discriminate Ht.
Qed.

(** X20: a card with a new link whose company text holds an entry of the
    exclusion list, in any capitals and with any text before and after
    it, is never listed by the SearchAPI generation: it is recorded as
    excluded, under its URL. *)
Theorem excluded_company_card_is_not_listed (existingUrlsFromDB : list jsstring)
  (el : SearchApi.jobCard) (jobUrl e x pre post : jsstring) :
  ensureAbsoluteUrl (SearchApi.card_href el) = Some jobUrl ->
  arrayIncludes existingUrlsFromDB jobUrl = false ->
  In e SearchApi.EXCLUDED_COMPANIES ->
  toLowerCase x = e ->
  trim (SearchApi.card_company el) = pre ++ x ++ post ->
  exists skipped,
    SearchApi.processCard existingUrlsFromDB el = SearchApi.ExcludedCompany skipped
    /\ SearchApi.se_url skipped = jobUrl
    /\ SearchApi.se_rawCompany skipped = pre ++ x ++ post.
Proof.
  intros Hu Hn Hin Hx Hc.
  pose proof (searchApi_parse_excludes x pre post Hin Hx) as Hp.
  assert (Ht : truthy (pre ++ x ++ post) = true).
  { destruct x as [|c x].
    - exfalso. simpl in Hx. subst e.
      assert (H : forallb truthy SearchApi.EXCLUDED_COMPANIES = true)
        by (vm_compute; reflexivity).
      rewrite forallb_forall in H. specialize (H [] Hin). discriminate H.
    - destruct pre; reflexivity. }
  assert (Ho : orElse (pre ++ x ++ post) (js "Unknown") = pre ++ x ++ post)
    by (unfold orElse; rewrite Ht; reflexivity).
  unfold SearchApi.processCard. cbv zeta. rewrite Hu, Hn, Hc, Ho, Hp.
  eexists. split; [reflexivity|]. split; reflexivity.
Qed.

Definition compassCard : SearchApi.jobCard :=
  SearchApi.mkJobCard (Some (js "/jobs/1-line-cook")) (js "Line Cook")
    (js " Compass Group USA ") (Some (js "Boston, MA")) (js "Full Time").

Lemma excluded_company_card_is_not_listed_witness :
  exists skipped,
    SearchApi.processCard [] compassCard = SearchApi.ExcludedCompany skipped
    /\ SearchApi.se_url skipped = js "https://culinaryagents.com/jobs/1-line-cook"
    /\ SearchApi.se_rawCompany skipped = [] ++ js "Compass" ++ js " Group USA".
Proof.
  apply (@excluded_company_card_is_not_listed [] compassCard
           (js "https://culinaryagents.com/jobs/1-line-cook")
           (js "compass") (js "Compass") [] (js " Group USA")).
  - vm_compute. reflexivity.
  - reflexivity.
  - apply arrayIncludes_In. vm_compute. reflexivity.
  - vm_compute. reflexivity.
  - vm_compute. reflexivity.
Defined.

(** X21: the Hunter generation, whose set of known URLs is created
    empty and which never looks at the parsed company name, lists every
    card that has a link, in card order, an excluded company's like any
    other: outside test mode the URLs of its listings are the absolute
    forms of all the links of the page. *)
Theorem hunter_lists_every_linked_card (processedCount : Z)
  (jobCards : list Hunter.jobCard) :
  List.map Hunter.l_url (Hunter.collectListings processedCount jobCards)
  = Hunter.dropNulls
      (List.map (fun el => ensureAbsoluteUrl (Hunter.card_href el))
                        jobCards)
  /\ forall l, In l (Hunter.collectListings processedCount jobCards) ->
       exists el, In el jobCards
                  /\ Hunter.l_company l
                     = name (Hunter.parseCompanyAndLocation
                               (orElse (trim (Hunter.card_company el))
                                       (js "Unknown"))).
Proof.
  unfold Hunter.collectListings. cbv zeta. unfold Hunter.TEST_MODE.
  cbv iota. unfold len. rewrite Nat2Z.id, firstn_all. split.
  - induction jobCards as [|el cards IH]; [reflexivity|].
    simpl. unfold Hunter.cardListing at 1.
    destruct (ensureAbsoluteUrl (Hunter.card_href el)) as [jobUrl|];
      [|exact IH].
    change (arrayIncludes Hunter.existingUrls jobUrl) with false. cbv iota zeta.
    simpl. f_equal. exact IH.
  - intros l H. apply ScorerFacts.In_dropNulls, in_map_iff in H as [el [E H]].
    exists el. split; [exact H|].
    unfold Hunter.cardListing in E.
    destruct (ensureAbsoluteUrl (Hunter.card_href el)) as [jobUrl|];
      [|discriminate E].
    change (arrayIncludes Hunter.existingUrls jobUrl) with false in E.
    cbv iota zeta in E. injection E as <-. reflexivity.
Qed.

End ListingFacts.

(** ** Runs of white space *)

(** Where a run of white space that starts at a position ends. *)
Fixpoint skipSpaces (i : nat) (pv : option char) (s : jsstring) : pos :=
  match s with
  | c :: t => if isWhiteSpace c then skipSpaces (S i) (Some c) t else mkPos i pv s
  | [] => mkPos i pv []
  end.

Lemma skipSpaces_rest (i : nat) (pv : option char) (s : jsstring) :
  rest (skipSpaces i pv s) = trimStart s.
Proof.
  revert i pv; induction s as [|c t IH]; intros i pv; simpl; [reflexivity|].
  destruct (isWhiteSpace c); [apply IH|reflexivity].
Qed.

Lemma skipSpaces_idx (i : nat) (pv : option char) (s : jsstring) :
  (i <= idx (skipSpaces i pv s))%nat.
Proof.
  revert i pv; induction s as [|c t IH]; intros i pv; simpl; [lia|].
  destruct (isWhiteSpace c); [|simpl; lia].
  specialize (IH (S i) (Some c)). lia.
Qed.

Lemma length_trimStart (s : jsstring) :
  (List.length (trimStart s) <= List.length s)%nat.
Proof.
  induction s as [|c t IH]; simpl; [lia|].
  destruct (isWhiteSpace c); simpl; lia.
Qed.

Lemma inSet_space (c : char) :
  xorb false (inSet false [CSpace] c) = isWhiteSpace c.
Proof.
  unfold inSet. cbn [existsb inItem andb]. rewrite !orb_false_r.
  apply xorb_false_l.
Qed.

(** The loop of [\s*], with its fuel. *)
Definition spacesLoop (k : cont) : nat -> pos -> caps -> option (pos * caps) :=
  fix loop (fuel : nat) (p0 : pos) (c0 : caps) {struct fuel}
    : option (pos * caps) :=
    match fuel with
    | O => k p0 c0
    | S f =>
        match m false RSpace p0 c0
                (fun p1 c1 =>
                   if Nat.eqb (idx p1) (idx p0) then None
                   else loop f p1 c1) with
        | Some x => Some x
        | None => k p0 c0
        end
    end.

Lemma m_space (p : pos) (cs : caps) (k : cont) :
  m false RSpace p cs k =
  match rest p with
  | c :: t => if isWhiteSpace c then k (mkPos (S (idx p)) (Some c) t) cs else None
  | [] => None
  end.
Proof.
  unfold RSpace. cbn [m]. unfold step1. destruct (rest p) as [|c t]; [reflexivity|].
  rewrite inSet_space. destruct (isWhiteSpace c); reflexivity.
Qed.

Lemma m_star_space (p : pos) (cs : caps) (k : cont) :
  m false (RStar RSpace) p cs k = spacesLoop k (S (List.length (rest p))) p cs.
Proof. reflexivity. Qed.

Lemma spacesLoop_unfold (k : cont) (fuel : nat) (p0 : pos) (c0 : caps) :
  spacesLoop k (S fuel) p0 c0 =
  match m false RSpace p0 c0
          (fun p1 c1 =>
             if Nat.eqb (idx p1) (idx p0) then None
             else spacesLoop k fuel p1 c1) with
  | Some x => Some x
  | None => k p0 c0
  end.
Proof. reflexivity. Qed.

Lemma spacesLoop_run (fuel : nat) (s : jsstring) (i : nat) (pv : option char)
  (cs : caps) :
  (List.length s < fuel)%nat ->
  spacesLoop (fun p' c => Some (p', c)) fuel (mkPos i pv s) cs
  = Some (skipSpaces i pv s, cs).
Proof.
  revert fuel i pv; induction s as [|c t IH]; intros fuel i pv Hlen.
  - destruct fuel; reflexivity.
  - destruct fuel as [|fuel]; [simpl in Hlen; lia|].
    rewrite spacesLoop_unfold, m_space. cbn [rest idx skipSpaces].
    destruct (isWhiteSpace c); [|reflexivity].
    replace (S i =? i)%nat with false by (symmetry; apply Nat.eqb_neq; lia).
    rewrite IH by (simpl in Hlen; lia). reflexivity.
Qed.

Lemma matchAt_ws (i : nat) (pv : option char) (s : jsstring) :
  matchAt false ws (mkPos i pv s) =
  match s with
  | c :: t => if isWhiteSpace c then Some (skipSpaces (S i) (Some c) t, [])
              else None
  | [] => None
  end.
Proof.
  change (matchAt false ws (mkPos i pv s))
    with (m false RSpace (mkPos i pv s) []
            (fun p1 c1 => m false (RStar RSpace) p1 c1 (fun p' c => Some (p', c)))).
  rewrite m_space. cbn [rest idx].
  destruct s as [|c t]; [reflexivity|].
  destruct (isWhiteSpace c); [|reflexivity].
  rewrite m_star_space. apply spacesLoop_run. cbn [rest]. lia.
Qed.

Definition notSpace (c : char) : bool := negb (isWhiteSpace c).

Lemma searchFrom_ws (s : jsstring) (i : nat) (pv : option char) :
  match searchFrom false ws i pv s with
  | None => forallb notSpace s = true
  | Some mr =>
      exists pre c t,
        s = pre ++ c :: t /\ forallb notSpace pre = true /\ isWhiteSpace c = true
        /\ m_index mr = (i + List.length pre)%nat
        /\ m_end mr = skipSpaces (S (i + List.length pre)) (Some c) t
  end.
Proof.
  revert i pv; induction s as [|c t IH]; intros i pv.
  - reflexivity.
  - cbn [searchFrom]. rewrite matchAt_ws.
    destruct (isWhiteSpace c) eqn:Ec.
    + exists [], c, t. simpl. rewrite Nat.add_0_r. auto.
    + specialize (IH (S i) (Some c)).
      destruct (searchFrom false ws (S i) (Some c) t) as [mr|].
      * destruct IH as [pre [c' [t' [E [Hpre [Hc [Hi He]]]]]]].
        exists (c :: pre), c', t'. simpl. unfold notSpace at 1. rewrite Ec, Hpre, E.
        repeat split; try assumption.
        -- rewrite Hi. lia.
        -- rewrite He. f_equal. lia.
      * simpl. unfold notSpace at 1. rewrite Ec, IH. reflexivity.
Qed.

(** Every run of white space replaced by [r]. *)
Fixpoint squash (r : jsstring) (inRun : bool) (s : jsstring) : jsstring :=
  match s with
  | [] => []
  | c :: t =>
      if isWhiteSpace c
      then (if inRun then squash r true t else r ++ squash r true t)
      else c :: squash r false t
  end.

Lemma squash_run (r s : jsstring) :
  squash r true s = squash r false (trimStart s).
Proof.
  induction s as [|c t IH]; simpl; [reflexivity|].
  destruct (isWhiteSpace c) eqn:E; [exact IH|]. simpl. rewrite E. reflexivity.
Qed.

Lemma squash_words (r pre s : jsstring) :
  forallb notSpace pre = true ->
  squash r false (pre ++ s) = pre ++ squash r false s.
Proof.
  induction pre as [|c pre IH]; intros H; [reflexivity|].
  simpl in H. apply andb_prop in H as [Hc H]. unfold notSpace in Hc.
  apply negb_true_iff in Hc. simpl. rewrite Hc, (IH H). reflexivity.
Qed.

Lemma replaceAllFrom_ws (r : jsstring) (fuel : nat) (s : jsstring) (i : nat)
  (pv : option char) :
  (List.length s < fuel)%nat ->
  replaceAllFrom fuel false ws (fun _ => r) (mkPos i pv s) = squash r false s.
Proof.
  revert s i pv; induction fuel as [|fuel IH]; intros s i pv Hlen; [lia|].
  cbn [replaceAllFrom rest idx prev].
  pose proof (searchFrom_ws s i pv) as Hs.
  destruct (searchFrom false ws i pv s) as [mr|].
  - destruct Hs as [pre [c [t [E [Hpre [Hc [Hi He]]]]]]].
    rewrite Hi, He.
    pose proof (skipSpaces_idx (S (i + List.length pre)) (Some c) t) as Hidx.
    pose proof (skipSpaces_rest (S (i + List.length pre)) (Some c) t) as Hrest.
    destruct (skipSpaces (S (i + List.length pre)) (Some c) t) as [i' pv' s'].
    cbn [idx rest] in *.
    replace (i' =? i + List.length pre)%nat with false
      by (symmetry; apply Nat.eqb_neq; lia).
    replace (i + List.length pre - i)%nat with (List.length pre) by lia.
    subst s. rewrite firstn_app, firstn_all, Nat.sub_diag. simpl firstn.
    rewrite app_nil_r, (@squash_words r pre _ Hpre). f_equal.
    simpl squash. rewrite Hc, squash_run. f_equal. subst s'. apply IH.
    pose proof (length_trimStart t). rewrite length_app in Hlen. simpl in Hlen. lia.
  - rewrite <- (app_nil_r s) at 2. rewrite (@squash_words r s [] Hs), app_nil_r.
    reflexivity.
Qed.

Lemma squash_nothing (b : bool) (s : jsstring) : squash [] b s = filter notSpace s.
Proof.
  revert b; induction s as [|c t IH]; intros b; simpl; [reflexivity|].
  unfold notSpace at 1. destruct (isWhiteSpace c); simpl.
  - destruct b; apply IH.
  - f_equal. apply IH.
Qed.

(** [s.replace(/\s+/g, '')] removes the white space and nothing else. *)
Lemma removeSpaces_filter (s : jsstring) : removeSpaces s = filter notSpace s.
Proof.
  unfold removeSpaces, replaceAll. rewrite replaceAllFrom_ws by lia.
  apply squash_nothing.
Qed.

(** [s.replace(/\s+/g, ' ')] *)
Lemma collapseSpaces_squash (s : jsstring) :
  replaceAll false ws (fun _ => js " ") s = squash (js " ") false s.
Proof. unfold replaceAll. apply replaceAllFrom_ws. lia. Qed.

(** No white space but single plain spaces between other characters;
    [afterSpace] says that the character before was white space (or that
    the text starts here). *)
Fixpoint singleSpaced (afterSpace : bool) (s : jsstring) : bool :=
  match s with
  | [] => true
  | c :: t =>
      if isWhiteSpace c
      then negb afterSpace && N.eqb c 32 && singleSpaced true t
      else singleSpaced false t
  end.

Lemma singleSpaced_squash (b : bool) (s : jsstring) :
  singleSpaced b (squash (js " ") b s) = true.
Proof.
  revert b; induction s as [|c t IH]; intros b; simpl; [reflexivity|].
  destruct (isWhiteSpace c) eqn:E.
  - destruct b; [apply IH|]. simpl. apply IH.
  - simpl. rewrite E. apply IH.
Qed.

Lemma singleSpaced_trimStart (b : bool) (s : jsstring) :
  singleSpaced b s = true -> singleSpaced true (trimStart s) = true.
Proof.
  revert b; induction s as [|c t IH]; intros b; simpl; [auto|].
  destruct (isWhiteSpace c) eqn:E.
  - intros H. apply andb_prop in H as [_ H]. apply (IH true H).
  - simpl. rewrite E. auto.
Qed.

Lemma singleSpaced_prefix (b : bool) (a c : jsstring) :
  singleSpaced b (a ++ c) = true -> singleSpaced b a = true.
Proof.
  revert b; induction a as [|x a IH]; intros b; simpl; [reflexivity|].
  destruct (isWhiteSpace x).
  - intros H. apply andb_prop in H as [H1 H]. rewrite H1. apply (IH true H).
  - apply IH.
Qed.

Lemma trimStart_suffix (s : jsstring) : exists pre, s = pre ++ trimStart s.
Proof.
  induction s as [|c t [pre IH]]; [exists []; reflexivity|]. simpl.
  destruct (isWhiteSpace c); [|exists []; reflexivity].
  exists (c :: pre). simpl. f_equal. exact IH.
Qed.

Lemma trimEnd_prefix (s : jsstring) : exists post, s = trimEnd s ++ post.
Proof.
  unfold trimEnd. destruct (trimStart_suffix (rev s)) as [pre E].
  exists (rev pre). rewrite <- rev_app_distr, <- E, rev_involutive. reflexivity.
Qed.

Lemma trimStart_idempotent (s : jsstring) : trimStart (trimStart s) = trimStart s.
Proof.
  induction s as [|c t IH]; [reflexivity|]. simpl.
  destruct (isWhiteSpace c) eqn:E; [exact IH|]. simpl. rewrite E. reflexivity.
Qed.

Lemma trimEnd_idempotent (s : jsstring) : trimEnd (trimEnd s) = trimEnd s.
Proof.
  unfold trimEnd. rewrite rev_involutive, trimStart_idempotent. reflexivity.
Qed.

Lemma singleSpaced_no_leading (s : jsstring) :
  singleSpaced true s = true -> trimStart s = s.
Proof.
  destruct s as [|c t]; [reflexivity|]. simpl.
  destruct (isWhiteSpace c); [discriminate|reflexivity].
Qed.

(** A trimmed, squashed text is tidy, and trimming it again changes
    nothing. *)
Lemma trim_squash_tidy (s : jsstring) :
  let r := trim (squash (js " ") false s) in
  singleSpaced true r = true /\ trim r = r.
Proof.
  cbv zeta. unfold trim at 1 3.
  set (u := trimStart (squash (js " ") false s)).
  assert (Hu : singleSpaced true u = true).
  { apply singleSpaced_trimStart with (b := false). apply singleSpaced_squash. }
  assert (He : singleSpaced true (trimEnd u) = true).
  { destruct (trimEnd_prefix u) as [post E]. rewrite E in Hu.
    apply singleSpaced_prefix in Hu. exact Hu. }
  split; [exact He|].
  unfold trim. rewrite (singleSpaced_no_leading _ He). apply trimEnd_idempotent.
Qed.

(** X22: [s.replace(/\s+/g, '')], the normalisation every exclusion check
    uses, removes the white-space characters and nothing else: what is
    left are the other characters in their order, a text without white
    space is left as it is, and the result holds no white space. *)
Theorem removeSpaces_removes_white_space (s : jsstring) :
  removeSpaces s = filter notSpace s
  /\ forallb notSpace (removeSpaces s) = true
  /\ (forallb notSpace s = true -> removeSpaces s = s)
  /\ removeSpaces (removeSpaces s) = removeSpaces s.
Proof.
  rewrite !removeSpaces_filter. split; [reflexivity|]. split; [|split].
  - apply forallb_forall. intros c Hc. apply filter_In in Hc. tauto.
  - intros H. induction s as [|c t IH]; [reflexivity|]. simpl in *.
    apply andb_prop in H as [Hc H]. rewrite Hc, (IH H). reflexivity.
  - induction s as [|c t IH]; [reflexivity|]. simpl.
    destruct (notSpace c) eqn:E; [|exact IH]. simpl. rewrite E, IH. reflexivity.
Qed.

(** ** What a match consumes *)

(** [q] lies [t] further on in the subject than [p]. *)
Definition consumed (p : pos) (t : jsstring) (q : pos) : Prop :=
  rest p = t ++ rest q /\ idx q = (idx p + List.length t)%nat.

Lemma consumed_refl (p : pos) : consumed p [] p.
Proof. split; [reflexivity|simpl; lia]. Qed.

Lemma consumed_trans (p q r : pos) (t u : jsstring) :
  consumed p t q -> consumed q u r -> consumed p (t ++ u) r.
Proof.
  intros [E1 I1] [E2 I2]. split.
  - rewrite E1, E2, app_assoc. reflexivity.
  - rewrite I2, I1, length_app. lia.
Qed.

Lemma step1_consumed (p q : pos) (ok : char -> bool) :
  step1 p ok = Some q -> exists c, consumed p [c] q.
Proof.
  unfold step1. destruct (rest p) as [|c t] eqn:E; [discriminate|].
  destruct (ok c); [|discriminate]. intros H. injection H as <-.
  exists c. split; simpl; [exact E|lia].
Qed.

(** A pattern without capture groups. *)
Fixpoint groupFree (r : regex) : bool :=
  match r with
  | RSeq r1 r2 | RAlt r1 r2 => groupFree r1 && groupFree r2
  | RStar r1 | ROpt r1 => groupFree r1
  | RGroup _ _ => false
  | _ => true
  end.

(** The loop of [r*], with its fuel. *)
Definition starLoop (ci : bool) (r1 : regex) (k : cont)
  : nat -> pos -> caps -> option (pos * caps) :=
  fix loop (fuel : nat) (p0 : pos) (c0 : caps) {struct fuel}
    : option (pos * caps) :=
    match fuel with
    | O => k p0 c0
    | S f =>
        match m ci r1 p0 c0
                (fun p1 c1 =>
                   if Nat.eqb (idx p1) (idx p0) then None
                   else loop f p1 c1) with
        | Some x => Some x
        | None => k p0 c0
        end
    end.

Lemma m_star (ci : bool) (r1 : regex) (p : pos) (cs : caps) (k : cont) :
  m ci (RStar r1) p cs k = starLoop ci r1 k (S (List.length (rest p))) p cs.
Proof. reflexivity. Qed.

Lemma starLoop_unfold (ci : bool) (r1 : regex) (k : cont) (fuel : nat)
  (p0 : pos) (c0 : caps) :
  starLoop ci r1 k (S fuel) p0 c0 =
  match m ci r1 p0 c0
          (fun p1 c1 =>
             if Nat.eqb (idx p1) (idx p0) then None
             else starLoop ci r1 k fuel p1 c1) with
  | Some x => Some x
  | None => k p0 c0
  end.
Proof. reflexivity. Qed.

(** Whatever a match answers, its continuation answered, at a position
    further on; a pattern without groups hands the captures on as they
    are. *)
Lemma m_sound (ci : bool) (r : regex) :
  forall (p : pos) (cs : caps) (k : cont) (res : pos * caps),
    m ci r p cs k = Some res ->
    exists q cs' t,
      k q cs' = Some res /\ consumed p t q
      /\ (groupFree r = true -> cs' = cs).
Proof.
  induction r as [| c | | neg items | r1 IH1 r2 IH2 | r1 IH1 r2 IH2 | r1 IH1
                 | r1 IH1 | n r1 IH1 | | | ]; intros p cs k res;
    try rewrite m_star; cbn [m].
  - intros H. exists p, cs, []. auto using consumed_refl.
  - destruct (step1 p (charEq ci c)) as [q|] eqn:E; [|discriminate].
    intros H. apply step1_consumed in E as [x E]. exists q, cs, [x]. auto.
  - destruct (step1 p _) as [q|] eqn:E; [|discriminate].
    intros H. apply step1_consumed in E as [x E]. exists q, cs, [x]. auto.
  - destruct (step1 p _) as [q|] eqn:E; [|discriminate].
    intros H. apply step1_consumed in E as [x E]. exists q, cs, [x]. auto.
  - intros H. apply IH1 in H as [q1 [c1 [t1 [H [C1 G1]]]]].
    apply IH2 in H as [q2 [c2 [t2 [H [C2 G2]]]]].
    exists q2, c2, (t1 ++ t2). split; [exact H|]. split.
    + eapply consumed_trans; eauto.
    + cbn [groupFree]. intros G. apply andb_prop in G as [Ga Gb].
      rewrite (G2 Gb), (G1 Ga). reflexivity.
  - cbn [groupFree].
    destruct (m ci r1 p cs k) as [x|] eqn:E.
    + intros H. injection H as <-. apply IH1 in E as [q [c1 [t [H [C G]]]]].
      exists q, c1, t. split; [exact H|]. split; [exact C|].
      intros G'. apply andb_prop in G' as [Ga _]. exact (G Ga).
    + intros H. apply IH2 in H as [q [c1 [t [H [C G]]]]].
      exists q, c1, t. split; [exact H|]. split; [exact C|].
      intros G'. apply andb_prop in G' as [_ Gb]. exact (G Gb).
  - cbn [groupFree].
    generalize (S (List.length (rest p))). intros fuel.
    revert p cs. induction fuel as [|fuel IHf]; intros p cs.
    + intros H. exists p, cs, []. auto using consumed_refl.
    + rewrite starLoop_unfold. destruct (m ci r1 p cs _) as [x|] eqn:E.
      * intros H. injection H as <-.
        apply IH1 in E as [q1 [c1 [t1 [H [C1 G1]]]]].
        destruct (Nat.eqb (idx q1) (idx p)); [discriminate|].
        apply IHf in H as [q2 [c2 [t2 [H [C2 G2]]]]].
        exists q2, c2, (t1 ++ t2). split; [exact H|]. split.
        -- eapply consumed_trans; eauto.
        -- intros G. rewrite (G2 G), (G1 G). reflexivity.
      * intros H. exists p, cs, []. auto using consumed_refl.
  - cbn [groupFree].
    destruct (m ci r1 p cs k) as [x|] eqn:E.
    + intros H. injection H as <-. apply IH1 in E as [q [c1 [t [H [C G]]]]].
      exists q, c1, t. auto.
    + intros H. exists p, cs, []. auto using consumed_refl.
  - intros H. apply IH1 in H as [q [c1 [t [H [C G]]]]].
    exists q, ((n, firstn (idx q - idx p) (rest p)) :: c1), t.
    split; [exact H|]. split; [exact C|]. discriminate.
  - destruct (Nat.eqb (idx p) 0); [|discriminate].
    intros H. exists p, cs, []. auto using consumed_refl.
  - destruct (rest p); [|discriminate].
    intros H. exists p, cs, []. auto using consumed_refl.
  - destruct (atWordBoundary p); [|discriminate].
    intros H. exists p, cs, []. auto using consumed_refl.
Qed.

Lemma group_two (t1 t2 : jsstring) :
  group 1 [(2%nat, t2); (1%nat, t1)] = t1 /\ group 2 [(2%nat, t2); (1%nat, t1)] = t2.
Proof. split; reflexivity. Qed.

(** A match of [(a)(b)]: the two captures make up the matched text. *)
Lemma matchAt_two_groups (ci : bool) (a b : regex) (p pe : pos) (cs : caps) :
  groupFree a = true -> groupFree b = true ->
  matchAt ci (RSeq (RGroup 1 a) (RGroup 2 b)) p = Some (pe, cs) ->
  consumed p (group 1 cs ++ group 2 cs) pe.
Proof.
  intros Ga Gb. unfold matchAt. cbn [m]. intros H.
  apply m_sound in H as [q1 [c1 [t1 [H [C1 G1]]]]].
  apply m_sound in H as [q2 [c2 [t2 [H [C2 G2]]]]].
  rewrite (G2 Gb), (G1 Ga) in H. injection H as <- <-.
  destruct C1 as [E1 I1], C2 as [E2 I2].
  cbn [group Nat.eqb].
  replace (idx q2 - idx q1)%nat with (List.length t2) by lia.
  replace (idx q1 - idx p)%nat with (List.length t1) by lia.
  rewrite E1, E2.
  rewrite (firstn_app (List.length t2) t2), firstn_all, Nat.sub_diag.
  rewrite (firstn_app (List.length t1) t1), firstn_all, Nat.sub_diag.
  cbn [firstn]. rewrite !app_nil_r.
  split.
  - rewrite E1, E2, app_assoc. reflexivity.
  - rewrite I2, I1, length_app. lia.
Qed.

(** Where the leftmost match was found. *)
Lemma searchFrom_sound (ci : bool) (r : regex) (s : jsstring) (i : nat)
  (pv : option char) (mr : mres) :
  searchFrom ci r i pv s = Some mr ->
  exists pre suf pv',
    s = pre ++ suf /\ m_index mr = (i + List.length pre)%nat
    /\ matchAt ci r (mkPos (i + List.length pre) pv' suf)
       = Some (m_end mr, m_groups mr).
Proof.
  revert i pv; induction s as [|x t IH]; intros i pv; cbn [searchFrom].
  - destruct (matchAt ci r (mkPos i pv [])) as [[pe c]|] eqn:E; [|discriminate].
    intros H. injection H as <-. exists [], [], pv. simpl.
    rewrite Nat.add_0_r. auto.
  - destruct (matchAt ci r (mkPos i pv (x :: t))) as [[pe c]|] eqn:E.
    + intros H. injection H as <-. exists [], (x :: t), pv. simpl.
      rewrite Nat.add_0_r. auto.
    + intros H. apply IH in H as [pre [suf [pv' [Es [Ei Em]]]]].
      exists (x :: pre), suf, pv'. simpl. rewrite Es.
      replace (i + S (List.length pre))%nat with (S i + List.length pre)%nat by lia.
      auto.
Qed.

(** Replacing every match of [(a)(b)] by [$1 $2] changes white space
    only. *)
Lemma replaceAllFrom_spacing (ci : bool) (a b : regex) :
  groupFree a = true -> groupFree b = true ->
  forall (fuel : nat) (p : pos),
    filter notSpace
      (replaceAllFrom fuel ci (RSeq (RGroup 1 a) (RGroup 2 b)) dollar1Space2 p)
    = filter notSpace (rest p).
Proof.
  intros Ga Gb. induction fuel as [|fuel IH]; intros p; [reflexivity|].
  cbn [replaceAllFrom].
  destruct (searchFrom ci _ (idx p) (prev p) (rest p)) as [mr|] eqn:Es;
    [|reflexivity].
  apply searchFrom_sound in Es as [pre [suf [pv' [E [Ei Em]]]]].
  apply (@matchAt_two_groups ci a b _ _ _ Ga Gb) in Em as [Ec Ie]. cbn [rest idx] in Ec, Ie.
  cbv zeta. rewrite Ei.
  replace (idx p + List.length pre - idx p)%nat with (List.length pre) by lia.
  rewrite E, firstn_app, firstn_all, Nat.sub_diag. cbn [firstn].
  rewrite app_nil_r.
  change (dollar1Space2 mr)
    with (group 1 (m_groups mr) ++ js " " ++ group 2 (m_groups mr)).
  set (t1 := group 1 (m_groups mr)) in *. set (t2 := group 2 (m_groups mr)) in *.
  destruct (Nat.eqb (idx (m_end mr)) (idx p + List.length pre)).
  - destruct (rest (m_end mr)) as [|c t] eqn:Er.
    + rewrite Ec, !filter_app. simpl. rewrite !app_nil_r. reflexivity.
    + rewrite Ec, !filter_app. cbn [filter].
      change (filter notSpace (js " ")) with (@nil char).
      specialize (IH (mkPos (S (idx (m_end mr))) (Some c) t)). cbn [rest] in IH.
      rewrite IH. destruct (notSpace c); reflexivity.
  - rewrite Ec, !filter_app, IH.
    change (filter notSpace (js " ")) with (@nil char). reflexivity.
Qed.

Lemma replaceAll_spacing (ci : bool) (a b : regex) (s : jsstring) :
  groupFree a = true -> groupFree b = true ->
  filter notSpace (replaceAll ci (RSeq (RGroup 1 a) (RGroup 2 b)) dollar1Space2 s)
  = filter notSpace s.
Proof.
  intros Ga Gb. unfold replaceAll. apply (@replaceAllFrom_spacing ci a b Ga Gb).
Qed.

Lemma filter_notSpace_trimStart (s : jsstring) :
  filter notSpace (trimStart s) = filter notSpace s.
Proof.
  induction s as [|c t IH]; [reflexivity|].
  assert (Hn : notSpace c = negb (isWhiteSpace c)) by reflexivity.
  cbn [trimStart]. destruct (isWhiteSpace c) eqn:E; [|reflexivity].
  rewrite IH. cbn [filter]. rewrite Hn. reflexivity.
Qed.

Lemma filter_notSpace_trim (s : jsstring) :
  filter notSpace (trim s) = filter notSpace s.
Proof.
  unfold trim, trimEnd.
  rewrite filter_rev, filter_notSpace_trimStart, <- filter_rev, rev_involutive.
  apply filter_notSpace_trimStart.
Qed.

Lemma filter_notSpace_squash (b : bool) (s : jsstring) :
  filter notSpace (squash (js " ") b s) = filter notSpace s.
Proof.
  revert b; induction s as [|c t IH]; intros b; [reflexivity|].
  assert (Hn : notSpace c = negb (isWhiteSpace c)) by reflexivity.
  cbn [squash]. destruct (isWhiteSpace c) eqn:E.
  - cbn [filter]. rewrite Hn. cbn [negb].
    destruct b; [apply IH|]. rewrite filter_app, IH. reflexivity.
  - cbn [filter]. rewrite Hn. cbn [negb]. f_equal. apply IH.
Qed.

Lemma filter_notSpace_nil (s : jsstring) :
  filter notSpace s = [] -> forallb isWhiteSpace s = true.
Proof.
  induction s as [|c t IH]; [reflexivity|].
  assert (Hn : notSpace c = negb (isWhiteSpace c)) by reflexivity.
  cbn [filter forallb]. rewrite Hn.
  destruct (isWhiteSpace c); cbn [negb andb]; [exact IH|discriminate].
Qed.

(** X23: [cleanLocationText] changes white space only: the characters
    of its answer that are not white space are those of the input, in
    their order.  For an input made of white space only, the empty one
    among them, the input itself comes back; for every other input the
    answer is not empty, neither starts nor ends with white space, and
    its only white space is single plain spaces between other
    characters. *)
Theorem cleanLocationText_tidy (input : jsstring) :
  truthy (SearchApi.cleanLocationText input) = truthy input
  /\ filter notSpace (SearchApi.cleanLocationText input) = filter notSpace input
  /\ ((forallb isWhiteSpace input = true
       /\ SearchApi.cleanLocationText input = input)
      \/ (truthy (SearchApi.cleanLocationText input) = true
          /\ singleSpaced true (SearchApi.cleanLocationText input) = true
          /\ trim (SearchApi.cleanLocationText input)
             = SearchApi.cleanLocationText input)).
Proof.
  unfold SearchApi.cleanLocationText.
  destruct input as [|c t];
    [split; [reflexivity|split; [reflexivity|left; split; reflexivity]]|].
  change (negb (truthy (c :: t))) with false. cbv iota zeta.
  rewrite collapseSpaces_squash.
  match goal with
  | |- context [trim (squash (js " ") false ?x)] =>
      pose proof (trim_squash_tidy x) as Ht;
      assert (Hf : filter notSpace (trim (squash (js " ") false x))
                   = filter notSpace (c :: t));
      [|destruct (trim (squash (js " ") false x)) as [|d u]]
  end.
  - rewrite filter_notSpace_trim, filter_notSpace_squash.
    unfold SearchApi.gluedCity, SearchApi.gluedState, SearchApi.gluedCityState,
      camelCase.
    rewrite !replaceAll_spacing; reflexivity.
  - split; [reflexivity|]. split; [reflexivity|]. left.
    split; [|reflexivity]. apply filter_notSpace_nil. symmetry. exact Hf.
  - split; [reflexivity|]. split; [exact Hf|]. right.
    split; [reflexivity|exact Ht].
Qed.

Module SpacingFacts.
Import Hunter HunterFacts HunterMore.

(** X24: the exclusion check of the lookup ignores spacing: a name that
    is none of the sentinels and whose cleaned, lower-cased form with
    all white space taken out holds an entry of the exclusion list or a
    partial exclusion term, itself with its white space taken out, is
    answered with the Excluded shape, without a request and without a
    change of the cache. *)
Theorem lookup_exclusion_ignores_spacing (fuel : nat) (w : world)
  (companyName locationName source term pre post : jsstring) (st : state) :
  guarded companyName = false ->
  In term (EXCLUDED_COMPANIES ++ PARTIAL_EXCLUSIONS) ->
  filter notSpace (toLowerCase (cleanedNameOf companyName))
  = pre ++ filter notSpace term ++ post ->
  getCompanyInfoWithSource (S fuel) w companyName locationName source st
  = Some (excludedShape w source, st).
Proof.
  intros Hg Hin Hs.
  assert (Hinc : includes (removeSpaces (toLowerCase (cleanedNameOf companyName)))
                          (removeSpaces term) = true).
  { rewrite !removeSpaces_filter, Hs. apply includes_middle. }
  assert (He : isExcludedName companyName = true).
  { unfold isExcludedName. cbv zeta. apply in_app_or in Hin as [Hin|Hin].
    - apply orb_true_iff. left. apply orb_true_iff. right.
      apply existsb_exists. exists term. auto.
    - apply orb_true_iff. right. apply existsb_exists. exists term.
      split; [exact Hin|]. rewrite Hinc. apply orb_true_r. }
  rewrite getCompanyInfoWithSource_unfold, Hg.
  rewrite (beforeFetch_excluded w companyName source st He). reflexivity.
Qed.

Lemma lookup_exclusion_ignores_spacing_witness :
  getCompanyInfoWithSource 1 timingOut (js "W hole  Foods Market") [] (js "company")
    freshState
  = Some (excludedShape timingOut (js "company"), freshState).
Proof.
  apply (@lookup_exclusion_ignores_spacing 0 timingOut (js "W hole  Foods Market")
           [] (js "company") (js "whole foods") [] (js "market") freshState).
  - reflexivity.
  - apply arrayIncludes_In. vm_compute. reflexivity.
  - vm_compute. reflexivity.
Defined.

End SpacingFacts.

(** ** Domains *)

(** The text up to the first occurrence of a character. *)
Fixpoint untilChar (c : char) (s : jsstring) : jsstring :=
  match s with
  | [] => []
  | x :: t => if N.eqb c x then [] else x :: untilChar c t
  end.

Lemma splitAux_head (c : char) (s cur : jsstring) :
  hd [] (splitAux [c] s cur 0) = rev cur ++ untilChar c s.
Proof.
  revert cur; induction s as [|x t IH]; intros cur.
  - simpl. rewrite app_nil_r. reflexivity.
  - cbn [splitAux untilChar].
    replace (startsWith (x :: t) [c]) with (N.eqb c x)
      by (simpl; destruct t; rewrite andb_true_r; reflexivity).
    destruct (N.eqb c x).
    + simpl. rewrite app_nil_r. reflexivity.
    + rewrite IH. simpl. rewrite <- app_assoc. reflexivity.
Qed.

(** [s.split(c)[0]] *)
Lemma split_head (c : char) (s : jsstring) :
  hd [] (split s [c]) = untilChar c s.
Proof. unfold split. rewrite splitAux_head. reflexivity. Qed.

Lemma untilChar_free (c : char) (s : jsstring) :
  forallb (fun x => negb (N.eqb c x)) (untilChar c s) = true.
Proof.
  induction s as [|x t IH]; [reflexivity|]. simpl.
  destruct (N.eqb c x) eqn:E; [reflexivity|]. simpl. rewrite E. exact IH.
Qed.

Lemma untilChar_keeps (p : char -> bool) (c : char) (s : jsstring) :
  forallb p s = true -> forallb p (untilChar c s) = true.
Proof.
  induction s as [|x t IH]; [reflexivity|]. simpl. intros H.
  apply andb_prop in H as [Hx H]. destruct (N.eqb c x); [reflexivity|].
  simpl. rewrite Hx. apply IH. exact H.
Qed.

(** A character that ends a host name in a URL. *)
Definition hostDelimiter (c : char) : bool :=
  N.eqb (chr "/") c || N.eqb (chr "?") c || N.eqb (chr ":") c.

Module DomainFacts.
Import SearchApi.

(** A platform whose URL parser rejects every text. *)
Definition withoutUrlParser : world :=
  mkWorld (fun _ => SearchAnswer None) (fun _ => None) (js "now") toLowerCase.

(** X25: when the URL parser rejects the text, the fall-back of
    [getDomainFromUrl] answers [null] or a text that holds a dot and
    none of the characters that end a host name ('/', '?', ':'); for an
    empty text the answer is [null] whatever the parser does. *)
Theorem getDomainFromUrl_fallback (w : world) (url d : jsstring) :
  urlHostname w (if startsWith url (js "http") then url else js "http://" ++ url)
  = None ->
  getDomainFromUrl w url = Some d ->
  includes d (js ".") = true
  /\ forallb (fun c => negb (hostDelimiter c)) d = true
  /\ getDomainFromUrl w [] = None.
Proof.
  intros Hp. unfold getDomainFromUrl at 1. rewrite Hp.
  destruct (negb (truthy url)); [discriminate|]. cbv zeta.
  change (js "/") with [chr "/"]. change (js "?") with [chr "?"].
  change (js ":") with [chr ":"]. rewrite !split_head.
  set (d0 := replace false wwwPrefix _ _).
  destruct (includes _ (js ".")) eqn:E; [|discriminate].
  intros H. injection H as <-. split; [exact E|]. split; [|reflexivity].
  assert (H1 : forallb (fun x => negb (N.eqb (chr "/") x))
                 (untilChar (chr "/") d0) = true) by apply untilChar_free.
  assert (H2 : forallb (fun x => negb (N.eqb (chr "?") x))
                 (untilChar (chr "?") (untilChar (chr "/") d0)) = true)
    by apply untilChar_free.
  apply (untilChar_keeps _ (chr "?")) in H1.
  apply (untilChar_keeps _ (chr ":")) in H1.
  apply (untilChar_keeps _ (chr ":")) in H2.
  pose proof (untilChar_free (chr ":")
                (untilChar (chr "?") (untilChar (chr "/") d0))) as H3.
  set (r := untilChar (chr ":") _) in *.
  rewrite forallb_forall in *. intros c Hc.
  specialize (H1 c Hc). specialize (H2 c Hc). specialize (H3 c Hc).
  unfold hostDelimiter. rewrite !negb_orb, H1, H2, H3. reflexivity.
Qed.

Lemma getDomainFromUrl_fallback_witness :
  includes (js "acme.com") (js ".") = true
  /\ forallb (fun c => negb (hostDelimiter c)) (js "acme.com") = true
  /\ getDomainFromUrl withoutUrlParser [] = None.
Proof.
  apply (@getDomainFromUrl_fallback withoutUrlParser
           (js "https://www.acme.com:8080/menu?x=1") (js "acme.com"));
    vm_compute; reflexivity.
Defined.

End DomainFacts.

(** ** Nothing but a name *)

(** X26: [parseCompanyAndLocation], its name notwithstanding, never
    answers a location: whatever the raw text, the location of the result
    is the empty string, and the name is never empty. *)
Theorem parse_never_answers_a_location (EXCLUDED_COMPANIES : list jsstring)
  (rawName : jsstring) :
  location (parseCompanyAndLocation EXCLUDED_COMPANIES rawName) = []
  /\ truthy (name (parseCompanyAndLocation EXCLUDED_COMPANIES rawName)) = true.
Proof.
  destruct (parse_cases EXCLUDED_COMPANIES rawName)
    as [->|[[excludedName [_ ->]]|[->|[namePart ->]]]]; try (split; reflexivity).
  destruct (classify_cases namePart) as [->|[-> [Hlen _]]];
    [split; reflexivity|].
  split; [reflexivity|].
  destruct namePart; [unfold len in Hlen; simpl in Hlen; lia|reflexivity].
Qed.

(** ** LinkedIn pages and domains of the merged answer *)

Lemma setAdd_NoDup (x : jsstring) (set : list jsstring) :
  NoDup set -> NoDup (Hunter.setAdd x set).
Proof.
  intros H. unfold Hunter.setAdd. destruct (arrayIncludes set x) eqn:E; [exact H|].
  apply NoDup_snoc; [exact H|]. intros Hin. apply arrayIncludes_In in Hin.
  congruence.
Qed.

(** A set filled from the results that pass a test. *)
Lemma fold_setAdd {R : Type} (ok : R -> bool) (f : R -> jsstring)
  (results : list R) (set : list jsstring) :
  NoDup set ->
  NoDup (fold_left (fun set r => if ok r then Hunter.setAdd (f r) set else set)
                   results set)
  /\ forall x,
       In x (fold_left (fun set r => if ok r then Hunter.setAdd (f r) set else set)
                       results set)
       <-> In x set \/ exists r, In r results /\ ok r = true /\ f r = x.
Proof.
  revert set; induction results as [|r results IH]; intros set Hnd; simpl.
  - split; [exact Hnd|]. intros x. split; [auto|].
    intros [H|[r [[] _]]]. exact H.
  - destruct (ok r) eqn:Er.
    + destruct (IH (Hunter.setAdd (f r) set) (setAdd_NoDup (f r) Hnd))
        as [Hn Hm].
      split; [exact Hn|]. intros x. rewrite Hm, setAdd_In. split.
      * intros [[->|H]|[r' [Hin [Hok Hf]]]]; auto.
        -- right. exists r. auto.
        -- right. exists r'. auto.
      * intros [H|[r' [[<-|Hin] [Hok Hf]]]]; auto.
        right. exists r'. auto.
    + destruct (IH set Hnd) as [Hn Hm]. split; [exact Hn|].
      intros x. rewrite Hm. split.
      * intros [H|[r' [Hin [Hok Hf]]]]; auto. right. exists r'. auto.
      * intros [H|[r' [[<-|Hin] [Hok Hf]]]]; auto; [congruence|].
        right. exists r'. auto.
Qed.

(** A LinkedIn value worth keeping: not empty and none of the
    placeholders 'N/A', 'Excluded' and 'Error'. *)
Definition properLinkedin (l : jsstring) : bool :=
  truthy l && negb (jseqb l NA) && negb (jseqb l (js "Excluded"))
  && negb (jseqb l (js "Error")).

Definition properDomain (d : jsstring) : bool :=
  truthy d && negb (jseqb d NA).

(** X27: the LinkedIn field of the merged answer of the Hunter
    generation is the '; '-joined list, or 'N/A' when the list is empty,
    of the LinkedIn values of the results that are none of the
    placeholders ('', 'N/A', 'Excluded', 'Error'), each value once; the
    domain field is built the same way from the domains other than ''
    and 'N/A'.  So the placeholders of a skipped, excluded or failed
    strategy never show among the merged values. *)
Theorem hunter_merged_pages_deduplicated (w : Hunter.world)
  (allResults : list Hunter.strategyResult) :
  exists linkedins domains,
    Hunter.mr_linkedin (Hunter.mergeResults w allResults)
    = orElse (join (js "; ") linkedins) NA
    /\ Hunter.mr_domain (Hunter.mergeResults w allResults)
       = orElse (join (js "; ") domains) NA
    /\ NoDup linkedins /\ NoDup domains
    /\ (forall l, In l linkedins <->
                  properLinkedin l = true
                  /\ exists r, In r allResults /\ linkedin (Hunter.s_data r) = l)
    /\ (forall d, In d domains <->
                  properDomain d = true
                  /\ exists r, In r allResults /\ domain (Hunter.s_data r) = d).
Proof.
  unfold Hunter.mergeResults. cbv zeta.
  destruct (fold_left _ (sort _ allResults) ([], [])) as [added merged].
  cbn [Hunter.mr_linkedin Hunter.mr_domain].
  destruct (@fold_setAdd _ (fun r => properLinkedin (linkedin (Hunter.s_data r)))
              (fun r => linkedin (Hunter.s_data r)) allResults [] (NoDup_nil _))
    as [Hn1 Hm1].
  destruct (@fold_setAdd _ (fun r => properDomain (domain (Hunter.s_data r)))
              (fun r => domain (Hunter.s_data r)) allResults [] (NoDup_nil _))
    as [Hn2 Hm2].
  eexists. eexists. split; [reflexivity|]. split; [reflexivity|].
  split; [exact Hn1|]. split; [exact Hn2|]. split.
  - intros l. rewrite Hm1. split.
    + intros [[]|[r [Hin [Hok <-]]]]. split; [exact Hok|]. exists r. auto.
    + intros [Hok [r [Hin <-]]]. right. exists r. auto.
  - intros d. rewrite Hm2. split.
    + intros [[]|[r [Hin [Hok <-]]]]. split; [exact Hok|]. exists r. auto.
    + intros [Hok [r [Hin <-]]]. right. exists r. auto.
Qed.

(** ** From the website found to the domain answered *)

Lemma splitAux_no_separator (s cur : jsstring) :
  forallb (fun c => negb (N.eqb (chr ";") c)) s = true ->
  splitAux (js "; ") s cur 0 = [rev cur ++ s].
Proof.
  revert cur; induction s as [|x t IH]; intros cur H.
  - simpl. rewrite app_nil_r. reflexivity.
  - simpl in H. apply andb_prop in H as [Hx H]. apply negb_true_iff in Hx.
    cbn [splitAux].
    replace (startsWith (x :: t) (js "; ")) with false
      by (change (js "; ") with [chr ";"; chr " "]; simpl; rewrite Hx; reflexivity).
    rewrite (IH (x :: cur) H). simpl. rewrite <- app_assoc. reflexivity.
Qed.

Module ResolutionFacts.
Import SearchApi SearchApiFacts.

(** A search service that knows one website, on a platform whose URL
    parser knows its host. *)
Definition knowingAcme : world :=
  mkWorld (fun _ => SearchAnswer (Some (js "https://www.acme.com/menu")))
          (fun _ => Some (js "www.acme.com")) (js "now") toLowerCase.

(** X28: when the parsed company name is searched for (it is not empty
    and does not start with 'Excluded'), the search service answers a
    website, and [getDomainFromUrl] reads a domain off it that is none of
    the sentinels and holds no semicolon, then the merged answer of a job
    without parent company carries exactly that domain, after exactly one
    call of the search service. *)
Theorem found_website_becomes_the_domain (w : world)
  (rawCompanyName rawLocation url d : jsstring) :
  truthy (name (parseCompanyAndLocation rawCompanyName)) = true ->
  startsWith (name (parseCompanyAndLocation rawCompanyName)) (js "Excluded")
  = false ->
  searchAPI w (name (parseCompanyAndLocation rawCompanyName))
  = SearchAnswer (Some url) ->
  getDomainFromUrl w url = Some d ->
  negb (truthy d) || jseqb d (js "Unknown") || startsWith d (js "Excluded:")
  = false ->
  jseqb d NA = false ->
  forallb (fun c => negb (N.eqb (chr ";") c)) d = true ->
  getCompanyInfo w rawCompanyName rawLocation None
  = (mkMerged NA d NA [] (now w) (js "merged") 0 None [d],
     [EvSearch (name (parseCompanyAndLocation rawCompanyName))]).
Proof.
  intros Ht He Hs Hd Hg Hna Hsemi.
  assert (Hu : truthy url = true).
  { destruct url; [|reflexivity]. unfold getDomainFromUrl in Hd. simpl in Hd.
    discriminate Hd. }
  assert (Htd : truthy d = true).
  { destruct (truthy d); [reflexivity|discriminate Hg]. }
  unfold getCompanyInfo, runStrategies. cbv zeta.
  rewrite Ht, He. cbn [andb negb].
  unfold primaryTask, getWebsiteUrlFromGoogle. rewrite Hs, Hu, Hd, Htd.
  unfold getCompanyInfoWithSource. rewrite Hg.
  change (jseqb (js "domain") (js "company")) with false.
  change (jseqb (js "domain") (js "domain")) with true.
  cbn [andb app]. cbv iota.
  unfold mergeResults. cbv zeta.
  cbn [sort fold_right insertSorted fold_left linkedin domain size emails source
       filter].
  change (truthy NA && negb (jseqb NA NA) && negb (jseqb NA (js "Excluded"))
          && negb (jseqb NA (js "Error"))) with false.
  change (jseqb NA NA && truthy NA && negb (jseqb NA NA)) with false.
  change (len (@nil contact) >? 0) with false.
  rewrite Htd, Hna. cbn [andb negb]. cbv iota.
  unfold split. rewrite (splitAux_no_separator d [] Hsemi).
  cbn [rev app hd]. unfold setAdd. cbn [arrayIncludes existsb app].
  cbn [addEmails List.map sort fold_right hd join len List.length].
  reflexivity.
Qed.

Lemma found_website_becomes_the_domain_witness :
  getCompanyInfo knowingAcme (js "Acme Kitchen") (js "Boston, MA") None
  = (mkMerged NA (js "acme.com") NA [] (js "now") (js "merged") 0 None
       [js "acme.com"],
     [EvSearch (js "Acme")]).
Proof.
  rewrite (@found_website_becomes_the_domain knowingAcme (js "Acme Kitchen")
             (js "Boston, MA") (js "https://www.acme.com/menu") (js "acme.com"));
    vm_compute; reflexivity.
Defined.

End ResolutionFacts.

(** ** Parsing a parsed name again *)

(** The triggers of the parser's rewriting steps, on a name [n].

    Step 2.5, first half: a place name of five letters or more that
    stands in [n], nowhere after a blank, and somewhere after a letter. *)
Definition gluedCityFound (n location : jsstring) : bool :=
  (len location >=? 5) && includes n location
  && negb (includes n (js " " ++ location))
  && test true (cityPattern location) n.

(** Step 2.5, second half: a venue word glued to a capitalised word. *)
Definition gluedWordFound (n : jsstring) : bool :=
  negb (includes n (js "Barbecue")) && negb (includes n (js " - "))
  && test true wordBoundaryPattern n.

(** Step 3: the whole-name forms, which are kept as they are. *)
Definition keptWhole (n : jsstring) : bool :=
  test true (allCapsPattern "RESTAURANT" "GROUP") n
  || test true (allCapsPattern "HOSPITALITY" "GROUP") n
  || test true (allCapsPattern "FINE" "DINING") n
  || test true (allCapsPattern "CULINARY" "GROUP") n
  || existsb (fun pattern => test true pattern n) excludedEndingPatterns.

(** Step 4: a place name glued to a letter and followed by a boundary. *)
Definition locationCutFound (n : jsstring) : bool :=
  existsb (fun location =>
             match cutAtLocation n location with Some _ => true | None => false end)
          sortedLocations.

(** No step of the parser finds anything left to do on [n]: [n] holds
    only characters the normaliser keeps and no white space at either
    end; it holds no exclusion term (step 0), no glued place name or
    venue word (step 2.5), no camelCase join outside the protected tokens
    (step 6), no legal suffix, no trailing generic noun outside the
    protected groups (step 8) and no job-title prefix (step 9); and
    either it is a whole-name form, or it is the name that replaces
    "Group NYC", or the keyword extraction answers [n] itself, or there
    is no keyword extraction and [n] holds no place name to cut at
    (step 4), no comma (step 5) and no " by " beyond index 11 (step 7). *)
Definition settled (EXCLUDED_COMPANIES : list jsstring) (n : jsstring) : bool :=
  truthy n && negb (jseqb n (js "Unknown"))
  && forallb kept n && jseqb (trim n) n
  && negb (existsb (fun term => includes (removeSpaces (toLowerCase n))
                                         (removeSpaces term))
                   PARTIAL_EXCLUSIONS)
  && negb (existsb (fun excluded => includes (toLowerCase n) excluded)
                   EXCLUDED_COMPANIES)
  && negb (existsb (gluedCityFound n) commonLocations)
  && negb (gluedWordFound n)
  && (keptWhole n
      || (if test true groupNYC n then jseqb n (js "Group NYC Hospitality")
          else match keywordLoop restaurantKeywords n with
               | Some potentialCompany => jseqb potentialCompany n
               | None =>
                   negb (locationCutFound n)
                   && (lastIndexOf n (js ",") =? -1)
                   && (negb (includes n (js " by "))
                       || (indexOf n (js " by ") <=? 11))
               end))
  && (includes n (js "NYC") || includes n (js "SoHo")
      || negb (test false camelCase n))
  && negb (test true legalSuffix n)
  && (test true protectedGroup n || negb (test true genericSuffix n))
  && negb (existsb (fun prefix =>
                      startsWith (toLowerCase n) (toLowerCase prefix ++ js " "))
                   jobTitlePrefixes).




















(** The fixtures, the company texts the parser's own comments give as
    examples, all resolve to a settled name; the name left of a text with
    two job-title prefixes, or with two trailing generic nouns, is not
    settled. *)
Lemma parserFixtures_settled :
  forallb (fun x =>
             isResolved (Hunter.parseCompanyAndLocation x)
             && settled Hunter.EXCLUDED_COMPANIES
                        (name (Hunter.parseCompanyAndLocation x)))
          parserFixtures = true
  /\ settled Hunter.EXCLUDED_COMPANIES
             (name (Hunter.parseCompanyAndLocation (js "Server Server Joes")))
     = false
  /\ settled Hunter.EXCLUDED_COMPANIES
             (name (Hunter.parseCompanyAndLocation
                      (js "The Smith Restaurant Bar")))
     = false.
Proof. vm_compute. repeat split. Qed.


